(** * opencode-obsidian: the session context synchronizer and the process
      supervisor

    A shallow embedding of [OpenCodeClient] (src/WorkspaceContext.ts, second
    part of the file) and of [ProcessManager] (src/ProcessManager.ts), and
    the properties the specification states about them.

    Strings are Rocq [string]s (byte strings); the characters the code
    inspects ('/', '?', '#') are ASCII, so a byte-wise reading agrees with
    the UTF-16 reading of the source on them. *)

From Stdlib Require Import String Ascii List ZArith Bool Lia DecimalString.
Import ListNotations.
Open Scope string_scope.

(* ===================================================================== *)
(** * Part I: OpenCodeClient                                              *)
(* ===================================================================== *)

Module Client.

(** ** Data model (the types declared at the top of the client) *)

(** The [unknown] values of [metadata] are opaque to the client: each is
    kept as its JSON text. *)
Definition Unknown : Type := string.

Record PartTime : Type := { time_start : Z; time_end : option Z }.

(** [type OpenCodePart]; an optional field is an [option]. *)
Record OpenCodePart : Type := {
  part_id : string;
  messageID : string;
  sessionID : string;
  part_type : string;
  text : option string;
  ignored : option bool;
  synthetic : option bool;
  metadata : option (list (string * Unknown));
  time : option PartTime
}.

Record OpenCodeMessageInfo : Type := {
  info_id : string;
  info_sessionID : string
}.

Record OpenCodeMessageWithParts : Type := {
  info : OpenCodeMessageInfo;
  parts : list OpenCodePart
}.

Record OpenCodeSession : Type := { session_id : option string }.

(** [type OpenCodeResponse<T> = T | { data?: T } | { message?: T } | null],
    read at the payloads the declared types allow: the bare payload, the
    payload under [data], the payload under [message], or nothing. *)
Inductive OpenCodeResponse (T : Type) : Type :=
| RNull
| RBare (t : T)
| RData (d : T)
| RMessage (m : T).
Arguments RNull {T}.
Arguments RBare {T} t.
Arguments RData {T} d.
Arguments RMessage {T} m.

(** What [fetch] can do: reject, or resolve with a status and a body that
    parses as JSON ([Some]) or does not ([None], the [.catch(() => null)]). *)
Inductive FetchOutcome (T : Type) : Type :=
| FetchRejects (error : string)
| FetchResolves (ok : bool) (status : Z) (json : option (OpenCodeResponse T)).
Arguments FetchRejects {T} error.
Arguments FetchResolves {T} ok status json.

(** The second argument of [updatePart]: [{ text?: string; ignored?: boolean }]. *)
Record PartUpdates : Type := {
  upd_text : option string;
  upd_ignored : option bool
}.

(** Request bodies, one constructor per object literal passed to [request]. *)
Inductive Body : Type :=
| SessionBody (title : string)
| PromptBody (noReply : bool) (prompt_parts : list (string * string))
| PartBody (p : OpenCodePart).

(** One call of [fetch]: method, url, the [x-opencode-directory] header and
    the body. *)
Record Request : Type := {
  method : string;
  url : string;
  directory : string;
  body : Body
}.

(** The remote server is an oracle: it answers a request knowing every
    request sent so far (the last element of the list is the request being
    answered).  There is one oracle per payload type. *)
Record Server : Type := {
  sessionApi : list Request -> FetchOutcome OpenCodeSession;
  messageApi : list Request -> FetchOutcome OpenCodeMessageWithParts;
  partApi : list Request -> FetchOutcome OpenCodePart
}.

(** The private fields of [class OpenCodeClient]. *)
Record OpenCodeClient : Type := {
  apiBaseUrl : string;
  uiBaseUrl : string;
  projectDirectory : string;
  trackedSessionId : option string;
  lastPart : option OpenCodePart
}.

(** The client together with what it has done to the outside: the requests
    sent, oldest first, and the console lines written. *)
Record World : Type := {
  this : OpenCodeClient;
  sent : list Request;
  console : list string
}.

(** ** JavaScript truthiness at the types used *)

Definition truthy_string (s : string) : bool := negb (s =? "").

Definition truthy_opt_string (o : option string) : bool :=
  match o with
  | Some s => truthy_string s
  | None => false
  end.

(** ** String helpers *)

Definition is_slash (c : ascii) : bool := Ascii.eqb c "/"%char.

(** [baseUrl.replace(/\/+$/, "")]: the maximal run of slashes at the end of
    the string is removed. *)
Fixpoint normalizeBaseUrl (baseUrl : string) : string :=
  match baseUrl with
  | EmptyString => EmptyString
  | String c rest =>
      let rest' := normalizeBaseUrl rest in
      if is_slash c && (rest' =? "") then EmptyString else String c rest'
  end.

(** [s] without the prefix [p], when [s] starts with [p]. *)
Fixpoint strip_prefix (p s : string) : option string :=
  match p with
  | EmptyString => Some s
  | String a p' =>
      match s with
      | EmptyString => None
      | String b s' => if Ascii.eqb a b then strip_prefix p' s' else None
      end
  end.

(** The character class [[^/?#]]. *)
Definition segment_char (c : ascii) : bool :=
  negb (Ascii.eqb c "/"%char || Ascii.eqb c "?"%char || Ascii.eqb c "#"%char).

(** The greedy [[^/?#]+] read from the start of [s] (empty when it does not
    match). *)
Fixpoint take_segment (s : string) : string :=
  match s with
  | EmptyString => EmptyString
  | String c rest => if segment_char c then String c (take_segment rest) else EmptyString
  end.

(** [s.match(/\/session\/([^/?#]+)/)?.[1] ?? null]: the leftmost position at
    which "/session/" is followed by at least one segment character; the
    group is the maximal run of segment characters there. *)
Fixpoint match_session (s : string) : option string :=
  match strip_prefix "/session/" s with
  | Some after =>
      match take_segment after with
      | EmptyString =>
          match s with
          | EmptyString => None
          | String _ rest => match_session rest
          end
      | seg => Some seg
      end
  | None =>
      match s with
      | EmptyString => None
      | String _ rest => match_session rest
      end
  end.

(** ** Pure operations of the client *)

(** [constructor(apiBaseUrl, uiBaseUrl, projectDirectory)] *)
Definition new_OpenCodeClient (api ui dir : string) : OpenCodeClient :=
  {| apiBaseUrl := normalizeBaseUrl api;
     uiBaseUrl := normalizeBaseUrl ui;
     projectDirectory := dir;
     trackedSessionId := None;
     lastPart := None |}.

Definition resetTracking (c : OpenCodeClient) : OpenCodeClient :=
  {| apiBaseUrl := apiBaseUrl c;
     uiBaseUrl := uiBaseUrl c;
     projectDirectory := projectDirectory c;
     trackedSessionId := None;
     lastPart := None |}.

Definition updateBaseUrl (c : OpenCodeClient) (api ui dir : string) : OpenCodeClient :=
  let nextApiUrl := normalizeBaseUrl api in
  let nextUiUrl := normalizeBaseUrl ui in
  if negb (nextApiUrl =? apiBaseUrl c)
     || negb (nextUiUrl =? uiBaseUrl c)
     || negb (dir =? projectDirectory c)
  then
    resetTracking
      {| apiBaseUrl := nextApiUrl;
         uiBaseUrl := nextUiUrl;
         projectDirectory := dir;
         trackedSessionId := trackedSessionId c;
         lastPart := lastPart c |}
  else c.

Definition getSessionUrl (c : OpenCodeClient) (sessionId : string) : string :=
  uiBaseUrl c ++ "/session/" ++ sessionId.

Definition resolveSessionId (c : OpenCodeClient) (iframeUrl : string) : option string :=
  match_session iframeUrl.

(** [unwrap]: a null result is null; a payload under [data] or [message] is
    taken out; anything else is the payload itself. *)
Definition unwrap {T : Type} (result : OpenCodeResponse T) : option T :=
  match result with
  | RNull => None
  | RData d => Some d
  | RMessage m => Some m
  | RBare t => Some t
  end.

(** [{ ...part, ...updates }] *)
Definition spread (part : OpenCodePart) (updates : PartUpdates) : OpenCodePart :=
  {| part_id := part_id part;
     messageID := messageID part;
     sessionID := sessionID part;
     part_type := part_type part;
     text := match upd_text updates with Some t => Some t | None => text part end;
     ignored := match upd_ignored updates with Some i => Some i | None => ignored part end;
     synthetic := synthetic part;
     metadata := metadata part;
     time := time part |}.

(** ** The asynchronous operations

    The client is used by one caller at a time (the operations are not
    interleaved), so an [async] method is a function from the world before
    the call to its result and the world after it. *)

Definition Async (A : Type) : Type := World -> A * World.

Definition ret {A : Type} (a : A) : Async A := fun w => (a, w).

Definition bind {A B : Type} (m : Async A) (f : A -> Async B) : Async B :=
  fun w => let (a, w') := m w in f a w'.

Notation "x <- m ;; k" := (bind m (fun x => k))
  (at level 61, m at next level, right associativity).
Notation "m ;;; k" := (bind m (fun _ => k))
  (at level 61, right associativity).

Definition get_this : Async OpenCodeClient := fun w => (this w, w).

Definition set_tracking (sid : option string) (p : option OpenCodePart) : Async unit :=
  fun w =>
    (tt, {| this := {| apiBaseUrl := apiBaseUrl (this w);
                       uiBaseUrl := uiBaseUrl (this w);
                       projectDirectory := projectDirectory (this w);
                       trackedSessionId := sid;
                       lastPart := p |};
            sent := sent w;
            console := console w |}).

Definition set_trackedSessionId (sid : option string) : Async unit :=
  c <- get_this ;; set_tracking sid (lastPart c).

Definition set_lastPart (p : option OpenCodePart) : Async unit :=
  c <- get_this ;; set_tracking (trackedSessionId c) p.

Definition console_write (line : string) : Async unit :=
  fun w => (tt, {| this := this w; sent := sent w; console := (console w ++ [line])%list |}).

(** [fetch(url, {method, headers, body})]: the request is recorded and the
    oracle [api] answers it. *)
Definition fetch {T : Type} (api : list Request -> FetchOutcome T)
    (req : Request) : Async (FetchOutcome T) :=
  fun w =>
    let log := (sent w ++ [req])%list in
    (api log, {| this := this w; sent := log; console := console w |}).

(** [request<T>(method, path, body)].  The type parameter [T] of the source
    is the choice of the oracle [api]. *)
Definition request {T : Type} (api : list Request -> FetchOutcome T)
    (meth path : string) (b : Body) : Async (OpenCodeResponse T) :=
  c <- get_this ;;
  response <- fetch api {| method := meth;
                           url := apiBaseUrl c ++ path;
                           directory := projectDirectory c;
                           body := b |} ;;
  match response with
  | FetchRejects _ =>
      console_write "[OpenCode] API request error" ;;; ret RNull
  | FetchResolves false _ _ =>
      console_write "[OpenCode] API request failed" ;;; ret RNull
  | FetchResolves true _ None => ret RNull
  | FetchResolves true _ (Some json) => ret json
  end.

Section WithServer.

Variable srv : Server.

Definition createSession : Async (option string) :=
  result <- request (sessionApi srv) "POST" "/session" (SessionBody "Obsidian") ;;
  match unwrap result with
  | Some session => ret (session_id session)
  | None => ret None
  end.

Definition sendPrompt (sessionId contextText : string)
  : Async (option OpenCodeMessageWithParts) :=
  result <- request (messageApi srv) "POST" ("/session/" ++ sessionId ++ "/message")
              (PromptBody true [("text", contextText)]) ;;
  console_write "[OpenCode] Injected context message" ;;;
  console_write contextText ;;;
  match unwrap result with
  | Some message => ret (Some message)
  | None =>
      console_write "[OpenCode] Failed to inject context message" ;;; ret None
  end.

Definition updatePart (part : OpenCodePart) (updates : PartUpdates) : Async bool :=
  result <- request (partApi srv) "PATCH"
              ("/session/" ++ sessionID part ++ "/message/" ++ messageID part
                 ++ "/part/" ++ part_id part)
              (PartBody (spread part updates)) ;;
  match unwrap result with
  | Some updated => set_lastPart (Some updated) ;;; ret true
  | None => ret false
  end.

Definition ignorePreviousPart : Async bool :=
  c <- get_this ;;
  match lastPart c with
  | None => ret false
  | Some part =>
      ignored <- updatePart part {| upd_text := None; upd_ignored := Some true |} ;;
      if negb ignored then ret false
      else set_lastPart None ;;; ret true
  end.

(** [updateContext({ sessionId, contextText })] *)
Definition updateContext (sessionId : string) (contextText : option string)
  : Async unit :=
  c <- get_this ;;
  (if truthy_opt_string (trackedSessionId c)
      && negb (match trackedSessionId c with
               | Some t => t =? sessionId
               | None => false
               end)
   then set_tracking None None
   else ret tt) ;;;
  set_trackedSessionId (Some sessionId) ;;;
  match contextText with
  | None => ignorePreviousPart ;;; ret tt
  | Some ctx =>
      if negb (truthy_string ctx) then ignorePreviousPart ;;; ret tt
      else
        c1 <- get_this ;;
        fallthrough <-
          match lastPart c1 with
          | Some part =>
              updated <- updatePart part {| upd_text := Some ctx; upd_ignored := None |} ;;
              if updated then ret false
              else ignorePreviousPart ;;; ret true
          | None => ret true
          end ;;
        if negb fallthrough then ret tt
        else
          message <- sendPrompt sessionId ctx ;;
          match message with
          | Some m =>
              if truthy_string (info_id (info m))
              then set_lastPart (hd_error (parts m))
              else ret tt
          | None => ret tt
          end
  end.

End WithServer.

(** ** Vocabulary of the statements *)

(** What [request] returns for each outcome of [fetch]. *)
Definition response_json {T : Type} (r : FetchOutcome T) : OpenCodeResponse T :=
  match r with
  | FetchResolves true _ (Some json) => json
  | _ => RNull
  end.

(** The request by which [sendPrompt] creates a message. *)
Definition POST_message (c : OpenCodeClient) (sessionId contextText : string) : Request :=
  {| method := "POST";
     url := apiBaseUrl c ++ "/session/" ++ sessionId ++ "/message";
     directory := projectDirectory c;
     body := PromptBody true [("text", contextText)] |}.

(** The request by which [updatePart] updates [part]. *)
Definition PATCH_part (c : OpenCodeClient) (part : OpenCodePart) (updates : PartUpdates)
  : Request :=
  {| method := "PATCH";
     url := apiBaseUrl c ++ "/session/" ++ sessionID part ++ "/message/"
              ++ messageID part ++ "/part/" ++ part_id part;
     directory := projectDirectory c;
     body := PartBody (spread part updates) |}.

(** [c] with [lastPart] replaced. *)
Definition with_lastPart (c : OpenCodeClient) (p : option OpenCodePart) : OpenCodeClient :=
  {| apiBaseUrl := apiBaseUrl c;
     uiBaseUrl := uiBaseUrl c;
     projectDirectory := projectDirectory c;
     trackedSessionId := trackedSessionId c;
     lastPart := p |}.

(** [c] with [trackedSessionId] replaced. *)
Definition with_tracked (c : OpenCodeClient) (sid : option string) : OpenCodeClient :=
  {| apiBaseUrl := apiBaseUrl c;
     uiBaseUrl := uiBaseUrl c;
     projectDirectory := projectDirectory c;
     trackedSessionId := sid;
     lastPart := lastPart c |}.

(** The client after the first two statements of [updateContext]: tracking
    is reset when a truthy tracked id differs from [sessionId], then
    [sessionId] is tracked. *)
Definition adopt (c : OpenCodeClient) (sessionId : string) : OpenCodeClient :=
  with_tracked
    (if truthy_opt_string (trackedSessionId c)
        && negb (match trackedSessionId c with
                 | Some t => t =? sessionId
                 | None => false
                 end)
     then resetTracking c
     else c)
    (Some sessionId).

Definition adopted (w : World) (sessionId : string) : World :=
  {| this := adopt (this w) sessionId; sent := sent w; console := console w |}.

Definition set_text (t : string) : PartUpdates := {| upd_text := Some t; upd_ignored := None |}.
Definition set_ignored : PartUpdates := {| upd_text := None; upd_ignored := Some true |}.

(** The requests sent between world [w] and the later world [w']. *)
Definition issued_by (w w' : World) : list Request := skipn (length (sent w)) (sent w').

Definition count_method (m : string) (l : list Request) : nat :=
  length (filter (fun r => method r =? m) l).

(** A world in which the client is [c] and nothing has been sent. *)
Definition fresh_world (c : OpenCodeClient) : World :=
  {| this := c; sent := []; console := [] |}.

(** [m] leaves [trackedSessionId] as it is. *)
Definition keeps_tracked {A : Type} (m : Async A) : Prop :=
  forall w, trackedSessionId (this (snd (m w))) = trackedSessionId (this w).


(** The states a client can be in: built by the constructor and changed by
    the public methods, against any server and after any requests. *)
Inductive reachable : OpenCodeClient -> Prop :=
| reach_new (api ui dir : string) :
    reachable (new_OpenCodeClient api ui dir)
| reach_updateBaseUrl (c : OpenCodeClient) (api ui dir : string) :
    reachable c -> reachable (updateBaseUrl c api ui dir)
| reach_resetTracking (c : OpenCodeClient) :
    reachable c -> reachable (resetTracking c)
| reach_createSession (srv : Server) (w : World) :
    reachable (this w) -> reachable (this (snd (createSession srv w)))
| reach_updateContext (srv : Server) (w : World) (sessionId : string)
    (contextText : option string) :
    reachable (this w) -> reachable (this (snd (updateContext srv sessionId contextText w))).

(** All characters of [s] are segment characters. *)
Fixpoint segment_only (s : string) : bool :=
  match s with
  | EmptyString => true
  | String c rest => segment_char c && segment_only rest
  end.

(** ** Concrete clients and servers *)

Definition demo_client : OpenCodeClient :=
  new_OpenCodeClient "http://127.0.0.1:4096/" "http://127.0.0.1:4096/L3ZhdWx0" "/vault".

Definition demo_part (sid : string) (t : string) : OpenCodePart :=
  {| part_id := "prt_1"; messageID := "msg_1"; sessionID := sid; part_type := "text";
     text := Some t; ignored := None; synthetic := None; metadata := None;
     time := None |}.

Definition no_request : Request :=
  {| method := EmptyString; url := EmptyString; directory := EmptyString;
     body := SessionBody EmptyString |}.

(** A server that accepts everything: a created message has one part that
    carries the prompt, an updated part is echoed. *)
Definition echo_server : Server :=
  {| sessionApi := fun _ =>
       FetchResolves true 200 (Some (RBare {| session_id := Some "ses_1" |}));
     messageApi := fun log =>
       match body (last log no_request) with
       | PromptBody _ ((_, t) :: _) =>
           FetchResolves true 200
             (Some (RData {| info := {| info_id := "msg_1"; info_sessionID := "ses_1" |};
                             parts := [demo_part "ses_1" t] |}))
       | _ => FetchResolves false 400 None
       end;
     partApi := fun log =>
       match body (last log no_request) with
       | PartBody p => FetchResolves true 200 (Some (RBare p))
       | _ => FetchResolves false 400 None
       end |}.

(** The same server, except that every part update is refused (404). *)
Definition refusing_server : Server :=
  {| sessionApi := sessionApi echo_server;
     messageApi := messageApi echo_server;
     partApi := fun _ => FetchResolves false 404 None |}.

(** ** Further vocabulary of the statements *)

(** [n] slashes. *)
Fixpoint slashes (n : nat) : string :=
  match n with
  | O => EmptyString
  | S n' => String "/"%char (slashes n')
  end.

(** The last character of [s] is a slash. *)
Fixpoint ends_with_slash (s : string) : bool :=
  match s with
  | EmptyString => false
  | String c EmptyString => is_slash c
  | String _ rest => ends_with_slash rest
  end.

(** What may follow the session segment in a URL: nothing, or a character
    that ends the segment. *)
Definition ends_segment (rest : string) : bool :=
  match rest with
  | EmptyString => true
  | String c _ => negb (segment_char c)
  end.

(** [updateContext(sessionId, t)] for each text of [texts] in turn. *)
Fixpoint updateContexts (srv : Server) (sessionId : string) (texts : list string)
  : Async unit :=
  match texts with
  | [] => ret tt
  | t :: rest => updateContext srv sessionId (Some t) ;;; updateContexts srv sessionId rest
  end.

(** A server that accepts what the client sends: a message creation is
    answered with a message that has an id and a first part, a part update
    with a part. *)
Definition accepting (srv : Server) : Prop :=
  (forall log c sid t,
      exists m p ps,
        unwrap (response_json (messageApi srv (log ++ [POST_message c sid t])%list)) = Some m
        /\ info_id (info m) <> EmptyString
        /\ parts m = p :: ps)
  /\ (forall log c part upd,
         exists u,
           unwrap (response_json (partApi srv (log ++ [PATCH_part c part upd])%list)) = Some u).

(** A server that cannot be reached, or refuses everything: no request
    yields a payload. *)
Definition unreachable (srv : Server) : Prop :=
  (forall log, response_json (sessionApi srv log) = RNull)
  /\ (forall log, response_json (messageApi srv log) = RNull)
  /\ (forall log, response_json (partApi srv log) = RNull).

Definition dead_server : Server :=
  {| sessionApi := fun _ => FetchRejects "ECONNREFUSED";
     messageApi := fun _ => FetchRejects "ECONNREFUSED";
     partApi := fun _ => FetchResolves false 503 None |}.

(** The shapes of what one call sends. *)
Inductive call_shape (c : OpenCodeClient) (sid : string) (ctx : option string)
  : list Request -> Prop :=
| shape_nothing :
    truthy_opt_string ctx = false -> call_shape c sid ctx []
| shape_ignore (part : OpenCodePart) :
    truthy_opt_string ctx = false ->
    call_shape c sid ctx [PATCH_part c part set_ignored]
| shape_create (t : string) :
    ctx = Some t -> truthy_string t = true ->
    call_shape c sid ctx [POST_message c sid t]
| shape_update (t : string) (part : OpenCodePart) :
    ctx = Some t -> truthy_string t = true ->
    call_shape c sid ctx [PATCH_part c part (set_text t)]
| shape_replace (t : string) (part : OpenCodePart) :
    ctx = Some t -> truthy_string t = true ->
    call_shape c sid ctx [PATCH_part c part (set_text t);
                          PATCH_part c part set_ignored;
                          POST_message c sid t].

End Client.

(* ===================================================================== *)
(** * Part II: ProcessManager                                             *)
(* ===================================================================== *)

Module Base64.

(** ** [btoa]

    The platform function [btoa]: the base64 encoding of RFC 4648, with
    padding, of a string whose characters are code units below 256, each
    read as one byte. *)

Definition alphabet : string :=
  "ABCDEFGHIJKLMNOPQRSTUVWXYZabcdefghijklmnopqrstuvwxyz0123456789+/".

Definition pad : ascii := "="%char.

(** The byte of a character. *)
Definition code (c : ascii) : Z := Z.of_N (N_of_ascii c).

(** The character of a six-bit value. *)
Definition digit (v : Z) : ascii :=
  match String.get (Z.to_nat v) alphabet with
  | Some c => c
  | None => pad
  end.

Fixpoint btoa (s : string) : string :=
  match s with
  | EmptyString => EmptyString
  | String a EmptyString =>
      let x := code a in
      String (digit (x / 4))
        (String (digit (x mod 4 * 16))
           (String pad (String pad EmptyString)))
  | String a (String b EmptyString) =>
      let x := code a in
      let y := code b in
      String (digit (x / 4))
        (String (digit (x mod 4 * 16 + y / 16))
           (String (digit (y mod 16 * 4)) (String pad EmptyString)))
  | String a (String b (String c rest)) =>
      let x := code a in
      let y := code b in
      let z := code c in
      String (digit (x / 4))
        (String (digit (x mod 4 * 16 + y / 16))
           (String (digit (y mod 16 * 4 + z / 64))
              (String (digit (z mod 64)) (btoa rest))))
  end%Z.

(** ** Reading an encoding back *)

Fixpoint index_of (c : ascii) (s : string) (i : Z) : option Z :=
  match s with
  | EmptyString => None
  | String d rest => if Ascii.eqb c d then Some i else index_of c rest (i + 1)%Z
  end.

(** The six-bit value of a character of the alphabet. *)
Definition value (c : ascii) : option Z := index_of c alphabet 0.

Definition char_of (v : Z) : ascii := ascii_of_N (Z.to_N v).

(** The bytes of a padded base64 text. *)
Fixpoint decode (s : string) : option string :=
  match s with
  | EmptyString => Some EmptyString
  | String c1 (String c2 (String c3 (String c4 rest))) =>
      match value c1, value c2 with
      | Some v1, Some v2 =>
          let a := char_of (v1 * 4 + v2 / 16) in
          if Ascii.eqb c3 pad then
            if Ascii.eqb c4 pad && (rest =? "")%string
            then Some (String a EmptyString)
            else None
          else
            match value c3 with
            | Some v3 =>
                let b := char_of (v2 mod 16 * 16 + v3 / 4) in
                if Ascii.eqb c4 pad then
                  if (rest =? "")%string then Some (String a (String b EmptyString)) else None
                else
                  match value c4, decode rest with
                  | Some v4, Some r =>
                      Some (String a (String b (String (char_of (v3 mod 4 * 64 + v4)) r)))
                  | _, _ => None
                  end
            | None => None
            end
      | _, _ => None
      end
  | _ => None
  end%Z.

(** The six-bit values. *)
Definition sextets : list Z := map Z.of_nat (seq 0 64).

End Base64.

Module Supervisor.

(** ** Data model *)

Inductive ProcessState : Type := stopped | starting | running | error.

(** The fields of [OpenCodeSettings] (declared in ./types) that the process
    manager reads. *)
Record OpenCodeSettings : Type := {
  port : Z;
  hostname : string;
  opencodePath : string;
  startupTimeout : Z
}.

(** A [ChildProcess] object: [cid] tells the objects apart, [pid] is
    undefined when the process could not be spawned. *)
Record ChildProcess : Type := {
  cid : nat;
  pid : option Z
}.

Inductive Signal : Type := SIGTERM | SIGKILL.

(** [process.platform === "win32"], or any other platform. *)
Inductive Platform : Type := win32 | posix.

(** The private fields of [class ProcessManager]; the [onStateChange]
    callback is observed through the trace. *)
Record ProcessManager : Type := {
  process : option ChildProcess;
  state : ProcessState;
  lastError : option string;
  earlyExitCode : option Z;
  settings : OpenCodeSettings;
  projectDirectory : string
}.

(** ** The outside world

    What the code asks of the runtime and of the operating system. *)
Inductive Query : Type :=
| Health (host : string) (prt : Z) (dir : string)
    (* GET http://host:prt/btoa(dir)/global/health, aborted after 2000 ms *)
| Sleep (ms : Z)
    (* setTimeout(resolve, ms) *)
| Spawn (command : string) (args : list string) (cwd : string) (detached : bool)
    (* child_process.spawn *)
| Kill (target : Z) (signal : Signal)
    (* process.kill(target, signal) *)
| Exec (command : string)
    (* child_process.exec(command, callback) *)
| WaitExit (proc : ChildProcess) (timeoutMs : Z).
    (* the promise of waitForProcessExit: exit or error of proc, or the timer *)

(** What the world answers. *)
Inductive Answer : Type :=
| AUnit                        (* returned, or fulfilled, with no value *)
| ABool (b : bool)             (* response.ok; exit seen (true) or timer fired (false) *)
| ASpawned (c : ChildProcess)  (* the object spawn returned *)
| AError (e : string).         (* thrown, rejected, or called back with an error *)

(** What an observer of the process manager sees, in order. *)
Inductive Event : Type :=
| StateChange (s : ProcessState)   (* onStateChange(s) *)
| ConsoleLog (line : string)
| ConsoleError (line : string)
| IO (q : Query).                  (* the query is issued *)

(** The manager in its world. [now] is [Date.now()]; [children] are the
    child objects created so far, [exited] and [errored] the [cid]s whose
    exit, respectively error, event has been delivered. *)
Record Sys : Type := {
  this : ProcessManager;
  trace : list Event;
  now : Z;
  platform : Platform;
  children : list ChildProcess;
  exited : list nat;
  errored : list nat
}.

(** ** Programs

    A method body is a tree of synchronous steps and queries.  [Read] reads
    the fields of [this], [Date.now()], [process.platform] and the exit
    status of the child objects; [Write] assigns fields of [this]; [Emit] is
    a step an observer sees; [Ask] hands a query to the outside and goes on
    with the answer.  Between a query and its answer the event loop below
    may deliver events of the children and further calls.  For an [await]
    of the source that is what happens; [spawn] and [process.kill], which
    the source calls synchronously, are queries as well, so the model lets
    more happen around them than the source does.  An [await] of a promise
    that is already settled is not a point at which anything else runs.
    [Spin] marks a poll loop that used up its iteration bound. *)
Inductive Prog (A : Type) : Type :=
| Ret (a : A)
| Throw (e : string)
| Read (k : Sys -> Prog A)
| Write (f : ProcessManager -> ProcessManager) (k : Prog A)
| Emit (e : Event) (k : Prog A)
| Ask (q : Query) (k : Answer -> Prog A)
| Spin.
Arguments Ret {A} a.
Arguments Throw {A} e.
Arguments Read {A} k.
Arguments Write {A} f k.
Arguments Emit {A} e k.
Arguments Ask {A} q k.
Arguments Spin {A}.

Fixpoint bind {A B : Type} (p : Prog A) (f : A -> Prog B) : Prog B :=
  match p with
  | Ret a => f a
  | Throw e => Throw e
  | Read k => Read (fun s => bind (k s) f)
  | Write g k => Write g (bind k f)
  | Emit e k => Emit e (bind k f)
  | Ask q k => Ask q (fun a => bind (k a) f)
  | Spin => Spin
  end.

Notation "x <- m ;; k" := (bind m (fun x => k))
  (at level 61, m at next level, right associativity).
Notation "m ;;; k" := (bind m (fun _ => k))
  (at level 61, right associativity).

Definition read : Prog Sys := Read (fun s => Ret s).
Definition write (f : ProcessManager -> ProcessManager) : Prog unit := Write f (Ret tt).
Definition emit (e : Event) : Prog unit := Emit e (Ret tt).
Definition ask (q : Query) : Prog Answer := Ask q (fun a => Ret a).
Definition console_log (line : string) : Prog unit := emit (ConsoleLog line).
Definition console_error (line : string) : Prog unit := emit (ConsoleError line).

(** Field updates of [this]. *)
Definition set_process (p : option ChildProcess) (m : ProcessManager) : ProcessManager :=
  {| process := p; state := state m; lastError := lastError m;
     earlyExitCode := earlyExitCode m; settings := settings m;
     projectDirectory := projectDirectory m |}.

Definition set_state (s : ProcessState) (m : ProcessManager) : ProcessManager :=
  {| process := process m; state := s; lastError := lastError m;
     earlyExitCode := earlyExitCode m; settings := settings m;
     projectDirectory := projectDirectory m |}.

Definition set_lastError (e : option string) (m : ProcessManager) : ProcessManager :=
  {| process := process m; state := state m; lastError := e;
     earlyExitCode := earlyExitCode m; settings := settings m;
     projectDirectory := projectDirectory m |}.

Definition set_earlyExitCode (c : option Z) (m : ProcessManager) : ProcessManager :=
  {| process := process m; state := state m; lastError := lastError m;
     earlyExitCode := c; settings := settings m;
     projectDirectory := projectDirectory m |}.

(** Numbers in template strings. *)
Definition string_of_Z (z : Z) : string := NilZero.string_of_int (Z.to_int z).

Definition show_code (code : option Z) : string :=
  match code with
  | Some c => string_of_Z c
  | None => "null"
  end.

Definition show_signal (signal : option string) : string :=
  match signal with
  | Some s => s
  | None => "null"
  end.

(** [!pid]: undefined and 0 are falsy. *)
Definition truthy_pid (p : option Z) : option Z :=
  match p with
  | Some n => if (n =? 0)%Z then None else Some n
  | None => None
  end.

(** [proc.exitCode !== null || proc.signalCode !== null]: both are set when
    the exit of [proc] is delivered. *)
Definition has_exited (s : Sys) (proc : ChildProcess) : bool :=
  existsb (Nat.eqb (cid proc)) (exited s).

(** ** The methods of the class *)

Definition setState (st : ProcessState) : Prog unit :=
  write (set_state st) ;;;
  emit (StateChange st).

Definition setError (message : string) : Prog bool :=
  write (set_lastError (Some message)) ;;;
  console_error ("[OpenCode Error] " ++ message) ;;;
  setState error ;;;
  Ret false.

(** [try { (await fetch(...)).ok } catch { false }] *)
Definition checkServerHealth : Prog bool :=
  s <- read ;;
  a <- ask (Health (hostname (settings (this s))) (port (settings (this s)))
                   (projectDirectory (this s))) ;;
  match a with
  | ABool ok => Ret ok
  | _ => Ret false
  end.

Definition sleep (ms : Z) : Prog unit :=
  ask (Sleep ms) ;;; Ret tt.

Definition execAsync (command : string) : Prog unit :=
  a <- ask (Exec command) ;;
  match a with
  | AError e => Throw e
  | _ => Ret tt
  end.

Definition killProcessTree (p : Z) (signal : Signal) : Prog unit :=
  s <- read ;;
  match platform s with
  | win32 => execAsync ("taskkill /T /F /PID " ++ string_of_Z p)
  | posix =>
      a <- ask (Kill (- p) signal) ;;
      match a with
      | AError e => Throw e
      | _ => Ret tt
      end
  end.

Definition waitForProcessExit (proc : ChildProcess) (timeoutMs : Z) : Prog bool :=
  s <- read ;;
  if has_exited s proc then Ret true
  else
    a <- ask (WaitExit proc timeoutMs) ;;
    match a with
    | ABool true => Ret true
    | _ => Ret false
    end.

Definition stop : Prog unit :=
  s <- read ;;
  match process (this s) with
  | None => setState stopped
  | Some proc =>
      match truthy_pid (pid proc) with
      | None =>
          console_log "[OpenCode] No PID available, cleaning up state" ;;;
          setState stopped ;;;
          write (set_process None)
      | Some p =>
          console_log ("[OpenCode] Stopping server process tree, PID: " ++ string_of_Z p) ;;;
          setState stopped ;;;
          write (set_process None) ;;;
          killProcessTree p SIGTERM ;;;
          gracefulExited <- waitForProcessExit proc 2000 ;;
          if gracefulExited then console_log "[OpenCode] Server stopped gracefully"
          else
            console_log "[OpenCode] Process didn't exit gracefully, sending SIGKILL" ;;;
            killProcessTree p SIGKILL ;;;
            forceExited <- waitForProcessExit proc 3000 ;;
            if forceExited then console_log "[OpenCode] Server stopped with SIGKILL"
            else console_error "[OpenCode] Failed to stop server within timeout"
      end
  end.

(** The loop of [waitForServerOrExit], with the number of iterations left. *)
Fixpoint pollLoop (fuel : nat) (startTime timeoutMs : Z) : Prog bool :=
  match fuel with
  | O => Spin
  | S fuel' =>
      s <- read ;;
      if (now s - startTime <? timeoutMs)%Z then
        match process (this s) with
        | None =>
            console_log "[OpenCode] Process exited before server became ready" ;;;
            Ret false
        | Some _ =>
            healthy <- checkServerHealth ;;
            if healthy then Ret true
            else sleep 500 ;;; pollLoop fuel' startTime timeoutMs
        end
      else Ret false
  end.

(** Every iteration that does not return sleeps 500 ms, so the loop body
    runs at most [timeoutMs / 500 + 1] times. *)
Definition pollBound (timeoutMs : Z) : nat := Z.to_nat (timeoutMs / 500) + 2.

Definition waitForServerOrExit (timeoutMs : Z) : Prog bool :=
  s <- read ;;
  pollLoop (pollBound timeoutMs) (now s) timeoutMs.

Definition start : Prog bool :=
  s <- read ;;
  match state (this s) with
  | running | starting => Ret true
  | _ =>
      setState starting ;;;
      write (set_lastError None) ;;;
      write (set_earlyExitCode None) ;;;
      s <- read ;;
      if (projectDirectory (this s) =? "")%string
      then setError "Project directory (vault) not configured"
      else
        healthy <- checkServerHealth ;;
        if healthy then
          s <- read ;;
          console_log ("[OpenCode] Server already running on port "
                         ++ string_of_Z (port (settings (this s)))) ;;;
          setState running ;;;
          Ret true
        else
          console_log "[OpenCode] Starting server:" ;;;
          s <- read ;;
          a <- ask (Spawn (opencodePath (settings (this s)))
                          ["serve"; "--port"; string_of_Z (port (settings (this s)));
                           "--hostname"; hostname (settings (this s));
                           "--cors"; "app://obsidian.md"]
                          (projectDirectory (this s))
                          (match platform s with win32 => false | posix => true end)) ;;
          let child := match a with
                       | ASpawned c => c
                       | _ => {| cid := 0; pid := None |}
                       end in
          write (set_process (Some child)) ;;;
          console_log ("[OpenCode] Process spawned with PID: "
                         ++ match pid child with
                            | Some p => string_of_Z p
                            | None => "undefined"
                            end) ;;;
          s <- read ;;
          ready <- waitForServerOrExit (startupTimeout (settings (this s))) ;;
          if ready then setState running ;;; Ret true
          else
            s <- read ;;
            match state (this s) with
            | error => Ret false
            | _ =>
                stop ;;;
                s <- read ;;
                match earlyExitCode (this s) with
                | Some code =>
                    setError ("Process exited unexpectedly (exit code "
                                ++ string_of_Z code ++ ")")
                | None =>
                    match process (this s) with
                    | None => setError "Process exited before server became ready"
                    | Some _ => setError "Server failed to start within timeout"
                    end
                end
            end
  end.

(** ** The listeners [start] registers on the child *)

(** [this.process.on("exit", (code, signal) => ...)] *)
Definition onExit (code : option Z) (signal : option string) : Prog unit :=
  console_log ("[OpenCode] Process exited with code " ++ show_code code
                 ++ ", signal " ++ show_signal signal) ;;;
  write (set_process None) ;;;
  s <- read ;;
  (match state (this s), code with
   | starting, Some c => if (c =? 0)%Z then Ret tt else write (set_earlyExitCode (Some c))
   | _, _ => Ret tt
   end) ;;;
  s <- read ;;
  match state (this s) with
  | running => setState stopped
  | _ => Ret tt
  end.

(** [this.process.on("error", (err) => ...)]; [code] is [err.code]. *)
Definition onError (code : option string) (message : string) : Prog unit :=
  console_error "[OpenCode] Failed to start process:" ;;;
  write (set_process None) ;;;
  s <- read ;;
  if match code with
     | Some c => c =? "ENOENT"
     | None => false
     end
  then
    setError ("Executable not found at '" ++ opencodePath (settings (this s)) ++ "'") ;;;
    Ret tt
  else setError ("Failed to start: " ++ message) ;;; Ret tt.

(** [stdout.on("data", ...)] and [stderr.on("data", ...)]; [line] is
    [data.toString().trim()]. *)
Definition onStdout (line : string) : Prog unit := console_log ("[OpenCode] " ++ line).
Definition onStderr (line : string) : Prog unit := console_error ("[OpenCode Error] " ++ line).

(** ** Running programs

    A program runs synchronously up to its next query: nothing else can
    happen in between. *)

Inductive Blocked (A : Type) : Type :=
| Done (a : A)
| Threw (e : string)
| Waiting (q : Query) (k : Answer -> Prog A)
| Spinning.
Arguments Done {A} a.
Arguments Threw {A} e.
Arguments Waiting {A} q k.
Arguments Spinning {A}.

Definition with_this (f : ProcessManager -> ProcessManager) (s : Sys) : Sys :=
  {| this := f (this s); trace := trace s; now := now s; platform := platform s;
     children := children s; exited := exited s; errored := errored s |}.

Definition with_event (e : Event) (s : Sys) : Sys :=
  {| this := this s; trace := (trace s ++ [e])%list; now := now s;
     platform := platform s; children := children s; exited := exited s;
     errored := errored s |}.

Definition with_now (t : Z) (s : Sys) : Sys :=
  {| this := this s; trace := trace s; now := t; platform := platform s;
     children := children s; exited := exited s; errored := errored s |}.

Definition with_child (c : ChildProcess) (s : Sys) : Sys :=
  {| this := this s; trace := trace s; now := now s; platform := platform s;
     children := (children s ++ [c])%list; exited := exited s; errored := errored s |}.

Definition with_exited (c : nat) (s : Sys) : Sys :=
  {| this := this s; trace := trace s; now := now s; platform := platform s;
     children := children s; exited := c :: exited s; errored := errored s |}.

Definition with_errored (c : nat) (s : Sys) : Sys :=
  {| this := this s; trace := trace s; now := now s; platform := platform s;
     children := children s; exited := exited s; errored := c :: errored s |}.

Fixpoint run_sync {A : Type} (p : Prog A) (s : Sys) : Sys * Blocked A :=
  match p with
  | Ret a => (s, Done a)
  | Throw e => (s, Threw e)
  | Read k => run_sync (k s) s
  | Write f k => run_sync k (with_this f s)
  | Emit e k => run_sync k (with_event e s)
  | Ask q k => (with_event (IO q) s, Waiting q k)
  | Spin => (s, Spinning)
  end.

(** ** The event loop

    Calls of [start()] and [stop()] and the events of the children arrive one
    at a time; each runs to its next query.  A call that has not settled sits
    in the pool with the query it waits on and the time the query was issued. *)

Inductive Value : Type := VBool (b : bool) | VUnit.

Inductive Outcome : Type :=
| Returned (v : Value)     (* the promise is fulfilled *)
| Rejected (e : string)    (* the promise is rejected: the caller sees an exception *)
| Diverged.                (* the poll loop used up its bound *)

Record Pending : Type := {
  tid : nat;
  waits_on : Query;
  issued : Z;
  resume : Answer -> Prog Value
}.

Record Machine : Type := {
  sys : Sys;
  pool : list Pending;
  settled : list (nat * Outcome);
  calls : nat
}.

(** No call in flight. *)
Definition idle (s : Sys) : Machine :=
  {| sys := s; pool := []; settled := []; calls := 0 |}.

Definition settle (t : nat) (r : Sys * Blocked Value) (waiting : list Pending)
    (done : list (nat * Outcome)) (n : nat) : Machine :=
  match snd r with
  | Done v =>
      {| sys := fst r; pool := waiting; settled := (done ++ [(t, Returned v)])%list; calls := n |}
  | Threw e =>
      {| sys := fst r; pool := waiting; settled := (done ++ [(t, Rejected e)])%list; calls := n |}
  | Spinning =>
      {| sys := fst r; pool := waiting; settled := (done ++ [(t, Diverged)])%list; calls := n |}
  | Waiting q k =>
      {| sys := fst r;
         pool := (waiting ++ [{| tid := t; waits_on := q; issued := now (fst r); resume := k |}])%list;
         settled := done; calls := n |}
  end.

(** A new call: its synchronous prefix runs at once. *)
Definition call (p : Prog Value) (m : Machine) : Machine :=
  settle (calls m) (run_sync p (sys m)) (pool m) (settled m) (S (calls m)).

Definition start_call : Prog Value := b <- start ;; Ret (VBool b).
Definition stop_call : Prog Value := stop ;;; Ret VUnit.

Definition find_pending (t : nat) (l : list Pending) : option Pending :=
  find (fun p => Nat.eqb (tid p) t) l.

Definition remove_pending (t : nat) (l : list Pending) : list Pending :=
  filter (fun p => negb (Nat.eqb (tid p) t)) l.

(** A timer does not fire early. *)
Definition min_delay (q : Query) : Z :=
  match q with
  | Sleep ms => Z.max 0 ms
  | WaitExit _ ms => Z.max 0 ms
  | _ => 0
  end.

(** What the continuation receives.  [spawn] returns a fresh child object
    (without a pid when the environment gives none: the spawn failed and an
    error event follows).  The promise of [waitForProcessExit] is resolved
    with true by the exit or error event of its child (see [wake]); when the
    environment resumes it, its timer has fired. *)
Definition deliver (q : Query) (a : Answer) (s : Sys) : Sys * Answer :=
  match q with
  | Spawn _ _ _ _ =>
      let c := {| cid := length (children s);
                  pid := match a with ASpawned c0 => pid c0 | _ => None end |} in
      (with_child c s, ASpawned c)
  | WaitExit _ _ => (s, ABool false)
  | _ => (s, a)
  end.

(** Call [p] goes on with answer [a] in [s] and runs to its next query. *)
Definition continue_with (p : Pending) (a : Answer) (s : Sys) (m : Machine) : Machine :=
  settle (tid p) (run_sync (resume p a) s)
         (remove_pending (tid p) (pool m)) (settled m) (calls m).

(** The environment answers the query call [t] waits on, at time [at_time]
    (clamped so that time does not go back and timers are not early). *)
Definition resume_task (t : nat) (a : Answer) (at_time : Z) (m : Machine) : Machine :=
  match find_pending t (pool m) with
  | None => m
  | Some p =>
      let t1 := Z.max (now (sys m)) (Z.max at_time (issued p + min_delay (waits_on p))) in
      let d := deliver (waits_on p) a (with_now t1 (sys m)) in
      continue_with p (snd d) (fst d) m
  end.

(** Call [t], if it waits for the exit of child [c], goes on with true. *)
Definition wake (c : nat) (m : Machine) (t : nat) : Machine :=
  match find_pending t (pool m) with
  | Some p =>
      match waits_on p with
      | WaitExit proc _ =>
          if Nat.eqb (cid proc) c then continue_with p (ABool true) (sys m) m else m
      | _ => m
      end
  | None => m
  end.

Definition wake_waiters (c : nat) (m : Machine) : Machine :=
  fold_left (wake c) (map tid (pool m)) m.

Definition with_sys (s : Sys) (m : Machine) : Machine :=
  {| sys := s; pool := pool m; settled := settled m; calls := calls m |}.

Definition spawned (s : Sys) (c : nat) : bool :=
  existsb (fun ch => Nat.eqb (cid ch) c) (children s).

Definition spawn_failed (s : Sys) (c : nat) : bool :=
  existsb (fun ch => Nat.eqb (cid ch) c && match pid ch with None => true | Some _ => false end)
          (children s).

Definition mem_nat (c : nat) (l : list nat) : bool := existsb (Nat.eqb c) l.

(** The listeners run to completion; they issue no query. *)
Definition handle (h : Prog unit) (s : Sys) : Sys := fst (run_sync h s).

Inductive Move : Type :=
| CallStart
| CallStop
| Resume (t : nat) (a : Answer) (at_time : Z)
| ChildExit (c : nat) (code : option Z) (signal : option string)
| ChildError (c : nat) (code : option string) (message : string)
| ChildStdout (c : nat) (line : string)
| ChildStderr (c : nat) (line : string).

(** One turn of the event loop.  A child emits exit at most once.  It emits
    error only when it could not be spawned: the code never calls the
    child's own kill or send, and passes no abort signal. *)
Definition step (m : Machine) (mv : Move) : Machine :=
  match mv with
  | CallStart => call start_call m
  | CallStop => call stop_call m
  | Resume t a at_time => resume_task t a at_time m
  | ChildExit c code signal =>
      if spawned (sys m) c && negb (mem_nat c (exited (sys m)))
      then wake_waiters c (with_sys (handle (onExit code signal) (with_exited c (sys m))) m)
      else m
  | ChildError c code message =>
      if spawn_failed (sys m) c && negb (mem_nat c (errored (sys m)))
      then wake_waiters c (with_sys (handle (onError code message) (with_errored c (sys m))) m)
      else m
  | ChildStdout c line =>
      if spawned (sys m) c then with_sys (handle (onStdout line) (sys m)) m else m
  | ChildStderr c line =>
      if spawned (sys m) c then with_sys (handle (onStderr line) (sys m)) m else m
  end.

Definition run (m : Machine) (moves : list Move) : Machine := fold_left step moves m.

(** ** Vocabulary of the statements *)

(** The states in which [start()] returns at once. *)
Definition in_flight (st : ProcessState) : bool :=
  match st with
  | starting | running => true
  | _ => false
  end.



(** What was observed between [s] and the later machine [m]. *)
Definition since (s : Sys) (m : Machine) : list Event :=
  skipn (length (trace s)) (trace (sys m)).








(** The least time after which a query is answered: a timer does not fire
    early. *)
Definition timer_delay (q : Query) : Z :=
  match q with
  | Sleep ms => Z.max 0 ms
  | _ => 0
  end.

(** [p], run at any time from [t] on, does not use up a loop bound. *)
Fixpoint never_spins {A : Type} (t : Z) (p : Prog A) : Prop :=
  match p with
  | Ret _ | Throw _ => True
  | Spin => False
  | Read k => forall s, (t <= now s)%Z -> never_spins (now s) (k s)
  | Write _ k => never_spins t k
  | Emit _ k => never_spins t k
  | Ask q k => forall a t', (t + timer_delay q <= t')%Z -> never_spins t' (k a)
  end.

Definition blocked_never_spins {A : Type} (t : Z) (b : Blocked A) : Prop :=
  match b with
  | Spinning => False
  | Waiting q k => forall a t', (t + timer_delay q <= t')%Z -> never_spins t' (k a)
  | _ => True
  end.

Definition pending_never_spins (clock : Z) (p : Pending) : Prop :=
  (issued p <= clock)%Z
  /\ forall a t', (issued p + timer_delay (waits_on p) <= t')%Z -> never_spins t' (resume p a).

(** No call in flight can spin and none has. *)
Definition spin_inv (m : Machine) : Prop :=
  Forall (pending_never_spins (now (sys m))) (pool m)
  /\ Forall (fun to => snd to <> Diverged) (settled m).

(** The third diagnostic of [start()]. *)
Definition timeout_message : string := "Server failed to start within timeout".

(** The moves of the environment: no call from outside. *)
Definition env_move (mv : Move) : bool :=
  match mv with
  | CallStart | CallStop => false
  | _ => true
  end.

(** [f] does not record the timeout message. *)
Definition keeps_message (f : ProcessManager -> ProcessManager) : Prop :=
  forall pm, lastError (f pm) = Some timeout_message -> lastError pm = Some timeout_message.

(** When [known], [this.process] is null. *)
Definition null_if (known : bool) (pm : ProcessManager) : Prop :=
  known = true -> process pm = None.

(** Run where [this.process] is null if [known], [p] never records the
    timeout message, and ends with [Q] of its result and of what is known
    then.  Between a query and its answer only listeners run, which leave a
    null [this.process] null. *)
Fixpoint triple {A : Type} (known : bool) (p : Prog A) (Q : A -> bool -> Prop) : Prop :=
  match p with
  | Ret a => Q a known
  | Throw _ | Spin => True
  | Read k =>
      forall s, null_if known (this s) ->
                exists known', null_if known' (this s) /\ triple known' (k s) Q
  | Write f k =>
      keeps_message f
      /\ exists known', (forall pm, null_if known pm -> null_if known' (f pm))
                        /\ triple known' k Q
  | Emit _ k => triple known k Q
  | Ask _ k => forall a, triple known (k a) Q
  end.

Definition blocked_triple {A : Type} (pm : ProcessManager) (b : Blocked A)
    (Q : A -> bool -> Prop) : Prop :=
  match b with
  | Done a => exists known, null_if known pm /\ Q a known
  | Waiting _ k => exists known, null_if known pm /\ forall a, triple known (k a) Q
  | _ => True
  end.

Definition pending_triple (pm : ProcessManager) (p : Pending) : Prop :=
  exists known, null_if known pm /\ forall a, triple known (resume p a) (fun _ _ => True).

(** The timeout message is not recorded, and the one call in flight, if
    any, will not record it. *)
Definition message_inv (m : Machine) : Prop :=
  lastError (this (sys m)) <> Some timeout_message
  /\ (pool m = [] \/ exists p, pool m = [p] /\ pending_triple (this (sys m)) p).










(** ** Concrete runs *)

Definition demo_settings : OpenCodeSettings :=
  {| port := 4096; hostname := "127.0.0.1"; opencodePath := "opencode";
     startupTimeout := 5000 |}.

(** A manager as its constructor leaves it. *)
Definition demo_manager : ProcessManager :=
  {| process := None; state := stopped; lastError := None; earlyExitCode := None;
     settings := demo_settings; projectDirectory := "/vault" |}.

Definition demo_sys (pf : Platform) : Sys :=
  {| this := demo_manager; trace := []; now := 0; platform := pf;
     children := []; exited := []; errored := [] |}.

Definition demo_child : ChildProcess := {| cid := 0; pid := Some 4242%Z |}.

(** [start()], the probe fails, the child is spawned with pid 4242. *)
Definition spawn_moves : list Move :=
  [CallStart; Resume 0 (ABool false) 100; Resume 0 (ASpawned demo_child) 100].

(** One round of the poll loop at time [t]: the probe fails, then the timer
    of 500 ms fires. *)
Definition poll_round (t : Z) : list Move :=
  [Resume 0 (ABool false) t; Resume 0 AUnit (t + 500)].

(** The probe never succeeds in 5000 ms and the child never exits: ten
    rounds of polling, then in [stop()] both signals are delivered and both
    waits time out. *)
Definition never_ready_moves : list Move :=
  (spawn_moves
   ++ concat (map poll_round [100; 600; 1100; 1600; 2100; 2600; 3100; 3600; 4100; 4600]%Z)
   ++ [Resume 0 AUnit 5100; Resume 0 (ABool false) 7100;
       Resume 0 AUnit 7100; Resume 0 (ABool false) 10100])%list.

(** The server becomes ready at the first poll; later [stop()] is called
    and the signal cannot be delivered. *)
Definition kill_fails_moves (e : string) : list Move :=
  (spawn_moves ++ [Resume 0 (ABool true) 200; CallStop; Resume 1 (AError e) 300])%list.





(** ** The accessors of the class *)

Definition updateSettings (m : ProcessManager) (s : OpenCodeSettings) : ProcessManager :=
  {| process := process m; state := state m; lastError := lastError m;
     earlyExitCode := earlyExitCode m; settings := s;
     projectDirectory := projectDirectory m |}.

Definition updateProjectDirectory (m : ProcessManager) (directory : string) : ProcessManager :=
  {| process := process m; state := state m; lastError := lastError m;
     earlyExitCode := earlyExitCode m; settings := settings m;
     projectDirectory := directory |}.

Definition getState (m : ProcessManager) : ProcessState := state m.

Definition getLastError (m : ProcessManager) : option string := lastError m.

(** [getUrl()]; the port is an integer. *)
Definition getUrl (m : ProcessManager) : string :=
  "http://" ++ hostname (settings m) ++ ":" ++ string_of_Z (port (settings m))
    ++ "/" ++ Base64.btoa (projectDirectory m).

(** ** Properties of programs under interleaving

    [sound I Q p s]: [p], run from [s], is in a state where [I] holds
    whenever something else can run, that is at each of its queries and at
    its end, provided [I] holds in the state in which it goes on after each
    query, whatever that state and the answer are; and whenever it returns,
    [Q] holds of the value and the state at that moment. *)
Fixpoint sound {A : Type} (I : Sys -> Prop) (Q : A -> Sys -> Prop) (p : Prog A) (s : Sys)
  : Prop :=
  match p with
  | Ret a => I s /\ Q a s
  | Throw _ => I s
  | Spin => I s
  | Read k => sound I Q (k s) s
  | Write f k => sound I Q k (with_this f s)
  | Emit e k => sound I Q k (with_event e s)
  | Ask q k => I (with_event (IO q) s) /\ forall a s', I s' -> sound I Q (k a) s'
  end.

Definition blocked_sound {A : Type} (I : Sys -> Prop) (Q : A -> Sys -> Prop)
    (s : Sys) (b : Blocked A) : Prop :=
  match b with
  | Done a => Q a s
  | Waiting _ k => forall a s', I s' -> sound I Q (k a) s'
  | _ => True
  end.

Definition anything {A : Type} (_ : A) (_ : Sys) : Prop := True.

Definition pending_sound (I : Sys -> Prop) (Q : Value -> Sys -> Prop) (p : Pending) : Prop :=
  forall a s, I s -> sound I Q (resume p a) s.

(** [I] holds now, and every call in flight keeps it and will return only
    values for which [Q] holds. *)
Definition sound_inv (I : Sys -> Prop) (Q : Value -> Sys -> Prop) (m : Machine) : Prop :=
  I (sys m) /\ Forall (pending_sound I Q) (pool m).

(** In state error there is a message. *)
Definition error_has_message (s : Sys) : Prop :=
  state (this s) = error -> lastError (this s) <> None.

(** What the value [start()] returns says about the state. *)
Definition outcome_ok (b : bool) (s : Sys) : Prop :=
  if b then in_flight (state (this s)) = true
  else state (this s) = error /\ lastError (this s) <> None.

Definition value_ok (v : Value) (s : Sys) : Prop :=
  match v with
  | VBool b => outcome_ok b s
  | VUnit => True
  end.

(** The turns of the event loop in which one call runs: a new call, or an
    answer of the environment to a call in flight. *)
Definition own_turn (mv : Move) : bool :=
  match mv with
  | CallStart | CallStop | Resume _ _ _ => true
  | _ => false
  end.

(** The state an observer knows: the one of the last [onStateChange] in
    [tr], or [st] if there is none. *)
Definition last_notified (st : ProcessState) (tr : list Event) : ProcessState :=
  fold_left (fun known e => match e with StateChange st' => st' | _ => known end) tr st.

(** Since [s0], the state is the one last notified. *)
Definition in_sync (s0 s : Sys) : Prop :=
  exists d, trace s = (trace s0 ++ d)%list
            /\ state (this s) = last_notified (state (this s0)) d.


(** ** The order of a teardown *)







End Supervisor.

(* ===================================================================== *)
(** * Part III: properties of OpenCodeClient                              *)
(* ===================================================================== *)

Module Context.
Import Client.

(** ** The workspace as [gatherContext] reads it

    A string is the sequence of its UTF-16 code units, and a character of
    the embedding is a code unit below 256; [length], [slice] and [trim]
    count and test code units as the source does. *)

(** A [MarkdownView] object: [view.file?.path], undefined when the view
    shows no file, and [view.editor?.getSelection()]. *)
Record MarkdownView : Type := {
  file_path : option string;
  editor_selection : option string
}.

(** [this.app.workspace]: the view objects, by reference, as they are now;
    the views of the leaves of type "markdown", in order; the active view
    of type [MarkdownView], if there is one. *)
Record App : Type := {
  views : nat -> MarkdownView;
  markdownLeaves : list nat;
  activeMarkdownView : option nat
}.

(** [type SelectedTextContext] *)
Record SelectedTextContext : Type := {
  sel_text : string;
  sourcePath : string
}.

(** [type WorkspaceContextSnapshot] *)
Record WorkspaceContextSnapshot : Type := {
  openNotePaths : list string;
  selection : option SelectedTextContext;
  contextText : option string
}.

(** The private fields of [class WorkspaceContext]; [lastMarkdownView] holds
    a reference to a view object. *)
Record WorkspaceContext : Type := {
  lastSelection : option SelectedTextContext;
  lastMarkdownView : option nat
}.

(** [new WorkspaceContext(app)] *)
Definition new_WorkspaceContext : WorkspaceContext :=
  {| lastSelection := None; lastMarkdownView := None |}.

(** ** Library functions at the types used *)

(** [paths.add(path)] on a [Set<string>], which keeps insertion order. *)
Definition set_add (path : string) (paths : list string) : list string :=
  if existsb (String.eqb path) paths then paths else (paths ++ [path])%list.

(** White space and line terminators, as [String.prototype.trim] removes
    them: tab, line feed, vertical tab, form feed, carriage return, space
    and no-break space. *)
Definition is_white (c : ascii) : bool :=
  let n := nat_of_ascii c in
  ((9 <=? n)%nat && (n <=? 13)%nat) || (n =? 32)%nat || (n =? 160)%nat.

Fixpoint trimStart (s : string) : string :=
  match s with
  | EmptyString => EmptyString
  | String c rest => if is_white c then trimStart rest else s
  end.

Fixpoint trimEnd (s : string) : string :=
  match s with
  | EmptyString => EmptyString
  | String c rest =>
      let rest' := trimEnd rest in
      if is_white c && (rest' =? "") then EmptyString else String c rest'
  end.

Definition trim (s : string) : string := trimEnd (trimStart s).

(** [s.slice(0, stop)]: a negative [stop] counts from the end. *)
Definition slice0 (s : string) (stop : Z) : string :=
  let len := Z.of_nat (String.length s) in
  let to := if (stop <? 0)%Z then Z.max (len + stop) 0 else Z.min stop len in
  substring 0 (Z.to_nat to) s.

Definition newline : string := String (ascii_of_nat 10) EmptyString.

Definition triple_quote : string :=
  String (ascii_of_nat 34) (String (ascii_of_nat 34) (String (ascii_of_nat 34) EmptyString)).

(** [lines.join(sep)] *)
Fixpoint join (sep : string) (lines : list string) : string :=
  match lines with
  | [] => EmptyString
  | [l] => l
  | l :: rest => l ++ sep ++ join sep rest
  end.

(** ** [gatherContext] *)

(** The body of the loop over the leaves, and the loop: the truthy paths,
    each once, in the order in which they first appear. *)
Definition add_leaf (app : App) (paths : list string) (leaf : nat) : list string :=
  match file_path (views app leaf) with
  | Some path => if truthy_string path then set_add path paths else paths
  | None => paths
  end.

Definition collect_paths (app : App) : list string :=
  fold_left (add_leaf app) (markdownLeaves app) [].

Definition truncation_mark : string := "... [truncated]".

(** [gatherContext(maxNotes, maxSelectionLength)]; the two numbers are
    integers. *)
Definition gatherContext (app : App) (maxNotes maxSelectionLength : Z)
    (this : WorkspaceContext) : WorkspaceContextSnapshot * WorkspaceContext :=
  let paths := collect_paths app in
  let openNotePaths := firstn (Z.to_nat (Z.max 0 maxNotes)) paths in
  let view := match activeMarkdownView app with
              | Some v => Some v
              | None => lastMarkdownView this
              end in
  let this1 := match view with
               | Some v => {| lastSelection := lastSelection this; lastMarkdownView := Some v |}
               | None => this
               end in
  let sourcePath' := match view with
                    | Some v => file_path (views app v)
                    | None => None
                    end in
  let selection := match view with
                   | Some v =>
                       match editor_selection (views app v) with
                       | Some s => s
                       | None => EmptyString
                       end
                   | None => EmptyString
                   end in
  let chosen :=
    if truthy_opt_string sourcePath' && truthy_string (trim selection) then
      let selectionContext :=
        {| sel_text := selection;
           sourcePath := match sourcePath' with Some p => p | None => EmptyString end |} in
      (Some selectionContext,
       {| lastSelection := Some selectionContext;
          lastMarkdownView := lastMarkdownView this1 |})
    else if negb (truthy_opt_string sourcePath') then
      (lastSelection this1, this1)
    else
      (None, {| lastSelection := None; lastMarkdownView := lastMarkdownView this1 |}) in
  let selectionContext :=
    match fst chosen with
    | Some sc =>
        if (Z.of_nat (String.length (sel_text sc)) >? maxSelectionLength)%Z
        then Some {| sel_text := slice0 (sel_text sc) maxSelectionLength ++ truncation_mark;
                     sourcePath := sourcePath sc |}
        else Some sc
    | None => None
    end in
  let contextText :=
    if (0 <? length openNotePaths)%nat || match selectionContext with Some _ => true | None => false end
    then
      let lines :=
        (["<obsidian-context>"]
         ++ (if (0 <? length openNotePaths)%nat
             then "Currently open notes in Obsidian:"
                    :: map (fun path => ("- " ++ path)%string) openNotePaths
             else [])
         ++ match selectionContext with
            | Some sc =>
                [EmptyString;
                 ("Selected text (from " ++ sourcePath sc ++ "):")%string;
                 triple_quote;
                 sel_text sc;
                 triple_quote]
            | None => []
            end
         ++ ["</obsidian-context>"])%list in
      Some (join newline lines)
    else None in
  ({| openNotePaths := openNotePaths;
      selection := selectionContext;
      contextText := contextText |},
   snd chosen).

(** ** Vocabulary of the statements *)

(** The text of [gatherContext], from the open notes and the selection. *)
Definition render (openNotePaths : list string) (selectionContext : option SelectedTextContext)
  : option string :=
  if (0 <? length openNotePaths)%nat
     || match selectionContext with Some _ => true | None => false end
  then
    Some (join newline
            (["<obsidian-context>"]
             ++ (if (0 <? length openNotePaths)%nat
                 then "Currently open notes in Obsidian:"
                        :: map (fun path => ("- " ++ path)%string) openNotePaths
                 else [])
             ++ match selectionContext with
                | Some sc =>
                    [EmptyString;
                     ("Selected text (from " ++ sourcePath sc ++ "):")%string;
                     triple_quote;
                     sel_text sc;
                     triple_quote]
                | None => []
                end
             ++ ["</obsidian-context>"])%list)
  else None.

(** The view [gatherContext] looks at: the active one, or else the one it
    looked at last. *)
Definition current_view (app : App) (this : WorkspaceContext) : option nat :=
  match activeMarkdownView app with
  | Some v => Some v
  | None => lastMarkdownView this
  end.

(** The selection [gatherContext] starts from, before it is cut to length,
    and the state it leaves: the middle part of its body. *)
Definition choose (app : App) (this : WorkspaceContext)
  : option SelectedTextContext * WorkspaceContext :=
  let view := current_view app this in
  let this1 := match view with
               | Some v => {| lastSelection := lastSelection this; lastMarkdownView := Some v |}
               | None => this
               end in
  let sourcePath' := match view with
                     | Some v => file_path (views app v)
                     | None => None
                     end in
  let selection := match view with
                   | Some v =>
                       match editor_selection (views app v) with
                       | Some s => s
                       | None => EmptyString
                       end
                   | None => EmptyString
                   end in
  if truthy_opt_string sourcePath' && truthy_string (trim selection) then
    let selectionContext :=
      {| sel_text := selection;
         sourcePath := match sourcePath' with Some p => p | None => EmptyString end |} in
    (Some selectionContext,
     {| lastSelection := Some selectionContext;
        lastMarkdownView := lastMarkdownView this1 |})
  else if negb (truthy_opt_string sourcePath') then
    (lastSelection this1, this1)
  else
    (None, {| lastSelection := None; lastMarkdownView := lastMarkdownView this1 |}).

(** The cut of [gatherContext]. *)
Definition cut (maxSelectionLength : Z) (o : option SelectedTextContext)
  : option SelectedTextContext :=
  match o with
  | Some sc =>
      if (Z.of_nat (String.length (sel_text sc)) >? maxSelectionLength)%Z
      then Some {| sel_text := slice0 (sel_text sc) maxSelectionLength ++ truncation_mark;
                   sourcePath := sourcePath sc |}
      else Some sc
  | None => None
  end.

(** The states of a [WorkspaceContext]: as constructed, and after any
    calls of [gatherContext], the workspace being in any state at each. *)
Inductive reachable : WorkspaceContext -> Prop :=
| reach_new : reachable new_WorkspaceContext
| reach_gather (app : App) (maxNotes maxSelectionLength : Z) (this : WorkspaceContext) :
    reachable this ->
    reachable (snd (gatherContext app maxNotes maxSelectionLength this)).

(** A remembered selection has a source path and a text that is not blank. *)
Definition selection_ok (o : option SelectedTextContext) : Prop :=
  forall sc, o = Some sc -> sourcePath sc <> EmptyString /\ trim (sel_text sc) <> EmptyString.

Definition demo_app : App :=
  {| views := fun v =>
       match v with
       | 0 => {| file_path := Some "notes/a.md"; editor_selection := Some "some words" |}
       | 1 => {| file_path := Some "notes/b.md"; editor_selection := Some EmptyString |}
       | 2 => {| file_path := Some "notes/a.md"; editor_selection := Some EmptyString |}
       | _ => {| file_path := None; editor_selection := None |}
       end;
     markdownLeaves := [0; 1; 2; 3];
     activeMarkdownView := Some 0 |}.

End Context.

Module Plugin.

(** ** Data model

    [class OpenCodePlugin] of main.ts, in the version that holds an
    [OpenCodeClient] and a [WorkspaceContext]: the fields and methods by
    which it uses the client, the workspace context and the process
    manager.  Views, commands and timers are left to Obsidian. *)

(** The settings object: the fields the process manager reads and the
    fields only the plugin reads. *)
Record Settings : Type := {
  core : Supervisor.OpenCodeSettings;
  projectDirectory : string;
  injectWorkspaceContext : bool;
  maxNotesInContext : Z;
  maxSelectionLength : Z
}.

(** A callback is known by its identity. *)
Definition Callback : Type := nat.

(** The fields of the plugin.  [openCodeClient] is the client together
    with the requests it has sent. *)
Record OpenCodePlugin : Type := {
  settings : Settings;
  processManager : Supervisor.ProcessManager;
  stateChangeCallbacks : list Callback;
  openCodeClient : Client.World;
  workspaceContext : Context.WorkspaceContext;
  cachedIframeUrl : option string;
  lastBaseUrl : option string;
  console : list string
}.

(** Field updates. *)
Definition with_client (w : Client.World) (p : OpenCodePlugin) : OpenCodePlugin :=
  {| settings := settings p; processManager := processManager p;
     stateChangeCallbacks := stateChangeCallbacks p; openCodeClient := w;
     workspaceContext := workspaceContext p; cachedIframeUrl := cachedIframeUrl p;
     lastBaseUrl := lastBaseUrl p; console := console p |}.

Definition with_cachedIframeUrl (u : option string) (p : OpenCodePlugin) : OpenCodePlugin :=
  {| settings := settings p; processManager := processManager p;
     stateChangeCallbacks := stateChangeCallbacks p; openCodeClient := openCodeClient p;
     workspaceContext := workspaceContext p; cachedIframeUrl := u;
     lastBaseUrl := lastBaseUrl p; console := console p |}.

Definition with_lastBaseUrl (u : option string) (p : OpenCodePlugin) : OpenCodePlugin :=
  {| settings := settings p; processManager := processManager p;
     stateChangeCallbacks := stateChangeCallbacks p; openCodeClient := openCodeClient p;
     workspaceContext := workspaceContext p; cachedIframeUrl := cachedIframeUrl p;
     lastBaseUrl := u; console := console p |}.

Definition with_workspaceContext (c : Context.WorkspaceContext) (p : OpenCodePlugin)
  : OpenCodePlugin :=
  {| settings := settings p; processManager := processManager p;
     stateChangeCallbacks := stateChangeCallbacks p; openCodeClient := openCodeClient p;
     workspaceContext := c; cachedIframeUrl := cachedIframeUrl p;
     lastBaseUrl := lastBaseUrl p; console := console p |}.


Definition with_processManager (m : Supervisor.ProcessManager) (p : OpenCodePlugin)
  : OpenCodePlugin :=
  {| settings := settings p; processManager := m;
     stateChangeCallbacks := stateChangeCallbacks p; openCodeClient := openCodeClient p;
     workspaceContext := workspaceContext p; cachedIframeUrl := cachedIframeUrl p;
     lastBaseUrl := lastBaseUrl p; console := console p |}.

Definition console_write (line : string) (p : OpenCodePlugin) : OpenCodePlugin :=
  {| settings := settings p; processManager := processManager p;
     stateChangeCallbacks := stateChangeCallbacks p; openCodeClient := openCodeClient p;
     workspaceContext := workspaceContext p; cachedIframeUrl := cachedIframeUrl p;
     lastBaseUrl := lastBaseUrl p; console := (console p ++ [line])%list |}.

Definition with_projectDirectory (directory : string) (p : OpenCodePlugin) : OpenCodePlugin :=
  {| settings := {| core := core (settings p);
                    projectDirectory := directory;
                    injectWorkspaceContext := injectWorkspaceContext (settings p);
                    maxNotesInContext := maxNotesInContext (settings p);
                    maxSelectionLength := maxSelectionLength (settings p) |};
     processManager := processManager p;
     stateChangeCallbacks := stateChangeCallbacks p; openCodeClient := openCodeClient p;
     workspaceContext := workspaceContext p; cachedIframeUrl := cachedIframeUrl p;
     lastBaseUrl := lastBaseUrl p; console := console p |}.

(** ** The getters *)

(** [getProjectDirectory()]; [basePath] is [this.app.vault.adapter.basePath].
    The result, and the plugin with the lines written to the console. *)
Definition getProjectDirectory (basePath : option string) (p : OpenCodePlugin)
  : string * OpenCodePlugin :=
  if Client.truthy_string (projectDirectory (settings p))
  then
    (projectDirectory (settings p),
     console_write ("[OpenCode] Using project directory from settings: "
                      ++ projectDirectory (settings p)) p)
  else
    let vaultPath := match basePath with
                     | Some b => if Client.truthy_string b then b else EmptyString
                     | None => EmptyString
                     end in
    let p1 := if negb (Client.truthy_string vaultPath)
              then console_write "[OpenCode] Warning: Could not determine vault path" p
              else p in
    (vaultPath,
     console_write ("[OpenCode] Using vault path as project directory: " ++ vaultPath) p1).

Definition getProcessState (p : OpenCodePlugin) : Supervisor.ProcessState :=
  Supervisor.getState (processManager p).

Definition getLastError (p : OpenCodePlugin) : option string :=
  Supervisor.getLastError (processManager p).

Definition getServerUrl (p : OpenCodePlugin) : string :=
  Supervisor.getUrl (processManager p).

Definition getApiBaseUrl (p : OpenCodePlugin) : string :=
  "http://" ++ Supervisor.hostname (core (settings p)) ++ ":"
    ++ Supervisor.string_of_Z (Supervisor.port (core (settings p))).

Definition getStoredIframeUrl (p : OpenCodePlugin) : option string := cachedIframeUrl p.

Definition setCachedIframeUrl (url : option string) (p : OpenCodePlugin) : OpenCodePlugin :=
  with_cachedIframeUrl url p.

(** ** Subscribers to state changes *)






(** ** Keeping the client up to date *)

(** [refreshClientState()] *)
Definition refreshClientState (basePath : option string) (p : OpenCodePlugin) : OpenCodePlugin :=
  let nextUiBaseUrl := getServerUrl p in
  let nextApiBaseUrl := getApiBaseUrl p in
  let projectDirectory := fst (getProjectDirectory basePath p) in
  let p0 := snd (getProjectDirectory basePath p) in
  let w := openCodeClient p0 in
  let p1 := with_client
              {| Client.this := Client.updateBaseUrl (Client.this w) nextApiBaseUrl
                                   nextUiBaseUrl projectDirectory;
                 Client.sent := Client.sent w;
                 Client.console := Client.console w |} p0 in
  let p2 := match lastBaseUrl p1 with
            | Some last =>
                if Client.truthy_string last && negb (last =? nextUiBaseUrl)
                then with_cachedIframeUrl None p1
                else p1
            | None => p1
            end in
  with_lastBaseUrl (Some nextUiBaseUrl) p2.

(** [updateProjectDirectory(directory)], up to the restart: the plugin
    afterwards, and whether it goes on to stop and start the server. *)
Definition updateProjectDirectory (basePath : option string) (directory : string)
    (p : OpenCodePlugin) : OpenCodePlugin * bool :=
  let p1 := with_projectDirectory directory p in
  let p2 := with_processManager
              (Supervisor.updateProjectDirectory (processManager p1)
                 (fst (getProjectDirectory basePath p1)))
              (snd (getProjectDirectory basePath p1)) in
  let p3 := refreshClientState basePath p2 in
  (p3, match getProcessState p3 with
       | Supervisor.running => true
       | _ => false
       end).

(** ** Pushing the context *)

Section WithServer.

Variable srv : Client.Server.

(** [updateOpenCodeContext(leaf)].  [viewIframeUrl] is
    [view?.getIframeUrl()] for the view of the leaf, null when the view is
    not an [OpenCodeView]; [app] is the workspace [gatherContext] reads.
    The call runs to its end before anything else does. *)
Definition updateOpenCodeContext (app : Context.App) (viewIframeUrl : option string)
    (p : OpenCodePlugin) : OpenCodePlugin :=
  if negb (injectWorkspaceContext (settings p)) then p
  else
    match getProcessState p with
    | Supervisor.running =>
        let iframeUrl := match cachedIframeUrl p with
                         | Some u => Some u
                         | None => viewIframeUrl
                         end in
        match iframeUrl with
        | Some url =>
            if negb (Client.truthy_string url) then p
            else
              match Client.resolveSessionId (Client.this (openCodeClient p)) url with
              | Some sessionId =>
                  if negb (Client.truthy_string sessionId) then p
                  else
                    let p1 := with_cachedIframeUrl (Some url) p in
                    let gathered :=
                      Context.gatherContext app (maxNotesInContext (settings p1))
                        (maxSelectionLength (settings p1)) (workspaceContext p1) in
                    let p2 := with_workspaceContext (snd gathered) p1 in
                    with_client
                      (snd (Client.updateContext srv sessionId
                              (Context.contextText (fst gathered)) (openCodeClient p2)))
                      p2
              | None => p
              end
        | None => p
        end
    | _ => p
    end.

(** [ensureSessionUrl(view)].  [viewIframeUrl] is [view.getIframeUrl()],
    [isActive] is [this.app.workspace.activeLeaf === view.leaf]; the second
    component is the URL given to [view.setIframeUrl], if it is called.  In
    the call of [updateOpenCodeContext] at the end the URL of the view is
    not consulted, since [cachedIframeUrl] is set. *)
Definition ensureSessionUrl (app : Context.App) (viewIframeUrl : option string)
    (isActive : bool) (p : OpenCodePlugin) : OpenCodePlugin * option string :=
  match getProcessState p with
  | Supervisor.running =>
      let existingUrl := match cachedIframeUrl p with
                         | Some u => Some u
                         | None => viewIframeUrl
                         end in
      let known :=
        match existingUrl with
        | Some url =>
            if Client.truthy_string url
               && Client.truthy_opt_string
                    (Client.resolveSessionId (Client.this (openCodeClient p)) url)
            then Some url
            else None
        | None => None
        end in
      match known with
      | Some url => (with_cachedIframeUrl (Some url) p, None)
      | None =>
          let created := Client.createSession srv (openCodeClient p) in
          let p1 := with_client (snd created) p in
          match fst created with
          | Some sessionId =>
              if negb (Client.truthy_string sessionId) then (p1, None)
              else
                let sessionUrl :=
                  Client.getSessionUrl (Client.this (openCodeClient p1)) sessionId in
                let p2 := with_cachedIframeUrl (Some sessionUrl) p1 in
                (if isActive then updateOpenCodeContext app viewIframeUrl p2 else p2,
                 Some sessionUrl)
          | None => (p1, None)
          end
      end
  | _ => (p, None)
  end.

End WithServer.

(** ** Vocabulary of the statements *)


(** [this.cachedIframeUrl ?? view.getIframeUrl()] *)
Definition known_iframeUrl (viewIframeUrl : option string) (p : OpenCodePlugin)
  : option string :=
  match cachedIframeUrl p with
  | Some u => Some u
  | None => viewIframeUrl
  end.

(** The request by which [createSession] asks for a session. *)
Definition POST_session (c : Client.OpenCodeClient) : Client.Request :=
  {| Client.method := "POST";
     Client.url := Client.apiBaseUrl c ++ "/session";
     Client.directory := Client.projectDirectory c;
     Client.body := Client.SessionBody "Obsidian" |}.



End Plugin.

Module ClientProofs.
Import Client.

(** ** What each private method does to the world *)

Lemma request_spec {T : Type} (api : list Request -> FetchOutcome T)
    (meth path : string) (b : Body) (w : World) :
  let req := {| method := meth; url := apiBaseUrl (this w) ++ path;
                directory := projectDirectory (this w); body := b |} in
  exists con,
    request api meth path b w =
      (response_json (api (sent w ++ [req])%list),
       {| this := this w; sent := (sent w ++ [req])%list; console := con |}).
Proof.
  unfold request, bind, get_this, fetch, console_write, ret; simpl.
  destruct (api _) as [e | [|] st [j|]]; simpl; eexists; reflexivity.
Qed.

Lemma updatePart_spec (srv : Server) (part : OpenCodePart) (upd : PartUpdates) (w : World) :
  let log := (sent w ++ [PATCH_part (this w) part upd])%list in
  exists con,
    updatePart srv part upd w =
      match unwrap (response_json (partApi srv log)) with
      | Some u => (true, {| this := with_lastPart (this w) (Some u); sent := log; console := con |})
      | None => (false, {| this := this w; sent := log; console := con |})
      end.
Proof.
  intros log. unfold updatePart, bind.
  destruct (request_spec (partApi srv) "PATCH"
              ("/session/" ++ sessionID part ++ "/message/" ++ messageID part
                 ++ "/part/" ++ part_id part)
              (PartBody (spread part upd)) w) as [con Hreq].
  rewrite Hreq. exists con. fold (PATCH_part (this w) part upd). fold log.
  destruct (unwrap _); reflexivity.
Qed.

Lemma ignorePreviousPart_none (srv : Server) (w : World) :
  lastPart (this w) = None -> ignorePreviousPart srv w = (false, w).
Proof.
  intros H. unfold ignorePreviousPart, bind, get_this. rewrite H. reflexivity.
Qed.

Lemma ignorePreviousPart_some (srv : Server) (w : World) (part : OpenCodePart) :
  lastPart (this w) = Some part ->
  let log := (sent w ++ [PATCH_part (this w) part set_ignored])%list in
  exists con,
    ignorePreviousPart srv w =
      match unwrap (response_json (partApi srv log)) with
      | Some _ => (true, {| this := with_lastPart (this w) None; sent := log; console := con |})
      | None => (false, {| this := this w; sent := log; console := con |})
      end.
Proof.
  intros H log. unfold ignorePreviousPart, bind, get_this. rewrite H.
  destruct (updatePart_spec srv part set_ignored w) as [con Hupd].
  fold set_ignored. rewrite Hupd. exists con. fold log.
  destruct (unwrap _); reflexivity.
Qed.

Lemma sendPrompt_spec (srv : Server) (sessionId ctx : string) (w : World) :
  let log := (sent w ++ [POST_message (this w) sessionId ctx])%list in
  exists con,
    sendPrompt srv sessionId ctx w =
      (unwrap (response_json (messageApi srv log)),
       {| this := this w; sent := log; console := con |}).
Proof.
  intros log. unfold sendPrompt, bind.
  destruct (request_spec (messageApi srv) "POST" ("/session/" ++ sessionId ++ "/message")
              (PromptBody true [("text", ctx)]) w) as [con Hreq].
  rewrite Hreq. fold (POST_message (this w) sessionId ctx). fold log.
  unfold console_write, ret. destruct (unwrap _); eexists; reflexivity.
Qed.

(** ** Methods that leave [trackedSessionId] alone *)

Lemma bind_unfold {A B : Type} (m : Async A) (f : A -> Async B) (w : World) :
  bind m f w = f (fst (m w)) (snd (m w)).
Proof. unfold bind. destruct (m w); reflexivity. Qed.

Lemma keeps_ret {A : Type} (a : A) : keeps_tracked (ret a).
Proof. intros w; reflexivity. Qed.

Lemma keeps_bind {A B : Type} (m : Async A) (f : A -> Async B) :
  keeps_tracked m -> (forall a, keeps_tracked (f a)) -> keeps_tracked (bind m f).
Proof.
  intros Hm Hf w. rewrite bind_unfold. rewrite Hf. apply Hm.
Qed.

Lemma keeps_get_this : keeps_tracked get_this.
Proof. intros w; reflexivity. Qed.

Lemma keeps_console_write (line : string) : keeps_tracked (console_write line).
Proof. intros w; reflexivity. Qed.

Lemma keeps_set_lastPart (p : option OpenCodePart) : keeps_tracked (set_lastPart p).
Proof. intros w; reflexivity. Qed.

Lemma keeps_request {T : Type} (api : list Request -> FetchOutcome T)
    (meth path : string) (b : Body) :
  keeps_tracked (request api meth path b).
Proof.
  intros w. destruct (request_spec api meth path b w) as [con H].
  rewrite H. reflexivity.
Qed.

Create HintDb keeps.

#[local] Hint Resolve keeps_ret keeps_get_this keeps_console_write
  keeps_set_lastPart keeps_request : keeps.

Ltac keeps_step :=
  match goal with
  | |- keeps_tracked (bind _ _) => apply keeps_bind; [ | intros ? ]
  | |- keeps_tracked (match ?x with _ => _ end) => destruct x
  | |- keeps_tracked (if ?x then _ else _) => destruct x
  | |- keeps_tracked _ => solve [ auto with keeps ]
  end.

Lemma keeps_updatePart (srv : Server) (part : OpenCodePart) (upd : PartUpdates) :
  keeps_tracked (updatePart srv part upd).
Proof. unfold updatePart. repeat keeps_step. Qed.

#[local] Hint Resolve keeps_updatePart : keeps.

Lemma keeps_ignorePreviousPart (srv : Server) : keeps_tracked (ignorePreviousPart srv).
Proof.
  unfold ignorePreviousPart.
  apply keeps_bind; [ auto with keeps | intros c ].
  destruct (lastPart c); repeat keeps_step.
Qed.

Lemma keeps_sendPrompt (srv : Server) (sessionId ctx : string) :
  keeps_tracked (sendPrompt srv sessionId ctx).
Proof. unfold sendPrompt. repeat keeps_step. Qed.

#[local] Hint Resolve keeps_ignorePreviousPart keeps_sendPrompt : keeps.

(** [updateContext] always ends with the given session tracked. *)
Lemma updateContext_tracks (srv : Server) (sessionId : string)
    (contextText : option string) (w : World) :
  trackedSessionId (this (snd (updateContext srv sessionId contextText w))) = Some sessionId.
Proof.
  unfold updateContext.
  rewrite bind_unfold. cbn [get_this fst snd].
  rewrite bind_unfold. rewrite bind_unfold.
  match goal with
  | |- trackedSessionId (this (snd (?rest ?w1))) = _ =>
      assert (Hk : keeps_tracked rest); [ | rewrite Hk; reflexivity ]
  end.
  destruct contextText as [ctx|]; [ destruct (negb (truthy_string ctx)) | ];
    repeat keeps_step.
Qed.

(** ** [updateContext], case by case *)

Lemma adopt_apiBaseUrl (c : OpenCodeClient) (sid : string) :
  apiBaseUrl (adopt c sid) = apiBaseUrl c.
Proof. unfold adopt. destruct (_ && _); reflexivity. Qed.

Lemma adopt_projectDirectory (c : OpenCodeClient) (sid : string) :
  projectDirectory (adopt c sid) = projectDirectory c.
Proof. unfold adopt. destruct (_ && _); reflexivity. Qed.

Lemma POST_message_adopt (c : OpenCodeClient) (sid sid' ctx : string) :
  POST_message (adopt c sid) sid' ctx = POST_message c sid' ctx.
Proof.
  unfold POST_message. rewrite adopt_apiBaseUrl, adopt_projectDirectory. reflexivity.
Qed.

Lemma PATCH_part_adopt (c : OpenCodeClient) (sid : string) (part : OpenCodePart)
    (upd : PartUpdates) :
  PATCH_part (adopt c sid) part upd = PATCH_part c part upd.
Proof.
  unfold PATCH_part. rewrite adopt_apiBaseUrl, adopt_projectDirectory. reflexivity.
Qed.

Lemma updateContext_prefix (sid : string) (w : World) :
  snd (set_trackedSessionId (Some sid)
         (snd ((if truthy_opt_string (trackedSessionId (this w))
                   && negb (match trackedSessionId (this w) with
                            | Some t => t =? sid
                            | None => false
                            end)
                then set_tracking None None
                else ret tt) w)))
  = adopted w sid.
Proof.
  unfold adopted, adopt. destruct (_ && _); reflexivity.
Qed.

Ltac enter_updateContext :=
  unfold updateContext;
  rewrite bind_unfold; cbn [get_this fst snd];
  rewrite bind_unfold; rewrite bind_unfold;
  rewrite updateContext_prefix.

(** Empty or absent text: only [ignorePreviousPart] runs. *)
Lemma updateContext_falsy (srv : Server) (sid : string) (ctx : option string) (w : World) :
  truthy_opt_string ctx = false ->
  updateContext srv sid ctx w = (tt, snd (ignorePreviousPart srv (adopted w sid))).
Proof.
  intros Hctx. enter_updateContext.
  destruct ctx as [t|]; cbn in Hctx; [ rewrite Hctx; cbn [negb] | ];
    rewrite bind_unfold; reflexivity.
Qed.

(** Text to send and no part tracked: one POST. *)
Lemma updateContext_fresh (srv : Server) (sid ctx : string) (w : World) :
  truthy_string ctx = true ->
  lastPart (adopt (this w) sid) = None ->
  let log := (sent w ++ [POST_message (this w) sid ctx])%list in
  exists con,
    updateContext srv sid (Some ctx) w =
      (tt, {| this :=
                match unwrap (response_json (messageApi srv log)) with
                | Some m =>
                    if truthy_string (info_id (info m))
                    then with_lastPart (adopt (this w) sid) (hd_error (parts m))
                    else adopt (this w) sid
                | None => adopt (this w) sid
                end;
              sent := log;
              console := con |}).
Proof.
  intros Hctx Hnone log. enter_updateContext.
  rewrite Hctx; cbn [negb].
  rewrite bind_unfold; cbn [get_this fst snd].
  cbn [adopted this]. rewrite Hnone.
  rewrite bind_unfold; cbn [ret fst snd negb].
  destruct (sendPrompt_spec srv sid ctx (adopted w sid)) as [con Hsend].
  cbn [adopted this sent] in Hsend. rewrite POST_message_adopt in Hsend.
  rewrite bind_unfold. fold (adopted w sid). rewrite Hsend. cbn [fst snd].
  fold log. exists con.
  destruct (unwrap _) as [m|];
    [ destruct (truthy_string (info_id (info m))) | ]; reflexivity.
Qed.

(** Text to send, a part tracked, and the server accepts the update: one
    PATCH. *)
Lemma updateContext_update (srv : Server) (sid ctx : string) (w : World)
    (part u : OpenCodePart) :
  truthy_string ctx = true ->
  lastPart (adopt (this w) sid) = Some part ->
  let log := (sent w ++ [PATCH_part (this w) part (set_text ctx)])%list in
  unwrap (response_json (partApi srv log)) = Some u ->
  exists con,
    updateContext srv sid (Some ctx) w =
      (tt, {| this := with_lastPart (adopt (this w) sid) (Some u);
              sent := log;
              console := con |}).
Proof.
  intros Hctx Hpart log Hok. enter_updateContext.
  rewrite Hctx; cbn [negb].
  rewrite bind_unfold; cbn [get_this fst snd].
  cbn [adopted this]. rewrite Hpart.
  destruct (updatePart_spec srv part (set_text ctx) (adopted w sid)) as [con Hupd].
  cbn [adopted this sent] in Hupd. rewrite PATCH_part_adopt in Hupd.
  fold log in Hupd. rewrite Hok in Hupd.
  rewrite bind_unfold. rewrite bind_unfold. fold (adopted w sid). fold (set_text ctx).
  rewrite Hupd. cbn [fst snd ret negb]. exists con. reflexivity.
Qed.

(** ** Small facts used below *)

Lemma truthy_string_true (s : string) : s <> EmptyString -> truthy_string s = true.
Proof.
  intros H. unfold truthy_string. apply negb_true_iff. apply String.eqb_neq. exact H.
Qed.

Lemma issued_by_app (w : World) (c : OpenCodeClient) (l : list Request) (con : list string) :
  issued_by w {| this := c; sent := (sent w ++ l)%list; console := con |} = l.
Proof.
  unfold issued_by; cbn [sent].
  induction (sent w) as [|r rs IH]; [ reflexivity | exact IH ].
Qed.

Lemma adopt_lastPart_none (c : OpenCodeClient) (sid : string) :
  lastPart c = None -> lastPart (adopt c sid) = None.
Proof. intros H. unfold adopt. destruct (_ && _); [ reflexivity | exact H ]. Qed.

Lemma adopt_lastPart_same (c : OpenCodeClient) (sid : string) :
  trackedSessionId c = Some sid -> lastPart (adopt c sid) = lastPart c.
Proof.
  intros H. unfold adopt. rewrite H. rewrite String.eqb_refl.
  rewrite andb_false_r. reflexivity.
Qed.

Lemma adopt_lastPart_changed (c : OpenCodeClient) (s1 s2 : string) :
  trackedSessionId c = Some s1 -> s1 <> EmptyString -> s1 <> s2 ->
  lastPart (adopt c s2) = None.
Proof.
  intros H Hne Hdiff. unfold adopt. rewrite H. cbn [truthy_opt_string].
  rewrite (truthy_string_true s1 Hne).
  apply String.eqb_neq in Hdiff. rewrite Hdiff. reflexivity.
Qed.

(** ** The claims *)

(** C1. Two successive successful calls [updateContext(S, a)] then
    [updateContext(S, b)] with non-empty texts, on a client that tracks no
    part beforehand: when the POST returns a message with an id and a first
    part [p], and the PATCH returns a part, the two calls send exactly two
    requests, the POST that creates the message and then one PATCH, and the
    PATCH is addressed to the session, message and part id of [p]. *)
Theorem C1_update_in_place (srv : Server) (w : World) (sid a b : string)
    (m : OpenCodeMessageWithParts) (p : OpenCodePart) (ps : list OpenCodePart)
    (p' : OpenCodePart) :
  lastPart (this w) = None ->
  a <> EmptyString ->
  b <> EmptyString ->
  unwrap (response_json
            (messageApi srv (sent w ++ [POST_message (this w) sid a])%list)) = Some m ->
  info_id (info m) <> EmptyString ->
  parts m = p :: ps ->
  unwrap (response_json
            (partApi srv (sent w ++ [POST_message (this w) sid a;
                                     PATCH_part (this w) p (set_text b)])%list)) = Some p' ->
  let w2 := snd ((updateContext srv sid (Some a) ;;; updateContext srv sid (Some b)) w) in
  issued_by w w2 = [POST_message (this w) sid a; PATCH_part (this w) p (set_text b)]
  /\ count_method "POST" (issued_by w w2) = 1
  /\ count_method "PATCH" (issued_by w w2) = 1
  /\ url (PATCH_part (this w) p (set_text b))
     = apiBaseUrl (this w) ++ "/session/" ++ sessionID p ++ "/message/" ++ messageID p
         ++ "/part/" ++ part_id p
  /\ lastPart (this w2) = Some p'.
Proof.
  intros Hnone Ha Hb Hpost Hid Hparts Hpatch w2.
  assert (Hw2 : exists con,
             w2 = {| this := with_lastPart
                               (adopt (with_lastPart (adopt (this w) sid) (Some p)) sid)
                               (Some p');
                     sent := (sent w ++ [POST_message (this w) sid a;
                                         PATCH_part (this w) p (set_text b)])%list;
                     console := con |}).
  { subst w2. rewrite bind_unfold.
    destruct (updateContext_fresh srv sid a w (truthy_string_true a Ha)
                (adopt_lastPart_none _ sid Hnone)) as [con1 H1].
    rewrite Hpost, (truthy_string_true _ Hid), Hparts in H1. cbn [hd_error] in H1.
    rewrite H1. cbn [fst snd].
    match goal with
    | |- context [updateContext srv sid (Some b) ?w1] =>
        destruct (updateContext_update srv sid b w1 p p' (truthy_string_true b Hb))
          as [con2 H2]
    end.
    - cbn [this]. rewrite adopt_lastPart_same; reflexivity.
    - cbn [this sent]. unfold PATCH_part at 1. cbn [with_lastPart apiBaseUrl projectDirectory].
      rewrite adopt_apiBaseUrl, adopt_projectDirectory.
      fold (PATCH_part (this w) p (set_text b)).
      rewrite <- app_assoc. exact Hpatch.
    - rewrite H2. cbn [snd this sent]. exists con2. f_equal.
      unfold PATCH_part at 1. cbn [with_lastPart apiBaseUrl projectDirectory].
      rewrite adopt_apiBaseUrl, adopt_projectDirectory.
      fold (PATCH_part (this w) p (set_text b)).
      rewrite <- app_assoc. reflexivity. }
  destruct Hw2 as [con Hw2]. rewrite Hw2. rewrite issued_by_app.
  repeat split; reflexivity.
Qed.

(** A run of C1 against the echo server. *)
Lemma C1_witness :
  let w := fresh_world demo_client in
  let w2 := snd ((updateContext echo_server "ses_1" (Some "A") ;;;
                  updateContext echo_server "ses_1" (Some "B")) w) in
  issued_by w w2 = [POST_message demo_client "ses_1" "A";
                    PATCH_part demo_client (demo_part "ses_1" "A") (set_text "B")]
  /\ count_method "POST" (issued_by w w2) = 1
  /\ count_method "PATCH" (issued_by w w2) = 1
  /\ url (PATCH_part demo_client (demo_part "ses_1" "A") (set_text "B"))
     = apiBaseUrl demo_client ++ "/session/" ++ "ses_1" ++ "/message/" ++ "msg_1"
         ++ "/part/" ++ "prt_1"
  /\ lastPart (this w2) = Some (demo_part "ses_1" "B").
Proof.
  apply (C1_update_in_place echo_server (fresh_world demo_client) "ses_1" "A" "B"
           {| info := {| info_id := "msg_1"; info_sessionID := "ses_1" |};
              parts := [demo_part "ses_1" "A"] |}
           (demo_part "ses_1" "A") [] (demo_part "ses_1" "B"));
    first [ reflexivity | discriminate ].
Defined.

Lemma issued_by_same (w w' : World) : sent w' = sent w -> issued_by w w' = [].
Proof.
  intros H. unfold issued_by. rewrite H. clear H.
  induction (sent w) as [|r rs IH]; [ reflexivity | exact IH ].
Qed.

(** C6, as the code has it. When the tracked session id [s1] is a non-empty
    string different from [s2], [updateContext(s2, ctx)] discards the old
    tracking without any remote call on the old part: it sends no PATCH at
    all, [s2] becomes the tracked session, and the only request is one POST
    of a message to [s2] when [ctx] is a non-empty text, and no request
    when [ctx] is empty or absent. *)
Theorem C6_session_switch (srv : Server) (w : World) (s1 s2 : string)
    (ctx : option string) :
  trackedSessionId (this w) = Some s1 ->
  s1 <> EmptyString ->
  s1 <> s2 ->
  let w' := snd (updateContext srv s2 ctx w) in
  trackedSessionId (this w') = Some s2
  /\ count_method "PATCH" (issued_by w w') = 0
  /\ issued_by w w' = match ctx with
                      | Some t => if truthy_string t then [POST_message (this w) s2 t] else []
                      | None => []
                      end.
Proof.
  intros Htr Hne Hdiff w'.
  pose proof (adopt_lastPart_changed (this w) s1 s2 Htr Hne Hdiff) as Hnone.
  split; [ apply updateContext_tracks | ].
  assert (Hfalsy : truthy_opt_string ctx = false -> issued_by w w' = []).
  { intros Hf. subst w'. rewrite (updateContext_falsy srv s2 ctx w Hf). cbn [snd].
    rewrite ignorePreviousPart_none by exact Hnone. apply issued_by_same. reflexivity. }
  destruct ctx as [t|].
  - destruct (truthy_string t) eqn:Ht.
    + destruct (updateContext_fresh srv s2 t w Ht Hnone) as [con H].
      subst w'. rewrite H. cbn [snd]. rewrite issued_by_app. split; reflexivity.
    + rewrite Hfalsy by exact Ht. split; reflexivity.
  - rewrite Hfalsy by reflexivity. split; reflexivity.
Qed.

(** A switch from session ses_1 to session ses_2 against the echo server. *)
Lemma C6_witness :
  let w := snd (updateContext echo_server "ses_1" (Some "A") (fresh_world demo_client)) in
  let w' := snd (updateContext echo_server "ses_2" (Some "X") w) in
  trackedSessionId (this w') = Some "ses_2"
  /\ count_method "PATCH" (issued_by w w') = 0
  /\ issued_by w w' = [POST_message demo_client "ses_2" "X"].
Proof.
  apply (C6_session_switch echo_server
           (snd (updateContext echo_server "ses_1" (Some "A") (fresh_world demo_client)))
           "ses_1" "ses_2" (Some "X"));
    first [ reflexivity | discriminate ].
Defined.

(** C6 as stated fails in two ways. (a) After [updateContext("", "A")] the
    tracked id is the empty string, which the guard reads as no tracked
    session: [updateContext("ses_2", "X")] then sends a PATCH to the part
    kept from before, and no POST. (b) With ses_1 tracked,
    [updateContext("ses_2", null)] sends nothing, so no POST for ses_2. *)
Lemma C6_counterexample :
  let w0 := fresh_world demo_client in
  let w1 := snd (updateContext echo_server EmptyString (Some "A") w0) in
  let w2 := snd (updateContext echo_server "ses_2" (Some "X") w1) in
  let v1 := snd (updateContext echo_server "ses_1" (Some "A") w0) in
  let v2 := snd (updateContext echo_server "ses_2" None v1) in
  (trackedSessionId (this w1) = Some EmptyString
   /\ lastPart (this w1) = Some (demo_part "ses_1" "A")
   /\ issued_by w1 w2 = [PATCH_part demo_client (demo_part "ses_1" "A") (set_text "X")])
  /\ (trackedSessionId (this v1) = Some "ses_1"
      /\ issued_by v1 v2 = []).
Proof. vm_compute. repeat split. Qed.

(** C7, as the code has it. With session [sid] tracked and a part tracked,
    [updateContext(sid, ctx)] with an empty or absent [ctx] sends exactly one
    request, a PATCH of that part with [ignored] set to true. When the
    server accepts the PATCH, part tracking is cleared and a second such
    call sends nothing; when it does not, the part stays tracked. *)
Theorem C7_clear_context (srv : Server) (w : World) (sid : string)
    (ctx : option string) (part : OpenCodePart) :
  trackedSessionId (this w) = Some sid ->
  lastPart (this w) = Some part ->
  truthy_opt_string ctx = false ->
  let patch := PATCH_part (this w) part set_ignored in
  let w1 := snd (updateContext srv sid ctx w) in
  let w2 := snd (updateContext srv sid ctx w1) in
  issued_by w w1 = [patch]
  /\ body patch = PartBody (spread part set_ignored)
  /\ ignored (spread part set_ignored) = Some true
  /\ match unwrap (response_json (partApi srv (sent w ++ [patch])%list)) with
     | Some _ => lastPart (this w1) = None /\ issued_by w1 w2 = []
     | None => lastPart (this w1) = Some part
     end.
Proof.
  intros Htr Hpart Hctx patch w1 w2.
  assert (Hlast : lastPart (this (adopted w sid)) = Some part).
  { cbn [adopted this]. rewrite adopt_lastPart_same by exact Htr. exact Hpart. }
  destruct (ignorePreviousPart_some srv (adopted w sid) part Hlast) as [con Hign].
  cbn [adopted this sent] in Hign. rewrite PATCH_part_adopt in Hign. fold patch in Hign.
  assert (Hw1 : w1 = snd (ignorePreviousPart srv (adopted w sid))).
  { subst w1. rewrite (updateContext_falsy srv sid ctx w Hctx). reflexivity. }
  fold (adopted w sid) in Hign.
  destruct (unwrap _) as [u|].
  - rewrite Hign in Hw1. cbn [snd] in Hw1.
    repeat split.
    + rewrite Hw1. apply issued_by_app.
    + rewrite Hw1. reflexivity.
    + subst w2. rewrite (updateContext_falsy srv sid ctx w1 Hctx). cbn [snd].
      rewrite ignorePreviousPart_none.
      * apply issued_by_same. reflexivity.
      * cbn [adopted this]. apply adopt_lastPart_none. rewrite Hw1. reflexivity.
  - rewrite Hign in Hw1. cbn [snd] in Hw1.
    repeat split.
    + rewrite Hw1. apply issued_by_app.
    + rewrite Hw1. cbn [this]. rewrite adopt_lastPart_same by exact Htr. exact Hpart.
Qed.

(** Clearing the context against the echo server. *)
Lemma C7_witness :
  let w := snd (updateContext echo_server "ses_1" (Some "A") (fresh_world demo_client)) in
  let patch := PATCH_part (this w) (demo_part "ses_1" "A") set_ignored in
  let w1 := snd (updateContext echo_server "ses_1" (Some EmptyString) w) in
  let w2 := snd (updateContext echo_server "ses_1" (Some EmptyString) w1) in
  issued_by w w1 = [patch]
  /\ body patch = PartBody (spread (demo_part "ses_1" "A") set_ignored)
  /\ ignored (spread (demo_part "ses_1" "A") set_ignored) = Some true
  /\ lastPart (this w1) = None /\ issued_by w1 w2 = [].
Proof.
  apply (C7_clear_context echo_server
           (snd (updateContext echo_server "ses_1" (Some "A") (fresh_world demo_client)))
           "ses_1" (Some EmptyString) (demo_part "ses_1" "A"));
    reflexivity.
Defined.

(** C7 as stated fails when the server refuses the PATCH: the one PATCH is
    sent, but the part stays tracked, and the next call with an empty text
    sends the PATCH again. *)
Lemma C7_counterexample :
  let w := snd (updateContext refusing_server "ses_1" (Some "A") (fresh_world demo_client)) in
  let w1 := snd (updateContext refusing_server "ses_1" (Some EmptyString) w) in
  let w2 := snd (updateContext refusing_server "ses_1" (Some EmptyString) w1) in
  lastPart (this w) = Some (demo_part "ses_1" "A")
  /\ issued_by w w1 = [PATCH_part demo_client (demo_part "ses_1" "A") set_ignored]
  /\ lastPart (this w1) = Some (demo_part "ses_1" "A")
  /\ issued_by w1 w2 = [PATCH_part demo_client (demo_part "ses_1" "A") set_ignored].
Proof. vm_compute. repeat split. Qed.

Lemma createSession_this (srv : Server) (w : World) :
  this (snd (createSession srv w)) = this w.
Proof.
  unfold createSession. rewrite bind_unfold.
  destruct (request_spec (sessionApi srv) "POST" "/session" (SessionBody "Obsidian") w)
    as [con H].
  rewrite H. cbn [fst snd]. destruct (unwrap _); reflexivity.
Qed.





(** C10. [updateBaseUrl] leaves [trackedSessionId] and [lastPart] as they
    are when the normalized API base URL, the normalized UI base URL and
    the project directory all equal the stored values, and sets both to
    null when any of the three differs. *)
Theorem C10_updateBaseUrl_frame (c : OpenCodeClient) (api ui dir : string) :
  (normalizeBaseUrl api = apiBaseUrl c ->
   normalizeBaseUrl ui = uiBaseUrl c ->
   dir = projectDirectory c ->
   trackedSessionId (updateBaseUrl c api ui dir) = trackedSessionId c
   /\ lastPart (updateBaseUrl c api ui dir) = lastPart c)
  /\
  (normalizeBaseUrl api <> apiBaseUrl c
   \/ normalizeBaseUrl ui <> uiBaseUrl c
   \/ dir <> projectDirectory c ->
   trackedSessionId (updateBaseUrl c api ui dir) = None
   /\ lastPart (updateBaseUrl c api ui dir) = None).
Proof.
  unfold updateBaseUrl. split.
  - intros Ha Hu Hd. rewrite Ha, Hu, Hd. rewrite !String.eqb_refl. split; reflexivity.
  - intros H.
    assert (E : negb (normalizeBaseUrl api =? apiBaseUrl c)
                || negb (normalizeBaseUrl ui =? uiBaseUrl c)
                || negb (dir =? projectDirectory c) = true).
    { destruct H as [H | [H | H]]; apply String.eqb_neq in H; rewrite H;
        cbn [negb]; rewrite ?orb_true_r; reflexivity. }
    rewrite E. split; reflexivity.
Qed.

(** The same server written with extra slashes keeps the tracking; another
    project directory drops it. *)
Lemma C10_witness :
  let c := this (snd (updateContext echo_server "ses_1" (Some "A") (fresh_world demo_client))) in
  (trackedSessionId
     (updateBaseUrl c "http://127.0.0.1:4096//" "http://127.0.0.1:4096/L3ZhdWx0/" "/vault")
   = Some "ses_1"
   /\ lastPart
        (updateBaseUrl c "http://127.0.0.1:4096//" "http://127.0.0.1:4096/L3ZhdWx0/" "/vault")
      = Some (demo_part "ses_1" "A"))
  /\ (trackedSessionId
        (updateBaseUrl c "http://127.0.0.1:4096" "http://127.0.0.1:4096/L3ZhdWx0" "/other")
      = None
      /\ lastPart
           (updateBaseUrl c "http://127.0.0.1:4096" "http://127.0.0.1:4096/L3ZhdWx0" "/other")
         = None).
Proof.
  split.
  - apply (proj1 (C10_updateBaseUrl_frame
                    (this (snd (updateContext echo_server "ses_1" (Some "A")
                                  (fresh_world demo_client))))
                    "http://127.0.0.1:4096//" "http://127.0.0.1:4096/L3ZhdWx0/" "/vault"));
      vm_compute; reflexivity.
  - apply (proj2 (C10_updateBaseUrl_frame
                    (this (snd (updateContext echo_server "ses_1" (Some "A")
                                  (fresh_world demo_client))))
                    "http://127.0.0.1:4096" "http://127.0.0.1:4096/L3ZhdWx0" "/other")).
    right; right. vm_compute. discriminate.
Defined.

(** ** Session URLs *)

Lemma append_assoc (a b c : string) : (a ++ b) ++ c = a ++ (b ++ c).
Proof. induction a as [|ch a IH]; cbn; [ reflexivity | rewrite IH; reflexivity ]. Qed.

Lemma length_append (a b : string) :
  String.length (a ++ b) = String.length a + String.length b.
Proof. induction a as [|ch a IH]; cbn; [ reflexivity | rewrite IH; reflexivity ]. Qed.

Lemma strip_prefix_app (p s t a : string) :
  strip_prefix p s = Some a -> strip_prefix p (s ++ t) = Some (a ++ t).
Proof.
  revert s. induction p as [|x p IH]; intros s H; cbn in *.
  - injection H as <-. reflexivity.
  - destruct s as [|y s]; [ discriminate | ]. cbn.
    destruct (Ascii.eqb x y); [ apply IH; exact H | discriminate ].
Qed.

Lemma strip_prefix_app_none (p s t : string) :
  String.length p <= String.length s ->
  strip_prefix p s = None -> strip_prefix p (s ++ t) = None.
Proof.
  revert s. induction p as [|x p IH]; intros s Hlen H; cbn in *.
  - discriminate.
  - destruct s as [|y s]; cbn in *; [ lia | ].
    destruct (Ascii.eqb x y); [ apply IH; [ lia | exact H ] | reflexivity ].
Qed.

Lemma strip_prefix_length (p s a : string) :
  strip_prefix p s = Some a -> String.length s = String.length p + String.length a.
Proof.
  revert s. induction p as [|x p IH]; intros s H; cbn in *.
  - injection H as <-. reflexivity.
  - destruct s as [|y s]; [ discriminate | ]. cbn.
    destruct (Ascii.eqb x y); [ rewrite (IH s H); reflexivity | discriminate ].
Qed.

Lemma take_segment_all (s : string) : segment_only s = true -> take_segment s = s.
Proof.
  induction s as [|c s IH]; cbn; [ reflexivity | ].
  intros H. apply andb_true_iff in H. destruct H as [Hc Hs].
  rewrite Hc, (IH Hs). reflexivity.
Qed.

Lemma take_segment_app_empty (a t : string) :
  a <> EmptyString -> take_segment a = EmptyString -> take_segment (a ++ t) = EmptyString.
Proof.
  destruct a as [|c a]; [ congruence | ]. cbn.
  destruct (segment_char c); [ discriminate | reflexivity ].
Qed.

(** One unfolding of the scan. *)
Lemma match_session_step (s : string) :
  match_session s =
    match strip_prefix "/session/" s with
    | Some after =>
        match take_segment after with
        | EmptyString =>
            match s with
            | EmptyString => None
            | String _ rest => match_session rest
            end
        | seg => Some seg
        end
    | None =>
        match s with
        | EmptyString => None
        | String _ rest => match_session rest
        end
    end.
Proof. destruct s; reflexivity. Qed.

(** When the base followed by "/session/" holds no match, the match in the
    session URL of a well-formed id is the id. *)
Lemma match_session_append (base id : string) :
  id <> EmptyString ->
  segment_only id = true ->
  match_session (base ++ "/session/") = None ->
  match_session (base ++ "/session/" ++ id) = Some id.
Proof.
  intros Hne Hseg. induction base as [|c r IH]; intros Hnone.
  - change (EmptyString ++ "/session/" ++ id) with ("/session/" ++ id).
    rewrite match_session_step.
    rewrite (strip_prefix_app "/session/" "/session/" id EmptyString eq_refl).
    change (EmptyString ++ id) with id. rewrite (take_segment_all id Hseg).
    destruct id; [ congruence | reflexivity ].
  - rewrite match_session_step in Hnone.
    rewrite match_session_step.
    replace (String c r ++ "/session/" ++ id) with ((String c r ++ "/session/") ++ id)
      by apply append_assoc.
    destruct (strip_prefix "/session/" (String c r ++ "/session/")) as [after|] eqn:Hstrip.
    + rewrite (strip_prefix_app _ _ id _ Hstrip).
      pose proof (strip_prefix_length _ _ _ Hstrip) as Hlen.
      rewrite length_append in Hlen. cbn [String.length] in Hlen.
      assert (Hafter : after <> EmptyString).
      { intros ->. cbn [String.length] in Hlen. lia. }
      destruct (take_segment after) eqn:Htake.
      * rewrite (take_segment_app_empty after id Hafter Htake).
        cbn [append] in *. rewrite append_assoc. apply IH. exact Hnone.
      * discriminate.
    + rewrite (strip_prefix_app_none _ _ id); [ | | exact Hstrip ].
      * cbn [append] in *. rewrite append_assoc. apply IH. exact Hnone.
      * rewrite length_append. cbn [String.length]. lia.
Qed.

(** C8, as the code has it. For every non-empty id made of characters other
    than slash, question mark and hash, on a client whose UI base URL
    followed by "/session/" contains no session segment of its own,
    [resolveSessionId(getSessionUrl(id))] is [id]. *)
Theorem C8_session_url_roundtrip (c : OpenCodeClient) (id : string) :
  id <> EmptyString ->
  segment_only id = true ->
  resolveSessionId c (getSessionUrl c EmptyString) = None ->
  resolveSessionId c (getSessionUrl c id) = Some id.
Proof.
  unfold resolveSessionId, getSessionUrl. intros Hne Hseg Hbase.
  apply match_session_append; assumption.
Qed.

(** The round trip on the demo client. *)
Lemma C8_witness :
  resolveSessionId demo_client (getSessionUrl demo_client "ses_4f2a") = Some "ses_4f2a".
Proof.
  apply (C8_session_url_roundtrip demo_client "ses_4f2a");
    [ discriminate | reflexivity | reflexivity ].
Defined.

(** C8 as stated fails: an id with a slash in it comes back cut at the
    slash, an id that starts with a hash does not come back at all, and on
    a client whose UI base URL already holds a session segment that segment
    comes back instead of the id. *)
Lemma C8_counterexample :
  resolveSessionId demo_client (getSessionUrl demo_client "a/b") = Some "a"
  /\ resolveSessionId demo_client (getSessionUrl demo_client "#1") = None
  /\ let c := new_OpenCodeClient "http://h:1" "http://h:1/session/x" "/vault" in
     resolveSessionId c (getSessionUrl c "y") = Some "x".
Proof. vm_compute. repeat split. Qed.

End ClientProofs.

(* ===================================================================== *)
(** * Part IV: properties of ProcessManager                               *)
(* ===================================================================== *)

Module SupervisorProofs.
Import Supervisor.

(** ** Running a program only adds to the trace *)



Lemma since_app (s : Sys) (m : Machine) (d : list Event) :
  trace (sys m) = (trace s ++ d)%list -> since s m = d.
Proof.
  intros H. unfold since. rewrite H. clear H.
  induction (trace s) as [|x l IH]; [ reflexivity | exact IH ].
Qed.

(** ** Programs that assign nothing *)


(** ** What [stop()] does before its first query *)

#[local] Arguments string_of_Z : simpl never.

(** Case analysis on what the environment answers and on what is read. *)
Ltac explore :=
  repeat (cbn;
          match goal with
          | |- forall _, _ => intro
          | |- _ /\ _ => split
          | |- True => exact I
          | |- ?x = ?x => reflexivity
          | |- context [match ?x with _ => _ end] => destruct x
          end).


(** ** The invariant of a teardown

    Established by [stop()] before its first query, preserved by every move
    of a teardown: the state is stopped, the calls in flight assign nothing,
    and the first thing observed since [s0], console lines apart, is the
    change to stopped. *)

Section StopInvariant.

Variable s0 : Sys.




Lemma find_pending_In (t : nat) (l : list Pending) (p : Pending) :
  find_pending t l = Some p -> In p l.
Proof. intros H. apply find_some in H. apply H. Qed.







End StopInvariant.



(** ** A call alone in the pool settles *)









(** ** When the signal cannot be delivered *)

(** Whenever the first signal fails, [stop()] throws. *)
Lemma stop_throws (s : Sys) (proc : ChildProcess) (p : Z) (e : string) (t : Z) :
  process (this s) = Some proc ->
  truthy_pid (pid proc) = Some p ->
  settled (run (call stop_call (idle s)) [Resume 0 (AError e) t]) = [(0, Rejected e)].
Proof.
  intros Hproc Hpid. unfold run, call, stop_call, stop. cbn -[Z.max].
  rewrite Hproc. cbn -[Z.max]. rewrite Hpid. cbn -[Z.max].
  destruct (platform s); reflexivity.
Qed.

(** C4, at the failing input. A manager is started and becomes running;
    [stop()] is then called and the signal cannot be delivered
    ([process.kill] throws, respectively taskkill fails): the promise of
    [stop()] is rejected, that is, [stop()] throws to its caller. *)
Theorem C4_stop_throws :
  settled (run (idle (demo_sys posix)) (kill_fails_moves "kill ESRCH"))
  = [(0, Returned (VBool true)); (1, Rejected "kill ESRCH")]
  /\ settled (run (idle (demo_sys win32))
                  (kill_fails_moves "Command failed: taskkill /T /F /PID 4242"))
     = [(0, Returned (VBool true));
        (1, Rejected "Command failed: taskkill /T /F /PID 4242")].
Proof. vm_compute. split; reflexivity. Qed.

(** ** The diagnostic after a failed poll *)

(** C5, at the failing input. The child is spawned, the probe fails for the
    whole 5000 ms and the child never exits: [start()] returns false and the
    state is error, but the message is the one for an early exit, not the
    one for the timeout; [stop()] has cleared [this.process] before the
    message is chosen. *)
Theorem C5_timeout_reports_exit :
  let m := run (idle (demo_sys posix)) never_ready_moves in
  settled m = [(0, Returned (VBool false))]
  /\ state (this (sys m)) = error
  /\ lastError (this (sys m)) = Some "Process exited before server became ready"
  /\ lastError (this (sys m)) <> Some "Server failed to start within timeout".
Proof. vm_compute. repeat split. discriminate. Qed.

(** ** Counting spawns *)











#[local] Arguments stop : simpl never.
#[local] Arguments waitForServerOrExit : simpl never.





(** ** The spawn budget of a machine

    Every call in flight has a bound on the spawns it can still make; the
    spawns made so far and these bounds together stay within [B]. *)













(** ** A run only adds to the trace *)










(** ** The poll loop stays within its bound

    Time does not go back and a timer of 500 ms does not fire before 500 ms
    have passed, so the loop of [waitForServerOrExit] is left after at most
    [timeoutMs / 500 + 1] rounds: the bound of the model is never used
    up. *)

Lemma never_spins_mono {A : Type} (p : Prog A) :
  forall t t', (t <= t')%Z -> never_spins t p -> never_spins t' p.
Proof.
  induction p as [a | e | k IH | f k IH | e k IH | q k IH | ]; cbn; intros t t' Hle H.
  - exact I.
  - exact I.
  - intros s Hs. apply H. lia.
  - eapply IH; eauto.
  - eapply IH; eauto.
  - intros a t'' Ht. apply H. lia.
  - exact H.
Qed.

Lemma never_spins_bind {A B : Type} (p : Prog A) (f : A -> Prog B) :
  forall t,
    never_spins t p ->
    (forall x t', (t <= t')%Z -> never_spins t' (f x)) ->
    never_spins t (bind p f).
Proof.
  induction p as [a | e | k IH | g k IH | e k IH | q k IH | ]; cbn; intros t Hp Hf.
  - apply Hf. lia.
  - exact I.
  - intros s Hs. apply IH; [ apply Hp; exact Hs | ].
    intros x t' Ht'. apply Hf. lia.
  - apply IH; assumption.
  - apply IH; assumption.
  - intros a t' Ht'. apply IH; [ apply Hp; exact Ht' | ].
    intros x t'' Ht''. apply Hf. pose proof (Z.le_max_l 0 0).
    assert (0 <= timer_delay q)%Z by (destruct q; cbn; lia). lia.
  - exact Hp.
Qed.

Lemma pollLoop_never_spins (startTime timeoutMs : Z) (fuel : nat) :
  forall t,
    1 <= fuel ->
    ((t - startTime < timeoutMs)%Z ->
     ((timeoutMs - (t - startTime) - 1) / 500 + 2 <= Z.of_nat fuel)%Z) ->
    never_spins t (pollLoop fuel startTime timeoutMs).
Proof.
  induction fuel as [|fuel IH]; intros t Hone Hfuel; [ lia | ].
  cbn. intros s Hs.
  destruct (now s - startTime <? timeoutMs)%Z eqn:Hlt; [ | exact I ].
  apply Z.ltb_lt in Hlt.
  assert (Hfuel' : ((timeoutMs - (t - startTime) - 1) / 500 + 2 <= Z.of_nat (S fuel))%Z)
    by (apply Hfuel; lia).
  assert (Hdiv : (0 <= (timeoutMs - (now s - startTime) - 1) / 500)%Z)
    by (apply Z.div_pos; lia).
  assert (Hmono : ((timeoutMs - (now s - startTime) - 1) / 500
                   <= (timeoutMs - (t - startTime) - 1) / 500)%Z)
    by (apply Z.div_le_mono; lia).
  destruct (process (this s)); [ | exact I ].
  cbn. intros s1 Hs1 a t1 Ht1. destruct a as [ | [|] | | ]; cbn; try exact I;
    intros a2 t2 Ht2; apply IH; try lia;
    intros Hlt2;
    (assert (Hstep : ((timeoutMs - (t2 - startTime) - 1) / 500
                      <= (timeoutMs - (now s - startTime) - 1 - 1 * 500) / 500)%Z)
       by (apply Z.div_le_mono; lia));
    (replace (timeoutMs - (now s - startTime) - 1 - 1 * 500)%Z
       with (timeoutMs - (now s - startTime) - 1 + (-1) * 500)%Z in Hstep by lia);
    rewrite Z.div_add in Hstep by lia; lia.
Qed.

Lemma waitForServerOrExit_never_spins (timeoutMs t : Z) :
  never_spins t (waitForServerOrExit timeoutMs).
Proof.
  unfold waitForServerOrExit. cbn. intros s Hs.
  apply pollLoop_never_spins; unfold pollBound; [ lia | ].
  intros Hlt.
  assert (Hmono : ((timeoutMs - (now s - now s) - 1) / 500 <= timeoutMs / 500)%Z)
    by (apply Z.div_le_mono; lia).
  assert (Hpos : (0 <= timeoutMs / 500)%Z) by (apply Z.div_pos; lia).
  lia.
Qed.

Lemma stop_never_spins (t : Z) : never_spins t stop.
Proof. unfold stop. explore. Qed.

Lemma stop_call_never_spins (t : Z) : never_spins t stop_call.
Proof.
  unfold stop_call. apply never_spins_bind; [ apply stop_never_spins | intros; exact I ].
Qed.

Lemma start_never_spins (t : Z) : never_spins t start.
Proof.
  unfold start. explore.
  all: apply never_spins_bind; [ apply waitForServerOrExit_never_spins | intros ready t1 Ht1 ].
  all: explore.
  all: apply never_spins_bind; [ apply stop_never_spins | intros ].
  all: explore.
Qed.

Lemma start_call_never_spins (t : Z) : never_spins t start_call.
Proof.
  unfold start_call. apply never_spins_bind; [ apply start_never_spins | intros; exact I ].
Qed.

Lemma run_sync_now {A : Type} (p : Prog A) :
  forall s, now (fst (run_sync p s)) = now s.
Proof.
  induction p as [a | e | k IH | f k IH | e k IH | q k IH | ]; cbn; intros s; auto.
  - apply (IH (with_this f s)).
  - apply (IH (with_event e s)).
Qed.

Lemma run_sync_never_spins {A : Type} (p : Prog A) :
  forall t s,
    never_spins t p -> (t <= now s)%Z ->
    blocked_never_spins (now s) (snd (run_sync p s)).
Proof.
  induction p as [a | e | k IH | f k IH | e k IH | q k IH | ]; cbn; intros t s H Hs.
  - exact I.
  - exact I.
  - apply (IH s (now s) s); [ apply H; exact Hs | lia ].
  - apply (IH t (with_this f s)); assumption.
  - apply (IH t (with_event e s)); assumption.
  - intros a t' Ht'. apply H. lia.
  - exact H.
Qed.

Lemma pending_never_spins_mono (c c' : Z) (p : Pending) :
  (c <= c')%Z -> pending_never_spins c p -> pending_never_spins c' p.
Proof. intros Hle [Hi Hk]. split; [ lia | exact Hk ]. Qed.

Lemma pool_never_spins_mono (c c' : Z) (l : list Pending) :
  (c <= c')%Z -> Forall (pending_never_spins c) l -> Forall (pending_never_spins c') l.
Proof.
  intros Hle H. eapply Forall_impl; [ | exact H ].
  intros p. apply pending_never_spins_mono. exact Hle.
Qed.

Lemma settle_spin_inv (t : nat) (r : Sys * Blocked Value) (waiting : list Pending)
    (done : list (nat * Outcome)) (n : nat) :
  Forall (pending_never_spins (now (fst r))) waiting ->
  Forall (fun to => snd to <> Diverged) done ->
  blocked_never_spins (now (fst r)) (snd r) ->
  spin_inv (settle t r waiting done n).
Proof.
  intros Hw Hd Hb. unfold settle, spin_inv.
  destruct (snd r) as [v | e | q k | ]; cbn [sys pool settled].
  - split; [ exact Hw | ]. apply Forall_app. split; [ exact Hd | ].
    constructor; [ discriminate | constructor ].
  - split; [ exact Hw | ]. apply Forall_app. split; [ exact Hd | ].
    constructor; [ discriminate | constructor ].
  - split; [ | exact Hd ]. apply Forall_app. split; [ exact Hw | ].
    constructor; [ | constructor ]. split; [ cbn; lia | exact Hb ].
  - destruct Hb.
Qed.

Lemma continue_spin_inv (m : Machine) (p : Pending) (a : Answer) (s' : Sys) :
  spin_inv m ->
  In p (pool m) ->
  (now (sys m) <= now s')%Z ->
  (issued p + timer_delay (waits_on p) <= now s')%Z ->
  spin_inv (continue_with p a s' m).
Proof.
  intros [Hpool Hdone] Hin Hclock Hdue.
  pose proof (proj1 (Forall_forall _ _) Hpool p Hin) as [_ Hk].
  unfold continue_with. apply settle_spin_inv.
  - rewrite run_sync_now.
    apply (pool_never_spins_mono (now (sys m))); [ exact Hclock | ].
    apply Forall_forall. intros q Hq. apply filter_In in Hq. destruct Hq as [Hq _].
    exact (proj1 (Forall_forall _ _) Hpool q Hq).
  - exact Hdone.
  - rewrite run_sync_now.
    apply (run_sync_never_spins (resume p a) (now s') s'); [ | lia ].
    apply Hk. exact Hdue.
Qed.

Lemma timer_delay_le (q : Query) : (timer_delay q <= min_delay q)%Z.
Proof. destruct q; cbn; lia. Qed.

Lemma wake_spin_inv (c : nat) (m : Machine) (t : nat) :
  spin_inv m -> spin_inv (wake c m t).
Proof.
  intros H. unfold wake.
  destruct (find_pending t (pool m)) as [p|] eqn:Hfind; [ | exact H ].
  destruct (waits_on p) eqn:Hq; try exact H.
  destruct (Nat.eqb (cid proc) c); [ | exact H ].
  pose proof (find_pending_In _ _ _ Hfind) as Hin.
  apply continue_spin_inv; [ exact H | exact Hin | lia | ].
  rewrite Hq. cbn.
  destruct H as [Hpool _].
  destruct (proj1 (Forall_forall _ _) Hpool p Hin) as [Hi _]. lia.
Qed.

Lemma wake_waiters_spin_inv (c : nat) (m : Machine) :
  spin_inv m -> spin_inv (wake_waiters c m).
Proof.
  unfold wake_waiters. generalize (map tid (pool m)) as ts.
  intros ts. revert m. induction ts as [|t ts IH]; intros m H; cbn.
  - exact H.
  - apply IH. apply wake_spin_inv. exact H.
Qed.

Lemma handle_spin_inv (h : Prog unit) (s : Sys) (m : Machine) :
  now s = now (sys m) ->
  spin_inv m ->
  spin_inv (with_sys (handle h s) m).
Proof.
  intros Hnow [Hpool Hdone]. unfold spin_inv, handle. cbn [with_sys sys pool settled].
  rewrite run_sync_now, Hnow. split; assumption.
Qed.

Lemma call_spin_inv (p : Prog Value) (m : Machine) :
  never_spins (now (sys m)) p -> spin_inv m -> spin_inv (call p m).
Proof.
  intros Hp [Hpool Hdone]. unfold call. apply settle_spin_inv.
  - rewrite run_sync_now. exact Hpool.
  - exact Hdone.
  - rewrite run_sync_now.
    apply (run_sync_never_spins p (now (sys m)) (sys m)); [ exact Hp | lia ].
Qed.

Lemma step_spin_inv (m : Machine) (mv : Move) :
  spin_inv m -> spin_inv (step m mv).
Proof.
  intros H.
  destruct mv as [ | | t a at_time | c code signal | c code msg | c line | c line ];
    cbn [step].
  - apply call_spin_inv; [ apply start_call_never_spins | exact H ].
  - apply call_spin_inv; [ apply stop_call_never_spins | exact H ].
  - unfold resume_task.
    destruct (find_pending t (pool m)) as [p|] eqn:Hfind; [ | exact H ].
    cbn zeta. pose proof (timer_delay_le (waits_on p)) as Hq.
    apply continue_spin_inv; [ exact H | eapply find_pending_In; eassumption | | ];
      unfold deliver; destruct (waits_on p); cbn [fst with_now with_child now] in *; lia.
  - destruct (spawned (sys m) c && negb (mem_nat c (exited (sys m)))); [ | exact H ].
    apply wake_waiters_spin_inv. apply handle_spin_inv; [ reflexivity | exact H ].
  - destruct (spawn_failed (sys m) c && negb (mem_nat c (errored (sys m)))); [ | exact H ].
    apply wake_waiters_spin_inv. apply handle_spin_inv; [ reflexivity | exact H ].
  - destruct (spawned (sys m) c); [ | exact H ].
    apply handle_spin_inv; [ reflexivity | exact H ].
  - destruct (spawned (sys m) c); [ | exact H ].
    apply handle_spin_inv; [ reflexivity | exact H ].
Qed.

(** X2. No call of [start()] or [stop()] uses up the bound of the poll
    loop, in any run of the event loop: with a clock that does not go back
    and timers that are not early, [waitForServerOrExit] is left after at
    most [timeoutMs / 500 + 1] rounds. *)
Theorem no_call_diverges (s : Sys) (moves : list Move) :
  Forall (fun to => snd to <> Diverged) (settled (run (idle s) moves)).
Proof.
  assert (H : forall mvs m, spin_inv m -> spin_inv (run m mvs)).
  { induction mvs as [|mv mvs IH]; intros m Hm; cbn; [ exact Hm | ].
    apply IH. apply step_spin_inv. exact Hm. }
  apply (H moves (idle s)). split; constructor.
Qed.

(** ** The timeout diagnostic is never reported

    [start()] awaits [stop()] before it chooses the diagnostic, and [stop()]
    leaves [this.process] null on every path. *)

Lemma triple_bind {A B : Type} (p : Prog A) (f : A -> Prog B)
    (Q : A -> bool -> Prop) (R : B -> bool -> Prop) :
  forall known,
    triple known p Q ->
    (forall x known', Q x known' -> triple known' (f x) R) ->
    triple known (bind p f) R.
Proof.
  induction p as [a | e | k IH | g k IH | e k IH | q k IH | ]; cbn; intros known Hp Hf.
  - apply Hf. exact Hp.
  - exact I.
  - intros s Hs. destruct (Hp s Hs) as (known' & Hk & Ht).
    exists known'. split; [ exact Hk | ]. apply IH; assumption.
  - destruct Hp as (Hm & known' & Hk & Ht).
    split; [ exact Hm | ]. exists known'. split; [ exact Hk | ]. apply IH; assumption.
  - apply IH; assumption.
  - intros a. apply IH; [ apply Hp | exact Hf ].
  - exact I.
Qed.

(** Proof search for [triple]: what is known is kept when possible. *)
Ltac null_facts :=
  solve [ intros ? ? ?; cbn; auto
        | intros ? ?; cbn; auto
        | intros ?; cbn; auto
        | unfold null_if; intros; cbn; auto
        | unfold null_if; intros; discriminate
        | unfold null_if; intros; cbn in *; congruence ].

Ltac triple_step :=
  cbn;
  match goal with
  | H : null_if true ?pm, E : process ?pm = Some _ |- _ =>
      exfalso; rewrite (H eq_refl) in E; discriminate E
  | |- forall _, _ => intro
  | |- _ /\ _ => split
  | |- True => exact I
  | |- ?x = ?x => reflexivity
  | |- keeps_message _ =>
      solve [ intros pm Hpm; cbn in Hpm; first [ exact Hpm | discriminate Hpm ] ]
  | |- context [match ?x with _ => _ end] => destruct x eqn:?
  | |- exists known', _ =>
      first [ exists true; split; [ null_facts | ]
            | exists false; split; [ null_facts | ] ]
  end.

Lemma pollLoop_triple (fuel : nat) (startTime timeoutMs : Z) (known : bool) :
  triple known (pollLoop fuel startTime timeoutMs) (fun _ _ => True).
Proof.
  revert known. induction fuel as [|fuel IH]; intros known; [ exact I | ].
  repeat triple_step; apply IH.
Qed.

Lemma waitForServerOrExit_triple (timeoutMs : Z) (known : bool) :
  triple known (waitForServerOrExit timeoutMs) (fun _ _ => True).
Proof.
  unfold waitForServerOrExit. cbn. intros s Hs. exists known. split; [ exact Hs | ].
  apply pollLoop_triple.
Qed.

(** After [stop()], [this.process] is null. *)
Lemma stop_triple (known : bool) : triple known stop (fun _ k => k = true).
Proof. unfold stop. repeat triple_step. Qed.

Lemma start_triple (known : bool) : triple known start (fun _ _ => True).
Proof.
  unfold start. repeat triple_step.
  all: eapply triple_bind; [ apply waitForServerOrExit_triple | intros ready k1 _ ].
  all: repeat triple_step.
  all: eapply triple_bind;
    [ apply stop_triple | intros u k2 Hk2; cbv beta in Hk2; subst k2 ].
  all: repeat triple_step.
Qed.

Lemma start_call_triple (known : bool) : triple known start_call (fun _ _ => True).
Proof.
  unfold start_call. eapply triple_bind; [ apply start_triple | intros; exact I ].
Qed.

Lemma run_sync_triple {A : Type} (p : Prog A) (Q : A -> bool -> Prop) :
  forall known s,
    triple known p Q ->
    null_if known (this s) ->
    lastError (this s) <> Some timeout_message ->
    lastError (this (fst (run_sync p s))) <> Some timeout_message
    /\ blocked_triple (this (fst (run_sync p s))) (snd (run_sync p s)) Q.
Proof.
  induction p as [a | e | k IH | f k IH | e k IH | q k IH | ]; cbn; intros known s Hp Hs Hm.
  - split; [ exact Hm | ]. exists known. split; assumption.
  - split; [ exact Hm | exact I ].
  - destruct (Hp s Hs) as (known' & Hk & Ht). apply (IH s known' s); assumption.
  - destruct Hp as (Hkeep & known' & Hk & Ht).
    apply (IH known' (with_this f s)); [ exact Ht | apply Hk; exact Hs | ].
    intros H. apply Hm. apply Hkeep. exact H.
  - apply (IH known (with_event e s)); assumption.
  - split; [ exact Hm | ]. exists known. split; assumption.
  - split; [ exact Hm | exact I ].
Qed.

Lemma settle_message_inv (t : nat) (r : Sys * Blocked Value)
    (done : list (nat * Outcome)) (n : nat) :
  lastError (this (fst r)) <> Some timeout_message ->
  blocked_triple (this (fst r)) (snd r) (fun _ _ => True) ->
  message_inv (settle t r [] done n).
Proof.
  intros Hm Hb. unfold settle, message_inv.
  destruct (snd r) as [v | e | q k | ]; cbn [sys pool];
    (split; [ exact Hm | ]); try (left; reflexivity).
  right. eexists. split; [ reflexivity | ].
  destruct Hb as (known & Hk & Ht). exists known. split; assumption.
Qed.

Lemma continue_message_inv (m : Machine) (p : Pending) (a : Answer) (s' : Sys) :
  pool m = [p] ->
  this s' = this (sys m) ->
  lastError (this (sys m)) <> Some timeout_message ->
  pending_triple (this (sys m)) p ->
  message_inv (continue_with p a s' m).
Proof.
  intros Hpool Hthis Hm (known & Hk & Ht).
  unfold continue_with. rewrite Hpool. unfold remove_pending. cbn [filter].
  rewrite Nat.eqb_refl. cbn [negb].
  rewrite <- Hthis in Hk, Hm.
  destruct (run_sync_triple (resume p a) (fun _ _ => True) known s' (Ht a) Hk Hm)
    as [Hm' Hb].
  apply settle_message_inv; assumption.
Qed.

Lemma find_single (t : nat) (p q : Pending) :
  find_pending t [p] = Some q -> q = p.
Proof.
  unfold find_pending. cbn. destruct (Nat.eqb (tid p) t); congruence.
Qed.

Lemma wake_message_inv (c : nat) (m : Machine) (t : nat) :
  message_inv m -> message_inv (wake c m t).
Proof.
  intros H. unfold wake.
  destruct (find_pending t (pool m)) as [q|] eqn:Hfind; [ | exact H ].
  destruct (waits_on q); try exact H.
  destruct (Nat.eqb (cid proc) c); [ | exact H ].
  destruct H as [Hm [Hpool | (p & Hpool & Hp)]].
  - rewrite Hpool in Hfind. discriminate.
  - rewrite Hpool in Hfind. apply find_single in Hfind. subst q.
    apply continue_message_inv; auto.
Qed.

Lemma wake_waiters_message_inv (c : nat) (m : Machine) :
  message_inv m -> message_inv (wake_waiters c m).
Proof.
  unfold wake_waiters. generalize (map tid (pool m)) as ts.
  intros ts. revert m. induction ts as [|t ts IH]; intros m H; cbn.
  - exact H.
  - apply IH. apply wake_message_inv. exact H.
Qed.

Lemma with_sys_message_inv (m : Machine) (s' : Sys) :
  lastError (this s') <> Some timeout_message ->
  process (this s') = None \/ this s' = this (sys m) ->
  message_inv m ->
  message_inv (with_sys s' m).
Proof.
  intros Hm' Hthis [Hm Hpool]. unfold message_inv. cbn [with_sys sys pool].
  split; [ exact Hm' | ].
  destruct Hpool as [Hpool | (p & Hpool & known & Hk & Ht)]; [ left; exact Hpool | ].
  right. exists p. split; [ exact Hpool | ]. exists known. split; [ | exact Ht ].
  destruct Hthis as [Hnull | Hsame]; [ intros _; exact Hnull | rewrite Hsame; exact Hk ].
Qed.

(** The exit listener leaves [this.process] null and the message alone. *)
Lemma onExit_effect (code : option Z) (signal : option string) (s : Sys) :
  process (this (handle (onExit code signal) s)) = None
  /\ lastError (this (handle (onExit code signal) s)) = lastError (this s).
Proof.
  unfold handle, onExit. cbn.
  destruct (state (this s)) eqn:E; destruct code as [c|]; cbn;
    try (destruct (c =? 0)%Z; cbn); rewrite ?E; cbn; split; reflexivity.
Qed.

(** The error listener leaves [this.process] null and records one of its
    two messages. *)
Lemma onError_effect (code : option string) (msg : string) (s : Sys) :
  process (this (handle (onError code msg) s)) = None
  /\ lastError (this (handle (onError code msg) s)) <> Some timeout_message.
Proof.
  unfold handle, onError. cbn.
  destruct (match code with Some c => (c =? "ENOENT")%string | None => false end);
    cbn; split; try reflexivity; discriminate.
Qed.

Lemma step_message_inv (m : Machine) (mv : Move) :
  env_move mv = true -> message_inv m -> message_inv (step m mv).
Proof.
  intros Hmv H.
  destruct mv as [ | | t a at_time | c code signal | c code msg | c line | c line ];
    cbn in Hmv; try discriminate; cbn [step].
  - unfold resume_task.
    destruct (find_pending t (pool m)) as [q|] eqn:Hfind; [ | exact H ].
    cbn zeta. destruct H as [Hm [Hpool | (p & Hpool & Hp)]].
    + rewrite Hpool in Hfind. discriminate.
    + rewrite Hpool in Hfind. apply find_single in Hfind. subst q.
      apply continue_message_inv; auto.
      unfold deliver. destruct (waits_on p); reflexivity.
  - destruct (spawned (sys m) c && negb (mem_nat c (exited (sys m)))); [ | exact H ].
    apply wake_waiters_message_inv.
    destruct (onExit_effect code signal (with_exited c (sys m))) as [Hnull Hlast].
    apply with_sys_message_inv; [ | left; exact Hnull | exact H ].
    rewrite Hlast. apply H.
  - destruct (spawn_failed (sys m) c && negb (mem_nat c (errored (sys m)))); [ | exact H ].
    apply wake_waiters_message_inv.
    destruct (onError_effect code msg (with_errored c (sys m))) as [Hnull Hlast].
    apply with_sys_message_inv; [ exact Hlast | left; exact Hnull | exact H ].
  - destruct (spawned (sys m) c); [ | exact H ].
    apply with_sys_message_inv; [ apply H | right; reflexivity | exact H ].
  - destruct (spawned (sys m) c); [ | exact H ].
    apply with_sys_message_inv; [ apply H | right; reflexivity | exact H ].
Qed.

(** X1. When [start()] is the only call, the message for the timeout is
    never recorded, whatever the environment does: not when the probe fails
    for the whole timeout, and not otherwise. *)
Theorem timeout_message_unreachable (s : Sys) (moves : list Move) :
  lastError (this s) <> Some timeout_message ->
  forallb env_move moves = true ->
  lastError (this (sys (run (call start_call (idle s)) moves))) <> Some timeout_message.
Proof.
  intros Hm Hmoves.
  assert (H : forall mvs m,
             forallb env_move mvs = true -> message_inv m -> message_inv (run m mvs)).
  { induction mvs as [|mv mvs IH]; intros m Hmvs Hinv; cbn; [ exact Hinv | ].
    cbn in Hmvs. apply andb_true_iff in Hmvs. destruct Hmvs as [Hmv Hmvs].
    apply IH; [ exact Hmvs | ]. apply step_message_inv; assumption. }
  apply (H moves (call start_call (idle s)) Hmoves).
  unfold call. cbn [idle sys pool settled calls].
  assert (Hnone : null_if false (this s)) by (intros E; discriminate E).
  destruct (run_sync_triple start_call (fun _ _ => True) false s
              (start_call_triple false) Hnone Hm) as [Hm' Hb].
  apply settle_message_inv; assumption.
Qed.

(** The run of C5 is such a run. *)
Lemma timeout_message_unreachable_witness :
  lastError (this (sys (run (call start_call (idle (demo_sys posix)))
                            (tl never_ready_moves))))
  <> Some timeout_message.
Proof.
  apply (timeout_message_unreachable (demo_sys posix) (tl never_ready_moves));
    [ discriminate | reflexivity ].
Defined.

(** ** A call of [stop()] during [start()] *)


End SupervisorProofs.

Module SessionUrlProofs.
Import Client ClientProofs.

(** ** Base URLs *)

Lemma normalizeBaseUrl_slashes (n : nat) : normalizeBaseUrl (slashes n) = EmptyString.
Proof. induction n as [|n IH]; cbn; [ reflexivity | rewrite IH; reflexivity ]. Qed.

Lemma normalizeBaseUrl_keeps (v : string) (n : nat) :
  ends_with_slash v = false -> normalizeBaseUrl (v ++ slashes n) = v.
Proof.
  induction v as [|c v IH]; intros H.
  - apply normalizeBaseUrl_slashes.
  - cbn [append normalizeBaseUrl].
    destruct v as [|d v].
    + cbn in H. cbn [append]. rewrite normalizeBaseUrl_slashes, H. reflexivity.
    + rewrite IH by exact H. rewrite andb_false_r. reflexivity.
Qed.

Lemma normalizeBaseUrl_no_slash (u : string) :
  ends_with_slash (normalizeBaseUrl u) = false.
Proof.
  induction u as [|c u IH]; cbn; [ reflexivity | ].
  destruct (normalizeBaseUrl u) as [|d r] eqn:E.
  - rewrite andb_true_r. destruct (is_slash c) eqn:Hc; cbn; [ reflexivity | exact Hc ].
  - rewrite andb_false_r. exact IH.
Qed.

Lemma is_slash_eq (c : ascii) : is_slash c = true -> c = "/"%char.
Proof. unfold is_slash. apply Ascii.eqb_eq. Qed.

Lemma normalizeBaseUrl_split (u : string) :
  exists n, u = normalizeBaseUrl u ++ slashes n.
Proof.
  induction u as [|c u [n IH]]; cbn.
  - exists 0. reflexivity.
  - destruct (normalizeBaseUrl u) as [|d r] eqn:E.
    + rewrite andb_true_r. destruct (is_slash c) eqn:Hc.
      * exists (S n). cbn. rewrite (is_slash_eq c Hc). cbn in IH. rewrite <- IH. reflexivity.
      * exists n. cbn. cbn in IH. rewrite <- IH. reflexivity.
    + rewrite andb_false_r. exists n. cbn [append]. f_equal. exact IH.
Qed.

(** [normalizeBaseUrl] removes the slashes at the end of the URL and nothing
    else: every URL is its normal form followed by slashes only, the normal
    form does not end with a slash, and a string that does not end with a
    slash is the normal form of itself followed by any number of slashes.
    Normalizing twice is normalizing once. *)
Theorem normalizeBaseUrl_trailing_slashes :
  (forall u, ends_with_slash (normalizeBaseUrl u) = false
             /\ exists n, u = normalizeBaseUrl u ++ slashes n)
  /\ (forall v n, ends_with_slash v = false -> normalizeBaseUrl (v ++ slashes n) = v)
  /\ (forall u, normalizeBaseUrl (normalizeBaseUrl u) = normalizeBaseUrl u).
Proof.
  split; [ | split ].
  - intros u. split; [ apply normalizeBaseUrl_no_slash | apply normalizeBaseUrl_split ].
  - apply normalizeBaseUrl_keeps.
  - intros u.
    pose proof (normalizeBaseUrl_keeps (normalizeBaseUrl u) 0 (normalizeBaseUrl_no_slash u)) as H.
    cbn [slashes] in H.
    replace (normalizeBaseUrl u ++ "") with (normalizeBaseUrl u) in H; [ exact H | ].
    clear H. induction (normalizeBaseUrl u) as [|c r IH]; cbn; [ reflexivity | rewrite <- IH; reflexivity ].
Qed.


(** ** Session ids read from URLs *)

Lemma strip_prefix_eq (p s a : string) : strip_prefix p s = Some a -> s = p ++ a.
Proof.
  revert s. induction p as [|x p IH]; intros s H; cbn in *.
  - injection H as <-. reflexivity.
  - destruct s as [|y s]; [ discriminate | ].
    destruct (Ascii.eqb x y) eqn:E; [ | discriminate ].
    apply Ascii.eqb_eq in E. subst y. rewrite (IH s H). reflexivity.
Qed.

Lemma strip_prefix_self (p a : string) : strip_prefix p (p ++ a) = Some a.
Proof.
  induction p as [|x p IH]; cbn; [ reflexivity | ].
  rewrite Ascii.eqb_refl. exact IH.
Qed.

Lemma take_segment_only (s : string) : segment_only (take_segment s) = true.
Proof.
  induction s as [|c s IH]; cbn; [ reflexivity | ].
  destruct (segment_char c) eqn:E; cbn; [ rewrite E; exact IH | reflexivity ].
Qed.

Lemma take_segment_split (s : string) :
  exists rest, s = take_segment s ++ rest /\ ends_segment rest = true.
Proof.
  induction s as [|c s [rest [IH Hrest]]]; cbn.
  - exists EmptyString. split; reflexivity.
  - destruct (segment_char c) eqn:E.
    + exists rest. split; [ cbn; f_equal; exact IH | exact Hrest ].
    + exists (String c s). split; [ reflexivity | cbn; rewrite E; reflexivity ].
Qed.

Lemma take_segment_stop (id rest : string) :
  segment_only id = true -> ends_segment rest = true -> take_segment (id ++ rest) = id.
Proof.
  intros Hid Hrest. induction id as [|c id IH]; cbn in *.
  - destruct rest as [|d rest]; cbn in *; [ reflexivity | ].
    apply negb_true_iff in Hrest. rewrite Hrest. reflexivity.
  - apply andb_true_iff in Hid. destruct Hid as [Hc Hid].
    rewrite Hc, (IH Hid). reflexivity.
Qed.

(** What the scan returns is a non-empty run of segment characters that
    follows "/session/" in the URL and ends where the URL or the segment
    ends. *)
Lemma match_session_sound (s id : string) :
  match_session s = Some id ->
  id <> EmptyString
  /\ segment_only id = true
  /\ exists pre rest, s = pre ++ "/session/" ++ id ++ rest /\ ends_segment rest = true.
Proof.
  induction s as [|c s IH]; intros H.
  - cbn in H. discriminate.
  - rewrite match_session_step in H.
    assert (Hrest : match_session s = Some id ->
              id <> EmptyString /\ segment_only id = true
              /\ exists pre rest, String c s = pre ++ "/session/" ++ id ++ rest
                                  /\ ends_segment rest = true).
    { intros H'. destruct (IH H') as [Hne [Hseg [pre [rest [E Hr]]]]].
      split; [ exact Hne | split; [ exact Hseg | ] ].
      exists (String c pre), rest. split; [ cbn; f_equal; exact E | exact Hr ]. }
    destruct (strip_prefix "/session/" (String c s)) as [after|] eqn:Hstrip;
      [ | exact (Hrest H) ].
    destruct (take_segment after) as [|d seg] eqn:Htake; [ exact (Hrest H) | ].
    injection H as <-.
    split; [ discriminate | ].
    split; [ rewrite <- Htake; apply take_segment_only | ].
    destruct (take_segment_split after) as [rest [E Hr]].
    exists EmptyString, rest. split; [ | exact Hr ].
    rewrite (strip_prefix_eq _ _ _ Hstrip). rewrite Htake in E. rewrite E. reflexivity.
Qed.

(** When the base followed by "/session/" holds no match, the first match
    in a longer URL is the one after the base. *)
Lemma match_session_after_base (base t : string) :
  match_session (base ++ "/session/") = None ->
  match_session (base ++ "/session/" ++ t) = match_session ("/session/" ++ t).
Proof.
  induction base as [|c r IH]; intros Hnone; [ reflexivity | ].
  rewrite match_session_step in Hnone.
  rewrite match_session_step.
  replace (String c r ++ "/session/" ++ t) with ((String c r ++ "/session/") ++ t)
    by apply append_assoc.
  destruct (strip_prefix "/session/" (String c r ++ "/session/")) as [after|] eqn:Hstrip.
  - rewrite (strip_prefix_app _ _ t _ Hstrip).
    pose proof (strip_prefix_length _ _ _ Hstrip) as Hlen.
    rewrite length_append in Hlen. cbn [String.length] in Hlen.
    assert (Hafter : after <> EmptyString).
    { intros ->. cbn [String.length] in Hlen. lia. }
    destruct (take_segment after) eqn:Htake.
    + rewrite (take_segment_app_empty after t Hafter Htake).
      cbn [append] in *. rewrite append_assoc. apply IH. exact Hnone.
    + discriminate.
  - rewrite (strip_prefix_app_none _ _ t); [ | | exact Hstrip ].
    + cbn [append] in *. rewrite append_assoc. apply IH. exact Hnone.
    + rewrite length_append. cbn [String.length]. lia.
Qed.

Lemma match_session_here (id rest : string) :
  id <> EmptyString -> segment_only id = true -> ends_segment rest = true ->
  match_session ("/session/" ++ id ++ rest) = Some id.
Proof.
  intros Hne Hseg Hrest. rewrite match_session_step.
  rewrite (strip_prefix_self "/session/" (id ++ rest)).
  rewrite (take_segment_stop id rest Hseg Hrest).
  destruct id; [ congruence | reflexivity ].
Qed.

(** Whatever follows the session segment of a session URL (a further path,
    a query, a fragment) does not change the id that is read back. *)
Theorem resolveSessionId_ignores_rest (c : OpenCodeClient) (id rest : string) :
  id <> EmptyString ->
  segment_only id = true ->
  ends_segment rest = true ->
  resolveSessionId c (getSessionUrl c EmptyString) = None ->
  resolveSessionId c (getSessionUrl c id ++ rest) = Some id.
Proof.
  unfold resolveSessionId, getSessionUrl. intros Hne Hseg Hrest Hbase.
  rewrite !append_assoc.
  rewrite (match_session_after_base (uiBaseUrl c) (id ++ rest)).
  - apply match_session_here; assumption.
  - exact Hbase.
Qed.

Lemma resolveSessionId_ignores_rest_witness :
  resolveSessionId demo_client (getSessionUrl demo_client "ses_4f2a" ++ "/share?tab=1#top")
  = Some "ses_4f2a".
Proof.
  apply (resolveSessionId_ignores_rest demo_client "ses_4f2a" "/share?tab=1#top");
    [ discriminate | reflexivity | reflexivity | reflexivity ].
Defined.

(** An id that [resolveSessionId] reads from any URL is never empty and
    holds no slash, question mark or hash; the URL holds "/session/"
    followed by it; and it is an id for which the session URL round trip
    holds. *)
Theorem resolveSessionId_wellformed (c : OpenCodeClient) (iframeUrl id : string) :
  resolveSessionId c iframeUrl = Some id ->
  id <> EmptyString
  /\ segment_only id = true
  /\ (exists pre rest, iframeUrl = pre ++ "/session/" ++ id ++ rest
                       /\ ends_segment rest = true)
  /\ (resolveSessionId c (getSessionUrl c EmptyString) = None ->
      resolveSessionId c (getSessionUrl c id) = Some id).
Proof.
  unfold resolveSessionId, getSessionUrl. intros H.
  destruct (match_session_sound iframeUrl id H) as [Hne [Hseg Hex]].
  split; [ exact Hne | split; [ exact Hseg | split; [ exact Hex | ] ] ].
  intros Hbase. apply match_session_append; assumption.
Qed.

Lemma resolveSessionId_wellformed_witness :
  "ses_9" <> EmptyString
  /\ segment_only "ses_9" = true
  /\ (exists pre rest, "http://127.0.0.1:4096/L3ZhdWx0/session/ses_9?x=1"
                       = pre ++ "/session/" ++ "ses_9" ++ rest
                       /\ ends_segment rest = true)
  /\ (resolveSessionId demo_client (getSessionUrl demo_client EmptyString) = None ->
      resolveSessionId demo_client (getSessionUrl demo_client "ses_9") = Some "ses_9").
Proof.
  apply (resolveSessionId_wellformed demo_client
           "http://127.0.0.1:4096/L3ZhdWx0/session/ses_9?x=1" "ses_9").
  reflexivity.
Defined.

End SessionUrlProofs.

Module ContextUpdateProofs.
Import Client ClientProofs.

Lemma POST_message_with_lastPart (c : OpenCodeClient) (p : option OpenCodePart)
    (sid ctx : string) :
  POST_message (with_lastPart c p) sid ctx = POST_message c sid ctx.
Proof. reflexivity. Qed.

(** Text to send, a part tracked, and the server refuses the update: the
    old part is marked ignored (as far as the server lets it) and a new
    message is created. *)
Lemma updateContext_fallback (srv : Server) (sid ctx : string) (w : World)
    (part : OpenCodePart) :
  truthy_string ctx = true ->
  lastPart (adopt (this w) sid) = Some part ->
  let log1 := (sent w ++ [PATCH_part (this w) part (set_text ctx)])%list in
  unwrap (response_json (partApi srv log1)) = None ->
  let log2 := (log1 ++ [PATCH_part (this w) part set_ignored])%list in
  let log3 := (log2 ++ [POST_message (this w) sid ctx])%list in
  let c1 := match unwrap (response_json (partApi srv log2)) with
            | Some _ => with_lastPart (adopt (this w) sid) None
            | None => adopt (this w) sid
            end in
  exists con,
    updateContext srv sid (Some ctx) w =
      (tt, {| this :=
                match unwrap (response_json (messageApi srv log3)) with
                | Some m =>
                    if truthy_string (info_id (info m))
                    then with_lastPart c1 (hd_error (parts m))
                    else c1
                | None => c1
                end;
              sent := log3;
              console := con |}).
Proof.
  intros Hctx Hpart log1 Hfail log2 log3 c1. enter_updateContext.
  rewrite Hctx; cbn [negb].
  rewrite bind_unfold; cbn [get_this fst snd].
  cbn [adopted this]. rewrite Hpart.
  destruct (updatePart_spec srv part (set_text ctx) (adopted w sid)) as [con1 Hupd].
  cbn [adopted this sent] in Hupd. rewrite PATCH_part_adopt in Hupd.
  fold log1 in Hupd. rewrite Hfail in Hupd.
  rewrite bind_unfold. rewrite bind_unfold. fold (adopted w sid). fold (set_text ctx).
  rewrite Hupd. cbn [fst snd].
  rewrite bind_unfold.
  match goal with
  | |- context [ignorePreviousPart srv ?w1] =>
      destruct (ignorePreviousPart_some srv w1 part Hpart) as [con2 Hign]
  end.
  cbn [this sent] in Hign. rewrite PATCH_part_adopt in Hign. fold log2 in Hign.
  rewrite Hign.
  assert (E : snd match unwrap (response_json (partApi srv log2)) with
                  | Some _ =>
                      (true, {| this := with_lastPart (adopt (this w) sid) None;
                                sent := log2; console := con2 |})
                  | None =>
                      (false, {| this := adopt (this w) sid; sent := log2; console := con2 |})
                  end
              = {| this := c1; sent := log2; console := con2 |}).
  { subst c1. destruct (unwrap (response_json (partApi srv log2))); reflexivity. }
  cbn [ret fst snd negb]. rewrite E.
  destruct (sendPrompt_spec srv sid ctx {| this := c1; sent := log2; console := con2 |})
    as [con3 Hsend].
  cbn [this sent] in Hsend.
  assert (Epost : POST_message c1 sid ctx = POST_message (this w) sid ctx).
  { subst c1. destruct (unwrap (response_json (partApi srv log2)));
      rewrite ?POST_message_with_lastPart; apply POST_message_adopt. }
  rewrite Epost in Hsend. fold log3 in Hsend.
  rewrite bind_unfold. rewrite Hsend. cbn [fst snd].
  exists con3.
  destruct (unwrap (response_json (messageApi srv log3))) as [m|];
    [ destruct (truthy_string (info_id (info m))) | ]; reflexivity.
Qed.

Lemma truthy_string_false (s : string) : truthy_string s = false -> s = EmptyString.
Proof.
  unfold truthy_string. intros H. apply negb_false_iff in H. apply String.eqb_eq in H. exact H.
Qed.

Lemma updateContext_shape (srv : Server) (sid : string) (ctx : option string) (w : World) :
  exists l c' con,
    updateContext srv sid ctx w
    = (tt, {| this := c'; sent := (sent w ++ l)%list; console := con |})
    /\ call_shape (this w) sid ctx l.
Proof.
  destruct (truthy_opt_string ctx) eqn:Hctx.
  - destruct ctx as [t|]; [ | discriminate ]. cbn in Hctx.
    destruct (lastPart (adopt (this w) sid)) as [part|] eqn:Hpart.
    + destruct (unwrap (response_json
                  (partApi srv (sent w ++ [PATCH_part (this w) part (set_text t)])%list)))
        as [u|] eqn:Hpatch.
      * destruct (updateContext_update srv sid t w part u Hctx Hpart Hpatch) as [con H].
        eexists _, _, con. split; [ exact H | ].
        apply (shape_update _ _ _ t part); [ reflexivity | exact Hctx ].
      * destruct (updateContext_fallback srv sid t w part Hctx Hpart Hpatch) as [con H].
        eexists [_; _; _], _, con. split.
        -- rewrite H. rewrite <- !app_assoc. reflexivity.
        -- apply (shape_replace _ _ _ t part); [ reflexivity | exact Hctx ].
    + destruct (updateContext_fresh srv sid t w Hctx Hpart) as [con H].
      eexists _, _, con. split; [ exact H | ].
      apply (shape_create _ _ _ t); [ reflexivity | exact Hctx ].
  - rewrite (updateContext_falsy srv sid ctx w Hctx).
    destruct (lastPart (adopt (this w) sid)) as [part|] eqn:Hpart.
    + destruct (ignorePreviousPart_some srv (adopted w sid) part Hpart) as [con H].
      cbn [adopted this sent] in H. rewrite PATCH_part_adopt in H. rewrite H.
      exists [PATCH_part (this w) part set_ignored].
      destruct (unwrap _); eexists _, con; (split; [ reflexivity | ]);
        apply shape_ignore; exact Hctx.
    + rewrite (ignorePreviousPart_none srv (adopted w sid) Hpart).
      exists [], (adopt (this w) sid), (console w). split.
      * rewrite app_nil_r. reflexivity.
      * apply shape_nothing. exact Hctx.
Qed.

Lemma call_shape_bounds (c : OpenCodeClient) (sid : string) (ctx : option string)
    (l : list Request) :
  call_shape c sid ctx l ->
  length l <= 3
  /\ count_method "POST" l <= 1
  /\ count_method "PATCH" l <= 2
  /\ count_method "POST" l + count_method "PATCH" l = length l
  /\ (forall r, In r l -> method r = "POST" ->
                url r = apiBaseUrl c ++ "/session/" ++ sid ++ "/message")
  /\ (truthy_opt_string ctx = false -> length l <= 1 /\ count_method "POST" l = 0).
Proof.
  intros Hshape.
  destruct Hshape as [Hc | part Hc | t -> Ht | t part -> Ht | t part -> Ht];
    cbn [length count_method filter method POST_message PATCH_part String.eqb Ascii.eqb
         Bool.eqb];
    repeat split; try lia; try discriminate;
    try (intros r Hin Hm; cbn [In] in Hin;
         repeat match goal with
                | Hx : _ \/ _ |- _ => destruct Hx as [Hx | Hx]
                end; subst; try contradiction; try discriminate; reflexivity);
    try (match goal with
         | Hf : truthy_opt_string (Some _) = false |- _ =>
             cbn in Hf; rewrite Ht in Hf; discriminate
         end).
Qed.

(** One call of [updateContext] sends at most three requests, of which at
    most one creates a message and at most two update a part; every request
    is one of these two kinds, and a message is only ever created in the
    session given to the call.  With an empty or absent text it sends at
    most one request and creates no message. *)
Theorem updateContext_request_bound (srv : Server) (w : World) (sid : string)
    (ctx : option string) :
  let sent_now := issued_by w (snd (updateContext srv sid ctx w)) in
  length sent_now <= 3
  /\ count_method "POST" sent_now <= 1
  /\ count_method "PATCH" sent_now <= 2
  /\ count_method "POST" sent_now + count_method "PATCH" sent_now = length sent_now
  /\ (forall r, In r sent_now -> method r = "POST" ->
                url r = apiBaseUrl (this w) ++ "/session/" ++ sid ++ "/message")
  /\ (truthy_opt_string ctx = false ->
      length sent_now <= 1 /\ count_method "POST" sent_now = 0).
Proof.
  destruct (updateContext_shape srv sid ctx w) as [l [c' [con [H Hshape]]]].
  rewrite H. cbn [snd]. rewrite issued_by_app. cbv zeta.
  apply call_shape_bounds. exact Hshape.
Qed.

(** A tracked part whose update the server refuses is given up: after the
    refused update the client asks the server to mark the old part ignored
    and creates a new message in the same call.  The part tracked
    afterwards is the first part of the new message when the server returns
    one with an id; otherwise it is nothing, if the old part was marked
    ignored, and still the old part, if that was refused too. *)
Theorem updateContext_replaces_refused_part (srv : Server) (w : World) (sid t : string)
    (part : OpenCodePart) :
  t <> EmptyString ->
  trackedSessionId (this w) = Some sid ->
  lastPart (this w) = Some part ->
  unwrap (response_json
            (partApi srv (sent w ++ [PATCH_part (this w) part (set_text t)])%list)) = None ->
  let w' := snd (updateContext srv sid (Some t) w) in
  let requests := [PATCH_part (this w) part (set_text t);
                   PATCH_part (this w) part set_ignored;
                   POST_message (this w) sid t] in
  let kept := match unwrap (response_json (partApi srv (sent w ++ firstn 2 requests)%list)) with
              | Some _ => None
              | None => Some part
              end in
  issued_by w w' = requests
  /\ trackedSessionId (this w') = Some sid
  /\ lastPart (this w')
     = match unwrap (response_json (messageApi srv (sent w ++ requests)%list)) with
       | Some m => if truthy_string (info_id (info m)) then hd_error (parts m) else kept
       | None => kept
       end.
Proof.
  intros Ht Htracked Hpart Hfail w' requests kept.
  assert (Hadopt : lastPart (adopt (this w) sid) = Some part).
  { rewrite (adopt_lastPart_same _ _ Htracked). exact Hpart. }
  destruct (updateContext_fallback srv sid t w part (truthy_string_true t Ht) Hadopt Hfail)
    as [con H].
  subst w'. rewrite H. cbn [snd]. rewrite <- !app_assoc. cbn [app].
  split; [ apply issued_by_app | ].
  cbn [this]. subst kept requests. cbn [firstn].
  replace ((sent w ++ [PATCH_part (this w) part (set_text t)]) ++
           [PATCH_part (this w) part set_ignored])%list
    with (sent w ++ [PATCH_part (this w) part (set_text t);
                     PATCH_part (this w) part set_ignored])%list
    by (rewrite <- app_assoc; reflexivity).
  replace (((sent w ++ [PATCH_part (this w) part (set_text t)]) ++
            [PATCH_part (this w) part set_ignored]) ++ [POST_message (this w) sid t])%list
    with (sent w ++ [PATCH_part (this w) part (set_text t);
                     PATCH_part (this w) part set_ignored;
                     POST_message (this w) sid t])%list
    by (rewrite <- !app_assoc; reflexivity).
  set (a2 := unwrap (response_json
                      (partApi srv (sent w ++ [PATCH_part (this w) part (set_text t);
                                               PATCH_part (this w) part set_ignored])%list))).
  set (a3 := unwrap (response_json
                      (messageApi srv (sent w ++ [PATCH_part (this w) part (set_text t);
                                                  PATCH_part (this w) part set_ignored;
                                                  POST_message (this w) sid t])%list))).
  destruct a3 as [m|]; [ destruct (truthy_string (info_id (info m))) | ];
    destruct a2; cbn;
    (split; [ reflexivity | ]); try reflexivity; exact Hadopt.
Qed.

Lemma updateContext_replaces_refused_part_witness :
  let w := snd (updateContext echo_server "ses_1" (Some "A") (fresh_world demo_client)) in
  let w' := snd (updateContext refusing_server "ses_1" (Some "B") w) in
  issued_by w w'
  = [PATCH_part (this w) (demo_part "ses_1" "A") (set_text "B");
     PATCH_part (this w) (demo_part "ses_1" "A") set_ignored;
     POST_message (this w) "ses_1" "B"]
  /\ trackedSessionId (this w') = Some "ses_1"
  /\ lastPart (this w') = Some (demo_part "ses_1" "B").
Proof.
  apply (updateContext_replaces_refused_part refusing_server
           (snd (updateContext echo_server "ses_1" (Some "A") (fresh_world demo_client)))
           "ses_1" "B" (demo_part "ses_1" "A"));
    [ discriminate | reflexivity | reflexivity | reflexivity ].
Defined.

(** Against a server that cannot be reached, or that refuses everything,
    nothing is learnt and nothing is forgotten: [createSession] returns
    null and leaves the client as it is, and [updateContext] does nothing
    to the client beyond its first two statements; in particular a part
    tracked for the session of the call stays tracked. *)
Theorem unreachable_server_keeps_tracking (srv : Server) (w : World) :
  unreachable srv ->
  fst (createSession srv w) = None
  /\ this (snd (createSession srv w)) = this w
  /\ (forall sid ctx, this (snd (updateContext srv sid ctx w)) = adopt (this w) sid)
  /\ (forall sid ctx,
         trackedSessionId (this w) = Some sid ->
         lastPart (this (snd (updateContext srv sid ctx w))) = lastPart (this w)).
Proof.
  intros [Hs [Hm Hp]].
  assert (Hupd : forall sid ctx, this (snd (updateContext srv sid ctx w)) = adopt (this w) sid).
  { intros sid ctx. destruct (truthy_opt_string ctx) eqn:Hctx.
    - destruct ctx as [t|]; [ | discriminate ]. cbn in Hctx.
      destruct (lastPart (adopt (this w) sid)) as [part|] eqn:Hpart.
      + assert (Hfail : unwrap (response_json
                          (partApi srv (sent w ++ [PATCH_part (this w) part (set_text t)])%list))
                        = None) by (rewrite Hp; reflexivity).
        destruct (updateContext_fallback srv sid t w part Hctx Hpart Hfail) as [con H].
        rewrite H. cbn [snd this]. rewrite Hm, Hp. reflexivity.
      + destruct (updateContext_fresh srv sid t w Hctx Hpart) as [con H].
        rewrite H. cbn [snd this]. rewrite Hm. reflexivity.
    - rewrite (updateContext_falsy srv sid ctx w Hctx). cbn [snd].
      destruct (lastPart (adopt (this w) sid)) as [part|] eqn:Hpart.
      + destruct (ignorePreviousPart_some srv (adopted w sid) part Hpart) as [con H].
        rewrite H, Hp. reflexivity.
      + rewrite (ignorePreviousPart_none srv (adopted w sid) Hpart). reflexivity. }
  split; [ | split; [ apply createSession_this | split; [ exact Hupd | ] ] ].
  - unfold createSession. rewrite bind_unfold.
    destruct (request_spec (sessionApi srv) "POST" "/session" (SessionBody "Obsidian") w)
      as [con H].
    rewrite H. cbn [fst snd]. rewrite Hs. reflexivity.
  - intros sid ctx Htracked. rewrite Hupd. apply adopt_lastPart_same. exact Htracked.
Qed.

Lemma unreachable_server_keeps_tracking_witness :
  let w := snd (updateContext echo_server "ses_1" (Some "A") (fresh_world demo_client)) in
  fst (createSession dead_server w) = None
  /\ this (snd (createSession dead_server w)) = this w
  /\ (forall sid ctx, this (snd (updateContext dead_server sid ctx w)) = adopt (this w) sid)
  /\ (forall sid ctx,
         trackedSessionId (this w) = Some sid ->
         lastPart (this (snd (updateContext dead_server sid ctx w))) = lastPart (this w)).
Proof.
  apply (unreachable_server_keeps_tracking dead_server
           (snd (updateContext echo_server "ses_1" (Some "A") (fresh_world demo_client)))).
  split; [ | split ]; intros log; reflexivity.
Defined.

(** ** Any number of updates *)

Lemma count_method_app (m : string) (l l' : list Request) :
  count_method m (l ++ l') = count_method m l + count_method m l'.
Proof. unfold count_method. rewrite filter_app, length_app. reflexivity. Qed.

(** With a part tracked for the session, every further text is one PATCH. *)
Lemma updateContexts_tracked (srv : Server) (sid : string) (texts : list string) :
  accepting srv ->
  Forall (fun x => x <> EmptyString) texts ->
  forall (w : World) (part : OpenCodePart),
    trackedSessionId (this w) = Some sid ->
    lastPart (this w) = Some part ->
    exists l c' con part',
      updateContexts srv sid texts w
      = (tt, {| this := c'; sent := (sent w ++ l)%list; console := con |})
      /\ length l = length texts
      /\ count_method "POST" l = 0
      /\ count_method "PATCH" l = length texts
      /\ trackedSessionId c' = Some sid
      /\ lastPart c' = Some part'.
Proof.
  intros [_ Hacc] Hall. induction Hall as [|t texts Ht Hall IH]; intros w part Htr Hpart.
  - exists [], (this w), (console w), part. cbn [updateContexts ret].
    rewrite app_nil_r. destruct w; repeat split; assumption.
  - cbn [updateContexts]. rewrite bind_unfold.
    assert (Hadopt : lastPart (adopt (this w) sid) = Some part).
    { rewrite (adopt_lastPart_same _ _ Htr). exact Hpart. }
    destruct (Hacc (sent w) (this w) part (set_text t)) as [u Hu].
    destruct (updateContext_update srv sid t w part u (truthy_string_true t Ht) Hadopt Hu)
      as [con H].
    rewrite H. cbn [fst snd].
    match goal with
    | |- context [updateContexts srv sid texts ?w1] =>
        destruct (IH w1 u eq_refl eq_refl) as [l [c' [con' [part' [E [Hlen [Hpost [Hpatch [Htr' Hp']]]]]]]]]
    end.
    cbn [sent] in E. rewrite E.
    exists (PATCH_part (this w) part (set_text t) :: l), c', con', part'.
    split; [ rewrite <- app_assoc; reflexivity | ].
    change (PATCH_part (this w) part (set_text t) :: l)
      with ([PATCH_part (this w) part (set_text t)] ++ l)%list.
    rewrite !count_method_app, length_app, Hlen, Hpost, Hpatch.
    repeat split; try reflexivity; assumption.
Qed.

(** The context message is updated in place, however often the context
    changes: on a client that tracks no part, against a server that accepts
    what it is sent, any number of calls of [updateContext] for one session
    with non-empty texts creates exactly one message, with the first call,
    and sends one PATCH for each later call. *)
Theorem updateContexts_in_place (srv : Server) (w : World) (sid t : string)
    (texts : list string) :
  accepting srv ->
  lastPart (this w) = None ->
  t <> EmptyString ->
  Forall (fun x => x <> EmptyString) texts ->
  let w' := snd (updateContexts srv sid (t :: texts) w) in
  count_method "POST" (issued_by w w') = 1
  /\ count_method "PATCH" (issued_by w w') = length texts
  /\ length (issued_by w w') = S (length texts)
  /\ hd_error (issued_by w w') = Some (POST_message (this w) sid t)
  /\ trackedSessionId (this w') = Some sid
  /\ lastPart (this w') <> None.
Proof.
  intros Hacc Hnone Ht Hall w'. subst w'.
  cbn [updateContexts]. rewrite bind_unfold.
  destruct (updateContext_fresh srv sid t w (truthy_string_true t Ht)
              (adopt_lastPart_none _ sid Hnone)) as [con H].
  destruct (proj1 Hacc (sent w) (this w) sid t) as [m [p [ps [Hm [Hid Hparts]]]]].
  rewrite Hm, (truthy_string_true _ Hid), Hparts in H. cbn [hd_error] in H.
  rewrite H. cbn [fst snd].
  match goal with
  | |- context [updateContexts srv sid texts ?w1] =>
      destruct (updateContexts_tracked srv sid texts Hacc Hall w1 p eq_refl eq_refl)
        as [l [c' [con' [part' [E [Hlen [Hpost [Hpatch [Htr' Hp']]]]]]]]]
  end.
  cbn [sent] in E. rewrite E. cbn [snd this]. rewrite <- app_assoc. rewrite issued_by_app.
  cbn [app hd_error length].
  change (POST_message (this w) sid t :: l) with ([POST_message (this w) sid t] ++ l)%list.
  rewrite !count_method_app, Hlen, Hpost, Hpatch, Hp'.
  repeat split; try reflexivity; try assumption. discriminate.
Qed.

Lemma echo_server_accepting : accepting echo_server.
Proof.
  split.
  - intros log c sid t. cbn [echo_server messageApi]. rewrite last_last.
    cbn [POST_message body]. eexists _, _, _. cbn [response_json unwrap].
    split; [ reflexivity | split; [ | reflexivity ] ]. discriminate.
  - intros log c part upd. cbn [echo_server partApi]. rewrite last_last.
    cbn [PATCH_part body]. eexists. reflexivity.
Qed.

Lemma updateContexts_in_place_witness :
  let w := fresh_world demo_client in
  let w' := snd (updateContexts echo_server "ses_1" ["A"; "B"; "C"; "D"] w) in
  count_method "POST" (issued_by w w') = 1
  /\ count_method "PATCH" (issued_by w w') = 3
  /\ length (issued_by w w') = 4
  /\ hd_error (issued_by w w') = Some (POST_message (this w) "ses_1" "A")
  /\ trackedSessionId (this w') = Some "ses_1"
  /\ lastPart (this w') <> None.
Proof.
  apply (updateContexts_in_place echo_server (fresh_world demo_client) "ses_1" "A"
           ["B"; "C"; "D"] echo_server_accepting);
    [ reflexivity | discriminate | repeat constructor; discriminate ].
Defined.

End ContextUpdateProofs.

Module Base64Proofs.
Import Base64.

Lemma code_bounds (c : ascii) : (0 <= code c < 256)%Z.
Proof.
  unfold code. pose proof (N_ascii_bounded c) as H. lia.
Qed.

Lemma char_of_code (c : ascii) : char_of (code c) = c.
Proof. unfold char_of, code. rewrite N2Z.id. apply ascii_N_embedding. Qed.

Lemma char_of_eq (c : ascii) (v : Z) : v = code c -> char_of v = c.
Proof. intros ->. apply char_of_code. Qed.

Lemma sextet_In (v : Z) : (0 <= v < 64)%Z -> In v sextets.
Proof.
  intros H. unfold sextets. apply in_map_iff. exists (Z.to_nat v).
  split; [ lia | apply in_seq; lia ].
Qed.

Lemma value_digit (v : Z) : (0 <= v < 64)%Z -> value (digit v) = Some v.
Proof.
  intros H.
  assert (Hall : forallb (fun v => match value (digit v) with
                                   | Some v' => (v' =? v)%Z
                                   | None => false
                                   end) sextets = true) by (vm_compute; reflexivity).
  pose proof (proj1 (forallb_forall _ _) Hall v (sextet_In v H)) as Hv. cbv beta in Hv.
  destruct (value (digit v)) as [v'|]; [ | discriminate ].
  apply Z.eqb_eq in Hv. congruence.
Qed.

Lemma digit_not_pad (v : Z) : (0 <= v < 64)%Z -> Ascii.eqb (digit v) pad = false.
Proof.
  intros H.
  assert (Hall : forallb (fun v => negb (Ascii.eqb (digit v) pad)) sextets = true)
    by (vm_compute; reflexivity).
  pose proof (proj1 (forallb_forall _ _) Hall v (sextet_In v H)) as Hv. cbv beta in Hv.
  apply negb_true_iff. exact Hv.
Qed.

Ltac sextet :=
  match goal with
  | |- (0 <= _ < 64)%Z => Z.div_mod_to_equations; lia
  end.

Lemma decode_btoa_le (n : nat) (s : string) :
  String.length s <= n -> decode (btoa s) = Some s.
Proof.
  revert s. induction n as [|n IH]; intros s Hlen.
  - destruct s; [ reflexivity | cbn in Hlen; lia ].
  - destruct s as [|a [|b [|c rest]]]; [ reflexivity | | | ].
    + pose proof (code_bounds a) as Ha.
      cbn [btoa decode].
      rewrite !value_digit by sextet. rewrite Ascii.eqb_refl. cbn.
      f_equal. f_equal. apply char_of_eq. Z.div_mod_to_equations; lia.
    + pose proof (code_bounds a) as Ha. pose proof (code_bounds b) as Hb.
      cbn [btoa decode].
      rewrite !value_digit by sextet.
      rewrite digit_not_pad by sextet. rewrite Ascii.eqb_refl. cbn [String.eqb].
      f_equal. f_equal; [ | f_equal ].
      * apply char_of_eq. Z.div_mod_to_equations; lia.
      * apply char_of_eq. Z.div_mod_to_equations; lia.
    + pose proof (code_bounds a) as Ha. pose proof (code_bounds b) as Hb.
      pose proof (code_bounds c) as Hc.
      cbn [btoa decode].
      rewrite !value_digit by sextet.
      rewrite !digit_not_pad by sextet.
      rewrite IH by (cbn in Hlen; lia).
      f_equal. f_equal; [ | f_equal; [ | f_equal ] ].
      * apply char_of_eq. Z.div_mod_to_equations; lia.
      * apply char_of_eq. Z.div_mod_to_equations; lia.
      * apply char_of_eq. Z.div_mod_to_equations; lia.
Qed.

Lemma decode_btoa (s : string) : decode (btoa s) = Some s.
Proof. apply (decode_btoa_le (String.length s)). lia. Qed.

Lemma btoa_injective (s t : string) : btoa s = btoa t -> s = t.
Proof.
  intros H. pose proof (decode_btoa s) as Hs. rewrite H, decode_btoa in Hs. congruence.
Qed.

End Base64Proofs.

Module SupervisorInvariants.
Import Supervisor SupervisorProofs.

#[local] Arguments string_of_Z : simpl never.

(** ** Programs that keep an invariant *)

Lemma sound_bind {A B : Type} (I : Sys -> Prop) (Q1 : A -> Sys -> Prop)
    (Q2 : B -> Sys -> Prop) (p : Prog A) (f : A -> Prog B) :
  forall s,
    sound I Q1 p s ->
    (forall a s', I s' -> Q1 a s' -> sound I Q2 (f a) s') ->
    sound I Q2 (bind p f) s.
Proof.
  induction p as [a | e | k IH | g k IH | e k IH | q k IH | ]; cbn; intros s Hp Hf.
  - destruct Hp as [Hi Hq]. apply Hf; assumption.
  - exact Hp.
  - apply IH; assumption.
  - apply IH; assumption.
  - apply IH; assumption.
  - destruct Hp as [Hi Hk]. split; [ exact Hi | ].
    intros a s' Hs'. apply IH; [ apply Hk; exact Hs' | exact Hf ].
  - exact Hp.
Qed.

Lemma run_sync_sound {A : Type} (I : Sys -> Prop) (Q : A -> Sys -> Prop) (p : Prog A) :
  forall s,
    sound I Q p s ->
    I (fst (run_sync p s)) /\ blocked_sound I Q (fst (run_sync p s)) (snd (run_sync p s)).
Proof.
  induction p as [a | e | k IH | g k IH | e k IH | q k IH | ]; cbn; intros s Hp.
  - exact Hp.
  - split; [ exact Hp | exact Logic.I ].
  - apply IH; exact Hp.
  - apply IH; exact Hp.
  - apply IH; exact Hp.
  - exact Hp.
  - split; [ exact Hp | exact Logic.I ].
Qed.

Section Sound.

Variable I : Sys -> Prop.
Variable Q : Value -> Sys -> Prop.

Hypothesis I_now : forall s t, I s -> I (with_now t s).
Hypothesis I_child : forall s c, I s -> I (with_child c s).
Hypothesis I_exited : forall s c, I s -> I (with_exited c s).
Hypothesis I_errored : forall s c, I s -> I (with_errored c s).
Hypothesis I_onExit : forall code signal s, I s -> sound I anything (onExit code signal) s.
Hypothesis I_onError : forall code msg s, I s -> sound I anything (onError code msg) s.
Hypothesis I_onStdout : forall line s, I s -> sound I anything (onStdout line) s.
Hypothesis I_onStderr : forall line s, I s -> sound I anything (onStderr line) s.
Hypothesis I_start : forall s, I s -> sound I Q start_call s.
Hypothesis I_stop : forall s, I s -> sound I Q stop_call s.

Lemma settle_sound (t : nat) (p : Prog Value) (s : Sys) (waiting : list Pending)
    (done : list (nat * Outcome)) (n : nat) :
  sound I Q p s ->
  Forall (pending_sound I Q) waiting ->
  sound_inv I Q (settle t (run_sync p s) waiting done n).
Proof.
  intros Hp Hw. destruct (run_sync_sound I Q p s Hp) as [Hi Hb].
  unfold settle. destruct (snd (run_sync p s)) as [v | e | q k | ]; cbn in *;
    split; cbn; try assumption.
  apply Forall_app. split; [ exact Hw | ].
  constructor; [ | constructor ]. intros a s' Hs'. cbn. apply Hb. exact Hs'.
Qed.

Lemma remove_pending_sound (t : nat) (l : list Pending) :
  Forall (pending_sound I Q) l -> Forall (pending_sound I Q) (remove_pending t l).
Proof.
  intros H. unfold remove_pending. apply Forall_forall. intros p Hp.
  apply filter_In in Hp. destruct Hp as [Hp _].
  exact (proj1 (Forall_forall _ _) H p Hp).
Qed.

Lemma continue_sound (m : Machine) (p : Pending) (a : Answer) (s' : Sys) :
  Forall (pending_sound I Q) (pool m) ->
  In p (pool m) ->
  I s' ->
  sound_inv I Q (continue_with p a s' m).
Proof.
  intros Hpool Hin Hs'. unfold continue_with. apply settle_sound.
  - exact (proj1 (Forall_forall _ _) Hpool p Hin a s' Hs').
  - apply remove_pending_sound. exact Hpool.
Qed.

Lemma wake_sound (c : nat) (m : Machine) (t : nat) :
  sound_inv I Q m -> sound_inv I Q (wake c m t).
Proof.
  intros [Hi Hpool]. unfold wake.
  destruct (find_pending t (pool m)) as [p|] eqn:Hfind; [ | split; assumption ].
  destruct (waits_on p); try (split; assumption).
  destruct (Nat.eqb (cid proc) c); [ | split; assumption ].
  apply continue_sound; [ exact Hpool | | exact Hi ].
  exact (find_pending_In _ _ _ Hfind).
Qed.

Lemma wake_waiters_sound (c : nat) (m : Machine) :
  sound_inv I Q m -> sound_inv I Q (wake_waiters c m).
Proof.
  unfold wake_waiters. generalize (map tid (pool m)) as ts.
  intros ts. revert m. induction ts as [|t ts IH]; intros m Hm; cbn; [ exact Hm | ].
  apply IH. apply wake_sound. exact Hm.
Qed.

Lemma handle_sound (h : Prog unit) (s : Sys) (m : Machine) :
  sound I anything h s ->
  Forall (pending_sound I Q) (pool m) ->
  sound_inv I Q (with_sys (handle h s) m).
Proof.
  intros Hh Hpool. split; [ | exact Hpool ].
  cbn. unfold handle. exact (proj1 (run_sync_sound I anything h s Hh)).
Qed.

Lemma step_sound (m : Machine) (mv : Move) : sound_inv I Q m -> sound_inv I Q (step m mv).
Proof.
  intros [Hi Hpool].
  destruct mv as [ | | t a z | c code signal | c code msg | c line | c line ];
    cbn [step].
  - unfold call. apply settle_sound; [ apply I_start; exact Hi | exact Hpool ].
  - unfold call. apply settle_sound; [ apply I_stop; exact Hi | exact Hpool ].
  - unfold resume_task.
    destruct (find_pending t (pool m)) as [p|] eqn:Hfind; [ | split; assumption ].
    apply continue_sound; [ exact Hpool | exact (find_pending_In _ _ _ Hfind) | ].
    unfold deliver. destruct (waits_on p); cbn [fst]; auto.
  - destruct (_ && _); [ | split; assumption ].
    apply wake_waiters_sound. apply handle_sound; [ | exact Hpool ].
    apply I_onExit. apply I_exited. exact Hi.
  - destruct (_ && _); [ | split; assumption ].
    apply wake_waiters_sound. apply handle_sound; [ | exact Hpool ].
    apply I_onError. apply I_errored. exact Hi.
  - destruct (spawned (sys m) c); [ | split; assumption ].
    apply handle_sound; [ apply I_onStdout; exact Hi | exact Hpool ].
  - destruct (spawned (sys m) c); [ | split; assumption ].
    apply handle_sound; [ apply I_onStderr; exact Hi | exact Hpool ].
Qed.

Lemma settle_outcome (t : nat) (p : Prog Value) (s : Sys) (waiting : list Pending)
    (done : list (nat * Outcome)) (n : nat) (t' : nat) (v : Value) :
  sound I Q p s ->
  settled (settle t (run_sync p s) waiting done n) = (done ++ [(t', Returned v)])%list ->
  Q v (sys (settle t (run_sync p s) waiting done n)).
Proof.
  intros Hp. destruct (run_sync_sound I Q p s Hp) as [_ Hb].
  unfold settle. destruct (snd (run_sync p s)) as [v0 | e | q k | ]; cbn in *; intros E.
  - apply app_inv_head in E. injection E as _ <-. exact Hb.
  - apply app_inv_head in E. discriminate E.
  - apply (f_equal (@length _)) in E. rewrite length_app in E. cbn in E. lia.
  - apply app_inv_head in E. discriminate E.
Qed.

Lemma step_outcome (m : Machine) (mv : Move) (t : nat) (v : Value) :
  sound_inv I Q m ->
  own_turn mv = true ->
  settled (step m mv) = (settled m ++ [(t, Returned v)])%list ->
  Q v (sys (step m mv)).
Proof.
  intros [Hi Hpool] Hown.
  assert (Hsame : settled m <> (settled m ++ [(t, Returned v)])%list).
  { intros E. apply (f_equal (@length _)) in E. rewrite length_app in E. cbn in E. lia. }
  destruct mv as [ | | t0 a z | | | | ]; try discriminate Hown; cbn [step].
  - unfold call. apply settle_outcome. apply I_start. exact Hi.
  - unfold call. apply settle_outcome. apply I_stop. exact Hi.
  - unfold resume_task.
    destruct (find_pending t0 (pool m)) as [p|] eqn:Hfind; [ | intros E; contradiction ].
    unfold continue_with. apply settle_outcome.
    apply (proj1 (Forall_forall _ _) Hpool p (find_pending_In _ _ _ Hfind)).
    unfold deliver. destruct (waits_on p); cbn [fst]; auto.
Qed.

Lemma run_sound (moves : list Move) (m : Machine) :
  sound_inv I Q m -> sound_inv I Q (run m moves).
Proof.
  revert m. induction moves as [|mv moves IH]; intros m Hm; cbn; [ exact Hm | ].
  apply IH. apply step_sound. exact Hm.
Qed.

End Sound.


(** ** In state error there is a message *)

Ltac sound_leaf :=
  unfold error_has_message, outcome_ok, anything in *; cbn in *;
  repeat match goal with
         | H : state (this ?s) = _ |- context [state (this ?s)] => rewrite H
         end;
  solve [ assumption
        | exact Logic.I
        | reflexivity
        | intros; congruence
        | intros; discriminate
        | split; solve [ assumption | reflexivity | intros; congruence | intros; discriminate ]
        | auto ].

Ltac sound_step :=
  cbn [sound bind read write emit ask console_log console_error setState setError
       checkServerHealth sleep execAsync killProcessTree waitForProcessExit];
  match goal with
  | |- forall _, _ => intro
  | |- sound _ _ (match ?x with _ => _ end) _ => destruct x eqn:?
  | |- sound _ _ (bind (match ?x with _ => _ end) _) _ => destruct x eqn:?
  | |- _ /\ _ => split
  | |- error_has_message _ => sound_leaf
  | |- outcome_ok _ _ => sound_leaf
  | |- anything _ _ => exact Logic.I
  end.

Lemma pollLoop_message (fuel : nat) (startTime timeoutMs : Z) :
  forall s, error_has_message s ->
            sound error_has_message anything (pollLoop fuel startTime timeoutMs) s.
Proof.
  induction fuel as [|fuel IH]; intros s Hs; [ exact Hs | ].
  cbn [pollLoop]. repeat sound_step. all: apply IH; assumption.
Qed.

Lemma waitForServerOrExit_message (timeoutMs : Z) :
  forall s, error_has_message s ->
            sound error_has_message anything (waitForServerOrExit timeoutMs) s.
Proof.
  intros s Hs. unfold waitForServerOrExit. cbn [sound bind read].
  apply pollLoop_message. exact Hs.
Qed.

Lemma stop_message :
  forall s, error_has_message s -> sound error_has_message anything stop s.
Proof. intros s Hs. unfold stop. repeat sound_step. Qed.

Lemma start_message :
  forall s, error_has_message s -> sound error_has_message outcome_ok start s.
Proof.
  intros s Hs. unfold start. repeat sound_step.
  all: eapply sound_bind; [ apply waitForServerOrExit_message; assumption | ].
  all: intros ready s1 Hs1 _; repeat sound_step.
  all: eapply sound_bind; [ apply stop_message; assumption | ].
  all: intros u s2 Hs2 _; repeat sound_step.
Qed.


Lemma sound_anything {A : Type} (I : Sys -> Prop) (Q : A -> Sys -> Prop) (p : Prog A) :
  forall s, sound I Q p s -> sound I anything p s.
Proof.
  induction p as [a | e | k IH | g k IH | e k IH | q k IH | ]; cbn; intros s Hp; auto.
  - split; [ exact (proj1 Hp) | exact Logic.I ].
  - destruct Hp as [Hi Hk]. split; [ exact Hi | ]. intros a s' Hs'. apply IH, Hk, Hs'.
Qed.

Lemma start_call_message :
  forall s, error_has_message s -> sound error_has_message anything start_call s.
Proof.
  intros s Hs. unfold start_call.
  eapply sound_bind; [ apply start_message; exact Hs | ].
  intros b s' Hs' _. cbn. split; [ exact Hs' | exact Logic.I ].
Qed.

Lemma stop_call_message :
  forall s, error_has_message s -> sound error_has_message anything stop_call s.
Proof.
  intros s Hs. unfold stop_call.
  eapply sound_bind; [ apply stop_message; exact Hs | ].
  intros b s' Hs' _. cbn. split; [ exact Hs' | exact Logic.I ].
Qed.

Lemma onExit_message (code : option Z) (signal : option string) :
  forall s, error_has_message s -> sound error_has_message anything (onExit code signal) s.
Proof. intros s Hs. unfold onExit. repeat sound_step. Qed.

Lemma onError_message (code : option string) (msg : string) :
  forall s, error_has_message s -> sound error_has_message anything (onError code msg) s.
Proof. intros s Hs. unfold onError. repeat sound_step. Qed.

(** In state error there is always a message to show: whatever calls of
    [start()] and [stop()] are made, whatever the environment answers and
    whatever the children do, in any order, [lastError] is not null
    whenever the state is error (given that this holds to begin with, as
    it does for a new manager). *)
Theorem error_state_has_message (s : Sys) (moves : list Move) :
  (state (this s) = error -> lastError (this s) <> None) ->
  state (this (sys (run (idle s) moves))) = error ->
  lastError (this (sys (run (idle s) moves))) <> None.
Proof.
  intros Hs.
  assert (H : sound_inv error_has_message anything (run (idle s) moves)).
  { apply run_sound.
    - intros s0 t H; exact H.
    - intros s0 c H; exact H.
    - intros s0 c H; exact H.
    - intros s0 c H; exact H.
    - apply onExit_message.
    - apply onError_message.
    - intros line s0 H. unfold onStdout. repeat sound_step.
    - intros line s0 H. unfold onStderr. repeat sound_step.
    - apply start_call_message.
    - apply stop_call_message.
    - split; [ exact Hs | constructor ]. }
  exact (proj1 H).
Qed.

Lemma error_state_has_message_witness :
  lastError (this (sys (run (idle (demo_sys posix)) never_ready_moves))) <> None.
Proof.
  apply (error_state_has_message (demo_sys posix) never_ready_moves).
  - intros H. discriminate H.
  - vm_compute. reflexivity.
Defined.

Lemma start_call_outcome :
  forall s, error_has_message s -> sound error_has_message value_ok start_call s.
Proof.
  intros s Hs. unfold start_call.
  eapply sound_bind; [ apply start_message; exact Hs | ].
  intros b s' Hs' Hb. cbn. split; [ exact Hs' | exact Hb ].
Qed.

Lemma stop_call_outcome :
  forall s, error_has_message s -> sound error_has_message value_ok stop_call s.
Proof.
  intros s Hs. unfold stop_call.
  eapply sound_bind; [ apply stop_message; exact Hs | ].
  intros b s' Hs' _. cbn. split; [ exact Hs' | exact Logic.I ].
Qed.

(** What the value of [start()] says.  At the moment [start()] returns
    true the state is starting or running, and at the moment it returns
    false the state is error and [lastError] holds a message, whatever
    happened while it waited for its answers.  In particular, in any run,
    when a call of [start()] returns [b] in the turn of a call or of an
    answer of the environment, the state after that turn is as said. *)
Theorem start_outcome_matches_state (s : Sys) :
  (state (this s) = error -> lastError (this s) <> None) ->
  sound error_has_message outcome_ok start s
  /\ forall moves mv t b,
       own_turn mv = true ->
       let m := run (idle s) moves in
       settled (step m mv) = (settled m ++ [(t, Returned (VBool b))])%list ->
       if b then in_flight (state (this (sys (step m mv)))) = true
       else state (this (sys (step m mv))) = error
            /\ lastError (this (sys (step m mv))) <> None.
Proof.
  intros Hs. split; [ apply start_message; exact Hs | ].
  intros moves mv t b Hown m E.
  assert (H : sound_inv error_has_message value_ok m).
  { apply run_sound.
    - intros s0 z H; exact H.
    - intros s0 c H; exact H.
    - intros s0 c H; exact H.
    - intros s0 c H; exact H.
    - apply onExit_message.
    - apply onError_message.
    - intros line s0 H. unfold onStdout. repeat sound_step.
    - intros line s0 H. unfold onStderr. repeat sound_step.
    - apply start_call_outcome.
    - apply stop_call_outcome.
    - split; [ exact Hs | constructor ]. }
  exact (step_outcome error_has_message value_ok
           (fun s0 z H0 => H0) (fun s0 c H0 => H0)
           start_call_outcome stop_call_outcome m mv t (VBool b) H Hown E).
Qed.

Lemma start_outcome_matches_state_witness :
  let m := run (idle (demo_sys posix)) (removelast never_ready_moves) in
  let mv := Resume 0 (ABool false) 10100 in
  state (this (sys (step m mv))) = error
  /\ lastError (this (sys (step m mv))) <> None.
Proof.
  assert (H : state (this (demo_sys posix)) = error ->
              lastError (this (demo_sys posix)) <> None).
  { intros E. discriminate E. }
  apply (proj2 (start_outcome_matches_state (demo_sys posix) H)
           (removelast never_ready_moves) (Resume 0 (ABool false) 10100) 0 false).
  - reflexivity.
  - vm_compute. reflexivity.
Defined.

(** ** Observers know the state *)

Lemma last_notified_app (st : ProcessState) (d d' : list Event) :
  last_notified st (d ++ d') = last_notified (last_notified st d) d'.
Proof. unfold last_notified. apply fold_left_app. Qed.

Ltac sync_leaf :=
  match goal with
  | H : in_sync ?s0 _ |- in_sync ?s0 _ =>
      solve [ let d := fresh "d" in
              let Ht := fresh "Ht" in
              let Hst := fresh "Hst" in
              destruct H as [d [Ht Hst]];
              unfold in_sync; cbn; rewrite Ht, <- ?app_assoc;
              eexists; split; [ reflexivity | ];
              rewrite ?last_notified_app, <- Hst; reflexivity ]
  end.

Ltac sync_step :=
  cbn [sound bind read write emit ask console_log console_error setState setError
       checkServerHealth sleep execAsync killProcessTree waitForProcessExit];
  match goal with
  | |- forall _, _ => intro
  | |- sound _ _ (match ?x with _ => _ end) _ => destruct x eqn:?
  | |- sound _ _ (bind (match ?x with _ => _ end) _) _ => destruct x eqn:?
  | |- _ /\ _ => split
  | |- in_sync _ _ => sync_leaf
  | |- anything _ _ => exact Logic.I
  end.

Section InSync.

Variable s0 : Sys.

Lemma pollLoop_sync (fuel : nat) (startTime timeoutMs : Z) :
  forall s, in_sync s0 s -> sound (in_sync s0) anything (pollLoop fuel startTime timeoutMs) s.
Proof.
  induction fuel as [|fuel IH]; intros s Hs; [ exact Hs | ].
  cbn [pollLoop]. repeat sync_step. all: apply IH; assumption.
Qed.

Lemma waitForServerOrExit_sync (timeoutMs : Z) :
  forall s, in_sync s0 s -> sound (in_sync s0) anything (waitForServerOrExit timeoutMs) s.
Proof.
  intros s Hs. unfold waitForServerOrExit. cbn [sound bind read].
  apply pollLoop_sync. exact Hs.
Qed.

Lemma stop_sync : forall s, in_sync s0 s -> sound (in_sync s0) anything stop s.
Proof. intros s Hs. unfold stop. repeat sync_step. Qed.

Lemma start_sync : forall s, in_sync s0 s -> sound (in_sync s0) anything start s.
Proof.
  intros s Hs. unfold start. repeat sync_step.
  all: eapply sound_bind; [ apply waitForServerOrExit_sync; sync_leaf | ].
  all: intros ready s1 Hs1 _; repeat sync_step.
  all: eapply sound_bind; [ apply stop_sync; sync_leaf | ].
  all: intros u s2 Hs2 _; repeat sync_step.
Qed.

Lemma run_sync_inv (moves : list Move) (m : Machine) :
  sound_inv (in_sync s0) anything m -> sound_inv (in_sync s0) anything (run m moves).
Proof.
  apply run_sound.
  - intros s t H; exact H.
  - intros s c H; exact H.
  - intros s c H; exact H.
  - intros s c H; exact H.
  - intros code signal s H. unfold onExit. repeat sync_step.
  - intros code msg s H. unfold onError. repeat sync_step.
  - intros line s H. unfold onStdout. repeat sync_step.
  - intros line s H. unfold onStderr. repeat sync_step.
  - intros s H. unfold start_call.
    eapply sound_bind; [ apply start_sync; exact H | ].
    intros b s' Hs' _. cbn. split; [ exact Hs' | exact Logic.I ].
  - intros s H. unfold stop_call.
    eapply sound_bind; [ apply stop_sync; exact H | ].
    intros b s' Hs' _. cbn. split; [ exact Hs' | exact Logic.I ].
Qed.

End InSync.

(** Observers are never out of date: after any calls of [start()] and
    [stop()], any answers of the environment and any events of the
    children, in any order, the state of the manager is the state of the
    last [onStateChange] since the beginning, or the state of the beginning
    if there was none since.  No state change goes unannounced and none is
    announced that did not happen. *)
Theorem observers_know_the_state (s : Sys) (moves : list Move) :
  let m := run (idle s) moves in
  state (this (sys m)) = last_notified (state (this s)) (since s m).
Proof.
  cbv zeta.
  assert (H : sound_inv (in_sync s) anything (run (idle s) moves)).
  { apply run_sync_inv. split; [ | constructor ].
    exists []. cbn. rewrite app_nil_r. split; reflexivity. }
  destruct H as [[d [Ht Hst]] _].
  unfold since. rewrite Ht, skipn_app, skipn_all, Nat.sub_diag. cbn. exact Hst.
Qed.

End SupervisorInvariants.

Module SupervisorStartProofs.
Import Supervisor SupervisorProofs.

#[local] Arguments string_of_Z : simpl never.

(** Without a project directory [start()] gives up at once: unless the
    state is starting or running, a call with an empty project directory
    returns false in the same turn, the state is error with the message
    that the directory is not configured, observers see starting and then
    error, and nothing is asked of the outside: no probe, no spawn. *)
Theorem start_without_directory (s : Sys) :
  in_flight (state (this s)) = false ->
  projectDirectory (this s) = EmptyString ->
  let m := step (idle s) CallStart in
  settled m = [(0, Returned (VBool false))]
  /\ pool m = []
  /\ state (this (sys m)) = error
  /\ lastError (this (sys m)) = Some "Project directory (vault) not configured"
  /\ process (this (sys m)) = process (this s)
  /\ since s m = [StateChange starting;
                  ConsoleError "[OpenCode Error] Project directory (vault) not configured";
                  StateChange error].
Proof.
  intros Hst Hdir. cbn [step]. unfold call, start_call, start. cbn -[since].
  destruct (state (this s)); try discriminate Hst; cbn -[since]; rewrite Hdir; cbn -[since].
  all: repeat split; apply since_app; cbn; rewrite <- ?app_assoc; reflexivity.
Qed.

Lemma start_without_directory_witness :
  let s := with_this (fun m => updateProjectDirectory m EmptyString) (demo_sys posix) in
  let m := step (idle s) CallStart in
  settled m = [(0, Returned (VBool false))]
  /\ pool m = []
  /\ state (this (sys m)) = error
  /\ lastError (this (sys m)) = Some "Project directory (vault) not configured"
  /\ process (this (sys m)) = process (this s)
  /\ since s m = [StateChange starting;
                  ConsoleError "[OpenCode Error] Project directory (vault) not configured";
                  StateChange error].
Proof.
  apply (start_without_directory
           (with_this (fun m => updateProjectDirectory m EmptyString) (demo_sys posix)));
    reflexivity.
Defined.


(** A server that is already there is used and left alone: when the first
    probe of [start()] succeeds, [start()] returns true with the state
    running, having spawned nothing and holding no child; a call of
    [stop()] after that returns in the same turn, announces stopped, and
    sends no signal and runs no command. *)
Theorem running_server_is_adopted (s : Sys) (t : Z) :
  in_flight (state (this s)) = false ->
  projectDirectory (this s) <> EmptyString ->
  process (this s) = None ->
  let m := run (idle s) [CallStart; Resume 0 (ABool true) t] in
  let m' := step m CallStop in
  settled m = [(0, Returned (VBool true))]
  /\ pool m = []
  /\ state (this (sys m)) = running
  /\ process (this (sys m)) = None
  /\ since s m = [StateChange starting;
                  IO (Health (hostname (settings (this s))) (port (settings (this s)))
                             (projectDirectory (this s)));
                  ConsoleLog ("[OpenCode] Server already running on port "
                                ++ string_of_Z (port (settings (this s))));
                  StateChange running]
  /\ settled m' = [(0, Returned (VBool true)); (1, Returned VUnit)]
  /\ pool m' = []
  /\ state (this (sys m')) = stopped
  /\ since s m' = (since s m ++ [StateChange stopped])%list.
Proof.
  intros Hst Hdir Hproc. apply String.eqb_neq in Hdir.
  unfold run. cbn [fold_left step]. unfold call, start_call, start. cbn -[since Z.max].
  destruct (state (this s)); try discriminate Hst; cbn -[since Z.max];
    rewrite Hdir; cbn -[since Z.max]; unfold stop_call, stop; cbn -[since Z.max];
    rewrite Hproc; cbn -[since Z.max].
  all: repeat split.
  all: try (apply since_app; cbn; rewrite <- ?app_assoc; reflexivity).
  all: etransitivity;
    [ apply since_app; cbn; rewrite <- ?app_assoc; reflexivity | ].
  all: erewrite since_app by (cbn; rewrite <- ?app_assoc; reflexivity); reflexivity.
Qed.

Lemma running_server_is_adopted_witness :
  let s := demo_sys posix in
  let m := run (idle s) [CallStart; Resume 0 (ABool true) 150] in
  let m' := step m CallStop in
  settled m = [(0, Returned (VBool true))]
  /\ pool m = []
  /\ state (this (sys m)) = running
  /\ process (this (sys m)) = None
  /\ since s m = [StateChange starting;
                  IO (Health (hostname (settings (this s))) (port (settings (this s)))
                             (projectDirectory (this s)));
                  ConsoleLog ("[OpenCode] Server already running on port "
                                ++ string_of_Z (port (settings (this s))));
                  StateChange running]
  /\ settled m' = [(0, Returned (VBool true)); (1, Returned VUnit)]
  /\ pool m' = []
  /\ state (this (sys m')) = stopped
  /\ since s m' = (since s m ++ [StateChange stopped])%list.
Proof.
  apply (running_server_is_adopted (demo_sys posix) 150);
    [ reflexivity | discriminate | reflexivity ].
Defined.

End SupervisorStartProofs.

Module SupervisorStopProofs.
Import Supervisor SupervisorProofs.

#[local] Arguments string_of_Z : simpl never.

(** ** The order of a teardown *)




Section Plan.

Variable s0 : Sys.
Variable plan : list Query.








End Plan.





(** ** The URL of a project directory *)

Lemma append_inj (a x y : string) : a ++ x = a ++ y -> x = y.
Proof.
  induction a as [|c a IH]; cbn; intros H; [ exact H | ].
  injection H as H. apply IH. exact H.
Qed.

Lemma getUrl_directory (m : ProcessManager) (directory : string) :
  getUrl (updateProjectDirectory m directory) = getUrl m -> directory = projectDirectory m.
Proof.
  unfold getUrl, updateProjectDirectory. cbn [settings projectDirectory].
  intros H. repeat apply append_inj in H.
  apply Base64Proofs.btoa_injective. exact H.
Qed.

(** The URL tells project directories apart: for one host and port,
    [getUrl()] is the same for two project directories only if they are
    the same directory, since the directory can be read back from its
    encoding.  So [updateProjectDirectory] changes the URL exactly when it
    changes the directory. *)
Theorem getUrl_tells_directories_apart (m : ProcessManager) (directory : string) :
  (getUrl (updateProjectDirectory m directory) = getUrl m
   <-> directory = projectDirectory m)
  /\ exists base,
       getUrl m = base ++ Base64.btoa (projectDirectory m)
       /\ Base64.decode (Base64.btoa (projectDirectory m)) = Some (projectDirectory m).
Proof.
  split.
  - split; [ apply getUrl_directory | ].
    intros ->. destruct m; reflexivity.
  - unfold getUrl.
    exists ("http://" ++ hostname (settings m) ++ ":" ++ string_of_Z (port (settings m)) ++ "/").
    split; [ | apply Base64Proofs.decode_btoa ].
    rewrite !ClientProofs.append_assoc. reflexivity.
Qed.

End SupervisorStopProofs.

Module ContextProofs.
Import Client Context.

(** ** The parts of [gatherContext] *)

Lemma gatherContext_parts (app : App) (n m : Z) (this : WorkspaceContext) :
  gatherContext app n m this
  = (let notes := firstn (Z.to_nat (Z.max 0 n)) (collect_paths app) in
     {| openNotePaths := notes;
        selection := cut m (fst (choose app this));
        contextText := render notes (cut m (fst (choose app this))) |},
     snd (choose app this)).
Proof. reflexivity. Qed.

Lemma gatherContext_state (app : App) (n m : Z) (this : WorkspaceContext) :
  snd (gatherContext app n m this) = snd (choose app this).
Proof. reflexivity. Qed.

Lemma gatherContext_selection (app : App) (n m : Z) (this : WorkspaceContext) :
  selection (fst (gatherContext app n m this)) = cut m (fst (choose app this)).
Proof. reflexivity. Qed.

Lemma gatherContext_openNotePaths (app : App) (n m : Z) (this : WorkspaceContext) :
  openNotePaths (fst (gatherContext app n m this))
  = firstn (Z.to_nat (Z.max 0 n)) (collect_paths app).
Proof. reflexivity. Qed.

(** ** Open notes *)

Lemma set_add_In (p q : string) (l : list string) :
  In q (set_add p l) <-> q = p \/ In q l.
Proof.
  unfold set_add. destruct (existsb (String.eqb p) l) eqn:E.
  - split; [ intros H; right; exact H | intros [-> | H]; [ | exact H ] ].
    apply existsb_exists in E. destruct E as [x [Hx Hpx]].
    apply String.eqb_eq in Hpx. subst x. exact Hx.
  - rewrite in_app_iff. cbn. split.
    + intros [H | [H | []]]; [ right; exact H | left; symmetry; exact H ].
    + intros [-> | H]; [ right; left; reflexivity | left; exact H ].
Qed.

Lemma set_add_NoDup (p : string) (l : list string) : NoDup l -> NoDup (set_add p l).
Proof.
  intros H. unfold set_add. destruct (existsb (String.eqb p) l) eqn:E; [ exact H | ].
  apply NoDup_rev in H. rewrite <- (rev_involutive (l ++ [p])). apply NoDup_rev.
  rewrite rev_app_distr. cbn. constructor; [ | exact H ].
  rewrite <- in_rev. intros Hin.
  assert (existsb (String.eqb p) l = true); [ | congruence ].
  apply existsb_exists. exists p. split; [ exact Hin | apply String.eqb_refl ].
Qed.

Lemma set_add_length (p : string) (l : list string) : length (set_add p l) <= S (length l).
Proof.
  unfold set_add. destruct (existsb _ l); [ lia | ]. rewrite length_app. cbn. lia.
Qed.

Section Collect.

Variable app : App.

Lemma collect_fold (leaves : list nat) (acc : list string) :
  NoDup acc ->
  let r := fold_left (add_leaf app) leaves acc in
  NoDup r
  /\ length r <= length acc + length leaves
  /\ (forall p, In p acc -> In p r)
  /\ (forall p, In p r ->
        In p acc
        \/ (p <> EmptyString
            /\ exists leaf, In leaf leaves /\ file_path (views app leaf) = Some p))
  /\ (forall leaf p, In leaf leaves -> file_path (views app leaf) = Some p ->
                     p <> EmptyString -> In p r).
Proof.
  revert acc. induction leaves as [|leaf leaves IH]; intros acc Hnd; cbn [fold_left].
  - cbv zeta. repeat split; try assumption; try (cbn; lia); auto.
  - assert (Hnd' : NoDup (add_leaf app acc leaf)).
    { unfold add_leaf. destruct (file_path (views app leaf)) as [path|]; [ | exact Hnd ].
      destruct (truthy_string path); [ apply set_add_NoDup | ]; exact Hnd. }
    assert (Hlen : length (add_leaf app acc leaf) <= S (length acc)).
    { unfold add_leaf. destruct (file_path (views app leaf)) as [path|]; [ | lia ].
      destruct (truthy_string path); [ apply set_add_length | lia ]. }
    assert (Hin : forall p, In p acc -> In p (add_leaf app acc leaf)).
    { intros p Hp. unfold add_leaf.
      destruct (file_path (views app leaf)) as [path|]; [ | exact Hp ].
      destruct (truthy_string path); [ apply set_add_In; right | ]; exact Hp. }
    assert (Hfrom : forall p, In p (add_leaf app acc leaf) ->
              In p acc \/ (p <> EmptyString /\ file_path (views app leaf) = Some p)).
    { intros p Hp. unfold add_leaf in Hp.
      destruct (file_path (views app leaf)) as [path|]; [ | left; exact Hp ].
      destruct (truthy_string path) eqn:Ht; [ | left; exact Hp ].
      apply set_add_In in Hp. destruct Hp as [-> | Hp]; [ right | left; exact Hp ].
      split; [ | reflexivity ]. intros ->. discriminate. }
    assert (Hnew : forall p, file_path (views app leaf) = Some p -> p <> EmptyString ->
                             In p (add_leaf app acc leaf)).
    { intros p Hp Hne. unfold add_leaf. rewrite Hp.
      unfold truthy_string. destruct (String.eqb_spec p ""); [ contradiction | ].
      cbn [negb]. apply set_add_In. left. reflexivity. }
    destruct (IH (add_leaf app acc leaf) Hnd') as [H1 [H2 [H3 [H4 H5]]]].
    cbv zeta in *. split; [ exact H1 | ]. split; [ cbn [length]; lia | ].
    split; [ intros p Hp; apply H3, Hin, Hp | ].
    split.
    + intros p Hp. destruct (H4 p Hp) as [Hacc | [Hne [l [Hl Hf]]]].
      * destruct (Hfrom p Hacc) as [Hacc' | [Hne Hf]]; [ left; exact Hacc' | right ].
        split; [ exact Hne | ]. exists leaf. split; [ left; reflexivity | exact Hf ].
      * right. split; [ exact Hne | ]. exists l. split; [ right; exact Hl | exact Hf ].
    + intros l p [<- | Hl] Hf Hne; [ apply H3, Hnew; assumption | ].
      apply (H5 l p Hl Hf Hne).
Qed.

End Collect.

Lemma firstn_incl {A : Type} (n : nat) (l : list A) (x : A) : In x (firstn n l) -> In x l.
Proof. intros H. rewrite <- (firstn_skipn n l). apply in_or_app. left. exact H. Qed.

Lemma firstn_NoDup {A : Type} (n : nat) (l : list A) : NoDup l -> NoDup (firstn n l).
Proof.
  intros H. rewrite <- (firstn_skipn n l) in H. apply NoDup_app_remove_r in H. exact H.
Qed.

(** The open notes of a snapshot: no path twice, no more than the limit
    allows (none when the limit is zero or negative), each the non-empty
    path of the file of some markdown leaf; and when the limit is at least
    the number of markdown leaves, the path of every leaf that shows a file
    is among them. *)
Theorem openNotePaths_distinct_and_bounded (app : App) (maxNotes maxSelectionLength : Z)
    (this : WorkspaceContext) :
  let notes := openNotePaths (fst (gatherContext app maxNotes maxSelectionLength this)) in
  NoDup notes
  /\ (Z.of_nat (length notes) <= Z.max 0 maxNotes)%Z
  /\ length notes <= length (markdownLeaves app)
  /\ (forall p, In p notes ->
        p <> EmptyString
        /\ exists leaf, In leaf (markdownLeaves app) /\ file_path (views app leaf) = Some p)
  /\ ((Z.of_nat (length (markdownLeaves app)) <= maxNotes)%Z ->
      forall leaf p, In leaf (markdownLeaves app) -> file_path (views app leaf) = Some p ->
                     p <> EmptyString -> In p notes).
Proof.
  cbv zeta. rewrite gatherContext_openNotePaths.
  destruct (collect_fold app (markdownLeaves app) [] (NoDup_nil _)) as [H1 [H2 [_ [H4 H5]]]].
  cbv zeta in *. fold (collect_paths app) in *. cbn [length] in H2.
  split; [ apply firstn_NoDup; exact H1 | ].
  split; [ rewrite length_firstn; lia | ].
  split; [ rewrite length_firstn; lia | ].
  split.
  - intros p Hp. apply firstn_incl in Hp. destruct (H4 p Hp) as [[] | H]. exact H.
  - intros Hroom leaf p Hl Hf Hne. rewrite firstn_all2; [ apply (H5 leaf p Hl Hf Hne) | lia ].
Qed.


(** ** The selection *)

Ltac choose_cases app v :=
  let Hf := fresh "Hf" in
  let He := fresh "He" in
  destruct (file_path (views app v)) as [?p|] eqn:Hf;
  destruct (editor_selection (views app v)) as [?sel|] eqn:He;
  repeat (progress
            (cbn [truthy_opt_string andb negb fst snd lastSelection lastMarkdownView];
             rewrite ?Hf, ?He;
             repeat match goal with
                    | H : truthy_string ?x = _ |- context [truthy_string ?x] => rewrite H
                    end;
             try match goal with
                 | |- context [truthy_string ?x] =>
                     let Ht := fresh "Ht" in destruct (truthy_string x) eqn:Ht
                 end)).

Lemma choose_again (app : App) (this : WorkspaceContext) :
  choose app (snd (choose app this)) = choose app this.
Proof.
  unfold choose, current_view. destruct this as [ls lv].
  cbn [lastSelection lastMarkdownView].
  destruct (activeMarkdownView app) as [v|] eqn:Ha; [ | destruct lv as [v|] ];
    cbn [lastSelection lastMarkdownView];
    try (choose_cases app v);
    reflexivity.
Qed.

(** Asked again while the workspace is as it was, [gatherContext] answers
    the same and leaves its own state as the first call left it: only a
    change of the workspace changes the context. *)
Theorem gatherContext_idempotent (app : App) (maxNotes maxSelectionLength : Z)
    (this : WorkspaceContext) :
  gatherContext app maxNotes maxSelectionLength
    (snd (gatherContext app maxNotes maxSelectionLength this))
  = gatherContext app maxNotes maxSelectionLength this.
Proof.
  rewrite !gatherContext_parts. cbn [snd]. rewrite choose_again. reflexivity.
Qed.


Lemma truthy_string_ne (s : string) : truthy_string s = true -> s <> EmptyString.
Proof. intros H ->. discriminate. Qed.

(** Where the selection that [gatherContext] starts from comes from. *)
Lemma choose_fst (app : App) (this : WorkspaceContext) (o : SelectedTextContext) :
  fst (choose app this) = Some o ->
  (exists v, current_view app this = Some v
             /\ editor_selection (views app v) = Some (sel_text o)
             /\ file_path (views app v) = Some (sourcePath o)
             /\ sourcePath o <> EmptyString
             /\ trim (sel_text o) <> EmptyString)
  \/ lastSelection this = Some o.
Proof.
  unfold choose. destruct (current_view app this) as [v|] eqn:Hv.
  - destruct (file_path (views app v)) as [p|] eqn:Hf; cbn [truthy_opt_string].
    + destruct (truthy_string p) eqn:Hp; cbn [andb negb].
      * destruct (editor_selection (views app v)) as [sel|] eqn:He.
        -- destruct (truthy_string (trim sel)) eqn:Ht; cbn [fst]; [ | discriminate ].
           intros H. injection H as <-. left. exists v. cbn [sel_text sourcePath].
           repeat split; auto using truthy_string_ne.
        -- cbn. discriminate.
      * cbn [fst lastSelection]. intros H. right. exact H.
    + cbn [andb negb fst lastSelection]. intros H. right. exact H.
  - cbn [truthy_opt_string andb negb fst]. intros H. right. exact H.
Qed.

Lemma choose_ok (app : App) (this : WorkspaceContext) :
  selection_ok (lastSelection this) ->
  selection_ok (fst (choose app this)) /\ selection_ok (lastSelection (snd (choose app this))).
Proof.
  intros Hok.
  assert (Hfst : selection_ok (fst (choose app this))).
  { intros o Ho. destruct (choose_fst app this o Ho) as [[v [_ [_ [_ H]]]] | H];
      [ exact H | exact (Hok o H) ]. }
  split; [ exact Hfst | ].
  revert Hfst. unfold choose.
  destruct (current_view app this) as [v|];
    [ destruct (file_path (views app v)) as [p|]; cbn [truthy_opt_string];
      [ destruct (truthy_string p); cbn [andb negb];
        [ destruct (truthy_string (trim _)) | ] | ] | ];
    cbn [truthy_opt_string andb negb fst snd lastSelection]; intros Hfst;
    try exact Hfst; exact Hok.
Qed.

Lemma reachable_ok (this : WorkspaceContext) :
  reachable this -> selection_ok (lastSelection this).
Proof.
  induction 1 as [|app n m this Hr IH].
  - intros sc Hsc. discriminate.
  - rewrite gatherContext_state. apply choose_ok. exact IH.
Qed.

Lemma cut_some (m : Z) (o : option SelectedTextContext) (sc : SelectedTextContext) :
  cut m o = Some sc ->
  exists original,
    o = Some {| sel_text := original; sourcePath := sourcePath sc |}
    /\ sel_text sc = if (Z.of_nat (String.length original) >? m)%Z
                     then slice0 original m ++ truncation_mark
                     else original.
Proof.
  destruct o as [[t p]|]; cbn [cut sel_text sourcePath]; [ | discriminate ].
  destruct (Z.of_nat (String.length t) >? m)%Z eqn:E; intros H; injection H as <-;
    exists t; cbn [sel_text sourcePath]; rewrite ?E; split; reflexivity.
Qed.

(** A selection in a snapshot, for a [WorkspaceContext] in any state it can
    be in, names a source file, and its text is a text that is not blank,
    either whole or cut to length with the mark after it. *)
Theorem selection_names_source (this : WorkspaceContext) (app : App)
    (maxNotes maxSelectionLength : Z) (sc : SelectedTextContext) :
  reachable this ->
  selection (fst (gatherContext app maxNotes maxSelectionLength this)) = Some sc ->
  sourcePath sc <> EmptyString
  /\ exists original,
       trim original <> EmptyString
       /\ (sel_text sc = original
           \/ sel_text sc = slice0 original maxSelectionLength ++ truncation_mark).
Proof.
  intros Hr Hsel. rewrite gatherContext_selection in Hsel.
  destruct (cut_some _ _ _ Hsel) as [original [Ho Ht]].
  destruct (proj1 (choose_ok app this (reachable_ok this Hr)) _ Ho) as [Hp Hb].
  cbn [sel_text sourcePath] in Hp, Hb.
  split; [ exact Hp | ]. exists original. split; [ exact Hb | ].
  destruct (Z.of_nat (String.length original) >? maxSelectionLength)%Z; auto.
Qed.

Lemma selection_names_source_witness :
  "notes/a.md" <> EmptyString
  /\ exists original,
       trim original <> EmptyString
       /\ ("some... [truncated]" = original
           \/ "some... [truncated]" = slice0 original 4 ++ truncation_mark).
Proof.
  apply (selection_names_source
           (snd (gatherContext demo_app 5 100 new_WorkspaceContext)) demo_app 5 4
           {| sel_text := "some... [truncated]"; sourcePath := "notes/a.md" |}).
  - apply reach_gather. apply reach_new.
  - reflexivity.
Defined.

(** ** Cutting the selection to length *)

Lemma substring_length (k : nat) (s : string) :
  String.length (substring 0 k s) = Nat.min k (String.length s).
Proof.
  revert s. induction k as [|k IH]; intros s.
  - destruct s; reflexivity.
  - destruct s as [|c s]; [ reflexivity | ]. cbn. rewrite IH. reflexivity.
Qed.

Lemma slice0_nonneg (s : string) (m : Z) :
  (0 <= m < Z.of_nat (String.length s))%Z -> slice0 s m = substring 0 (Z.to_nat m) s.
Proof.
  intros H. unfold slice0.
  destruct (m <? 0)%Z eqn:E; [ apply Z.ltb_lt in E; lia | ].
  rewrite Z.min_l by lia. reflexivity.
Qed.

Lemma slice0_negative (s : string) (m : Z) :
  (m < 0)%Z -> slice0 s m = substring 0 (Z.to_nat (Z.of_nat (String.length s) + m)) s.
Proof.
  intros H. unfold slice0. apply Z.ltb_lt in H. rewrite H.
  f_equal. lia.
Qed.

(** The text of a selection in a snapshot is the text it was taken from (the
    selection in the view looked at, or the remembered selection) when that
    is no longer than the limit; otherwise it is the first
    [maxSelectionLength] characters of it followed by the mark, so no
    longer than the limit plus the fifteen characters of the mark.  With a
    negative limit every text is cut, by that many characters from its
    end. *)
Theorem selection_cut_to_length (app : App) (maxNotes maxSelectionLength : Z)
    (this : WorkspaceContext) (sc : SelectedTextContext) :
  selection (fst (gatherContext app maxNotes maxSelectionLength this)) = Some sc ->
  exists original,
    ((exists v, current_view app this = Some v
                /\ editor_selection (views app v) = Some original
                /\ file_path (views app v) = Some (sourcePath sc))
     \/ lastSelection this = Some {| sel_text := original; sourcePath := sourcePath sc |})
    /\ ((Z.of_nat (String.length original) <= maxSelectionLength)%Z -> sel_text sc = original)
    /\ ((0 <= maxSelectionLength < Z.of_nat (String.length original))%Z ->
        sel_text sc = substring 0 (Z.to_nat maxSelectionLength) original ++ truncation_mark
        /\ String.length (sel_text sc) = Z.to_nat maxSelectionLength + 15)
    /\ ((maxSelectionLength < 0)%Z ->
        sel_text sc
        = substring 0 (Z.to_nat (Z.of_nat (String.length original) + maxSelectionLength))
            original ++ truncation_mark)
    /\ ((0 <= maxSelectionLength)%Z ->
        String.length (sel_text sc) <= Z.to_nat maxSelectionLength + 15).
Proof.
  intros Hsel. rewrite gatherContext_selection in Hsel.
  destruct (cut_some _ _ _ Hsel) as [original [Ho Ht]].
  exists original.
  assert (Hcut : (0 <= maxSelectionLength < Z.of_nat (String.length original))%Z ->
                 sel_text sc = substring 0 (Z.to_nat maxSelectionLength) original
                                 ++ truncation_mark
                 /\ String.length (sel_text sc) = Z.to_nat maxSelectionLength + 15).
  { intros H. rewrite Ht.
    destruct (Z.gtb_spec (Z.of_nat (String.length original)) maxSelectionLength); [ | lia ].
    rewrite (slice0_nonneg _ _ H). split; [ reflexivity | ].
    rewrite ClientProofs.length_append, substring_length. cbn [String.length truncation_mark].
    lia. }
  split; [ | split; [ | split; [ exact Hcut | split ] ] ].
  - destruct (choose_fst app this _ Ho) as [[v [Hv [He [Hf _]]]] | H]; [ left | right; exact H ].
    exists v. cbn [sel_text sourcePath] in He, Hf. auto.
  - intros H. rewrite Ht.
    destruct (Z.gtb_spec (Z.of_nat (String.length original)) maxSelectionLength);
      [ lia | reflexivity ].
  - intros H. rewrite Ht.
    destruct (Z.gtb_spec (Z.of_nat (String.length original)) maxSelectionLength); [ | lia ].
    rewrite (slice0_negative _ _ H). reflexivity.
  - intros H.
    destruct (Z_lt_le_dec maxSelectionLength (Z.of_nat (String.length original))) as [Hlt | Hle].
    + destruct (Hcut (conj H Hlt)) as [_ E]. lia.
    + rewrite Ht.
      destruct (Z.gtb_spec (Z.of_nat (String.length original)) maxSelectionLength); lia.
Qed.

Lemma selection_cut_to_length_witness :
  exists original,
    ((exists v, current_view demo_app new_WorkspaceContext = Some v
                /\ editor_selection (views demo_app v) = Some original
                /\ file_path (views demo_app v) = Some "notes/a.md")
     \/ lastSelection new_WorkspaceContext
        = Some {| sel_text := original; sourcePath := "notes/a.md" |})
    /\ ((Z.of_nat (String.length original) <= 4)%Z -> "some... [truncated]" = original)
    /\ ((0 <= 4 < Z.of_nat (String.length original))%Z ->
        "some... [truncated]" = substring 0 (Z.to_nat 4) original ++ truncation_mark
        /\ String.length "some... [truncated]" = Z.to_nat 4 + 15)
    /\ ((4 < 0)%Z ->
        "some... [truncated]"
        = substring 0 (Z.to_nat (Z.of_nat (String.length original) + 4)) original
            ++ truncation_mark)
    /\ ((0 <= 4)%Z -> String.length "some... [truncated]" <= Z.to_nat 4 + 15).
Proof.
  apply (selection_cut_to_length demo_app 5 4 new_WorkspaceContext
           {| sel_text := "some... [truncated]"; sourcePath := "notes/a.md" |}).
  reflexivity.
Defined.

(** ** The context text *)

Lemma join_snoc (sep : string) (l : list string) (f : string) :
  l <> [] -> join sep (l ++ [f]) = join sep l ++ sep ++ f.
Proof.
  induction l as [|a l IH]; intros Hne; [ congruence | ].
  destruct l as [|b l]; [ reflexivity | ].
  change (join sep ((a :: b :: l) ++ [f])) with (a ++ sep ++ join sep ((b :: l) ++ [f])).
  rewrite IH by discriminate.
  change (join sep (a :: b :: l)) with (a ++ sep ++ join sep (b :: l)).
  rewrite !ClientProofs.append_assoc. reflexivity.
Qed.

Lemma join_wrap (sep h f : string) (mid : list string) :
  mid <> [] -> join sep (h :: mid ++ [f]) = h ++ sep ++ join sep mid ++ sep ++ f.
Proof.
  intros Hne. destruct mid as [|a mid]; [ congruence | ].
  change (join sep (h :: (a :: mid) ++ [f])) with (h ++ sep ++ join sep ((a :: mid) ++ [f])).
  rewrite join_snoc by discriminate. reflexivity.
Qed.

Lemma render_spec (notes : list string) (sel : option SelectedTextContext) :
  (render notes sel = None <-> notes = [] /\ sel = None)
  /\ forall t, render notes sel = Some t ->
       exists body, t = "<obsidian-context>" ++ newline ++ body ++ newline
                          ++ "</obsidian-context>".
Proof.
  unfold render. split.
  - destruct notes as [|p notes], sel as [sc|]; cbn [length Nat.ltb Nat.leb orb];
      split; try discriminate; try (intros [? ?]; discriminate); auto.
  - intros t.
    destruct ((0 <? length notes)%nat || match sel with Some _ => true | None => false end)
      eqn:E; [ | discriminate ].
    set (a := if (0 <? length notes)%nat then _ else _).
    set (b := match sel with Some sc => _ | None => [] end).
    intros H.
    assert (Ht : t = join newline ("<obsidian-context>" :: (a ++ b) ++ ["</obsidian-context>"])%list).
    { cbn [app] in H. rewrite app_assoc in H. congruence. }
    exists (join newline (a ++ b)%list). rewrite Ht. apply join_wrap.
    subst a b. destruct notes as [|p notes]; [ | cbn; discriminate ].
    destruct sel as [sc|]; [ cbn; discriminate | cbn in E; discriminate ].
Qed.

(** A snapshot has no context text exactly when there is neither an open
    note nor a selection to report.  A context text is never empty: it
    opens with the line "<obsidian-context>" and closes with the line
    "</obsidian-context>", with at least one line between them. *)
Theorem contextText_wrapped (app : App) (maxNotes maxSelectionLength : Z)
    (this : WorkspaceContext) :
  let snapshot := fst (gatherContext app maxNotes maxSelectionLength this) in
  (contextText snapshot = None <-> openNotePaths snapshot = [] /\ selection snapshot = None)
  /\ forall t, contextText snapshot = Some t ->
       truthy_string t = true
       /\ exists body, t = "<obsidian-context>" ++ newline ++ body ++ newline
                             ++ "</obsidian-context>".
Proof.
  cbv zeta. rewrite gatherContext_parts. cbn [fst openNotePaths selection contextText].
  destruct (render_spec (firstn (Z.to_nat (Z.max 0 maxNotes)) (collect_paths app))
              (cut maxSelectionLength (fst (choose app this)))) as [H1 H2].
  split; [ exact H1 | ].
  intros t Ht. destruct (H2 t Ht) as [body E]. split; [ | exists body; exact E ].
  rewrite E. reflexivity.
Qed.

End ContextProofs.

Module PluginProofs.
Import Plugin.

(** ** Subscribers *)





(** ** The client follows the settings *)










(** ** Pushing the context *)

Lemma issued_by_refl (w : Client.World) : Client.issued_by w w = [].
Proof. unfold Client.issued_by. apply skipn_all. Qed.

Lemma resolveSessionId_truthy (c : Client.OpenCodeClient) (url sid : string) :
  Client.resolveSessionId c url = Some sid ->
  Client.truthy_string url = true /\ Client.truthy_string sid = true.
Proof.
  intros H. unfold Client.resolveSessionId in H.
  destruct (SessionUrlProofs.match_session_sound url sid H) as [Hne [_ [pre [rest [Hurl _]]]]].
  split.
  - destruct url; [ | reflexivity ].
    destruct pre; cbn in Hurl; discriminate.
  - destruct sid; [ congruence | reflexivity ].
Qed.

Lemma updateOpenCodeContext_cases (srv : Client.Server) (app : Context.App)
    (v : option string) (p : OpenCodePlugin) :
  let p' := updateOpenCodeContext srv app v p in
  let w := openCodeClient p in
  let gathered := Context.gatherContext app (maxNotesInContext (settings p))
                    (maxSelectionLength (settings p)) (workspaceContext p) in
  ((injectWorkspaceContext (settings p) = false
    \/ getProcessState p <> Supervisor.running
    \/ (forall url, known_iframeUrl v p = Some url ->
                    Client.resolveSessionId (Client.this w) url = None))
   /\ p' = p)
  \/ exists url sid l c' con,
       injectWorkspaceContext (settings p) = true
       /\ getProcessState p = Supervisor.running
       /\ known_iframeUrl v p = Some url
       /\ Client.resolveSessionId (Client.this w) url = Some sid
       /\ p' = with_client {| Client.this := c'; Client.sent := (Client.sent w ++ l)%list;
                              Client.console := con |}
                 (with_workspaceContext (snd gathered) (with_cachedIframeUrl (Some url) p))
       /\ Client.call_shape (Client.this w) sid (Context.contextText (fst gathered)) l.
Proof.
  cbv zeta. unfold updateOpenCodeContext, known_iframeUrl.
  destruct (injectWorkspaceContext (settings p)) eqn:Hinj; cbn [negb];
    [ | left; split; [ left | ]; reflexivity ].
  destruct (getProcessState p) eqn:Hst;
    try (left; split; [ right; left; discriminate | reflexivity ]).
  destruct (match cachedIframeUrl p with Some u => Some u | None => v end) as [url|] eqn:Hk;
    [ | left; split; [ right; right; discriminate | reflexivity ] ].
  destruct (Client.resolveSessionId (Client.this (openCodeClient p)) url) as [sid|] eqn:Hres.
  - destruct (resolveSessionId_truthy _ _ _ Hres) as [Hurl Hsid].
    rewrite Hurl, Hsid. cbn [negb]. right.
    cbn [with_cachedIframeUrl with_workspaceContext settings workspaceContext openCodeClient].
    destruct (ContextUpdateProofs.updateContext_shape srv sid
                (Context.contextText
                   (fst (Context.gatherContext app (maxNotesInContext (settings p))
                           (maxSelectionLength (settings p)) (workspaceContext p))))
                (openCodeClient p)) as [l [c' [con [H Hshape]]]].
    exists url, sid, l, c', con. rewrite H. cbn [snd].
    repeat split; assumption.
  - left. split.
    + right; right. intros url' E. injection E as <-. exact Hres.
    + destruct (negb (Client.truthy_string url)); reflexivity.
Qed.

(** The context is pushed only when the setting is on, the server runs and
    the known URL of the view, the cached one first, names a session;
    otherwise the plugin is left as it is and nothing is sent.  When it is
    pushed, the URL is cached, the workspace context is the one
    [gatherContext] leaves, and a message is only ever created in the
    session the URL names.  In every case at most three requests are sent,
    at most one of them creating a message, none when [gatherContext] has
    nothing to report; the settings, the process manager and the
    subscribers stay as they are. *)
Theorem updateOpenCodeContext_guarded (srv : Client.Server) (app : Context.App)
    (viewIframeUrl : option string) (p : OpenCodePlugin) :
  let p' := updateOpenCodeContext srv app viewIframeUrl p in
  let c := Client.this (openCodeClient p) in
  let sent_now := Client.issued_by (openCodeClient p) (openCodeClient p') in
  let gathered := Context.gatherContext app (maxNotesInContext (settings p))
                    (maxSelectionLength (settings p)) (workspaceContext p) in
  ((injectWorkspaceContext (settings p) = false
    \/ getProcessState p <> Supervisor.running
    \/ (forall url, known_iframeUrl viewIframeUrl p = Some url ->
                    Client.resolveSessionId c url = None)) ->
   p' = p /\ sent_now = [])
  /\ (forall url sid,
        injectWorkspaceContext (settings p) = true ->
        getProcessState p = Supervisor.running ->
        known_iframeUrl viewIframeUrl p = Some url ->
        Client.resolveSessionId c url = Some sid ->
        cachedIframeUrl p' = Some url
        /\ workspaceContext p' = snd gathered
        /\ (forall r, In r sent_now -> Client.method r = "POST" ->
              Client.url r = Client.apiBaseUrl c ++ "/session/" ++ sid ++ "/message"))
  /\ length sent_now <= 3
  /\ Client.count_method "POST" sent_now <= 1
  /\ (Client.truthy_opt_string (Context.contextText (fst gathered)) = false ->
      Client.count_method "POST" sent_now = 0 /\ length sent_now <= 1)
  /\ settings p' = settings p
  /\ processManager p' = processManager p
  /\ stateChangeCallbacks p' = stateChangeCallbacks p.
Proof.
  cbv zeta.
  destruct (updateOpenCodeContext_cases srv app viewIframeUrl p)
    as [[Hfail Hsame] | [url [sid [l [c' [con [Hinj [Hst [Hk [Hres [Hp' Hshape]]]]]]]]]]];
    cbv zeta in *.
  - rewrite Hsame, issued_by_refl. cbn [length Client.count_method filter].
    split; [ intros _; split; reflexivity | ].
    split; [ | repeat split; lia ].
    intros url sid Hinj Hst Hk Hres. exfalso.
    destruct Hfail as [Hf | [Hf | Hf]]; [ congruence | exact (Hf Hst) | ].
    rewrite (Hf url Hk) in Hres. discriminate.
  - rewrite Hp'. cbn [with_client openCodeClient]. rewrite ClientProofs.issued_by_app.
    destruct (ContextUpdateProofs.call_shape_bounds _ _ _ _ Hshape) as [B1 [B2 [_ [_ [B5 B6]]]]].
    split.
    { intros [Hf | [Hf | Hf]]; exfalso; [ congruence | exact (Hf Hst) | ].
      rewrite (Hf url Hk) in Hres. discriminate. }
    split.
    { intros url' sid' _ _ Hk' Hres'.
      rewrite Hk in Hk'. injection Hk' as <-. rewrite Hres in Hres'. injection Hres' as <-.
      repeat split. exact B5. }
    split; [ exact B1 | ]. split; [ exact B2 | ].
    split; [ intros Hnone; destruct (B6 Hnone); split; assumption | ].
    repeat split.
Qed.

(** ** A session for the view *)

Lemma createSession_sent (srv : Client.Server) (w : Client.World) :
  exists con,
    snd (Client.createSession srv w)
    = {| Client.this := Client.this w;
         Client.sent := (Client.sent w ++ [POST_session (Client.this w)])%list;
         Client.console := con |}.
Proof.
  unfold Client.createSession. rewrite ClientProofs.bind_unfold.
  destruct (ClientProofs.request_spec (Client.sessionApi srv) "POST" "/session"
              (Client.SessionBody "Obsidian") w) as [con H].
  cbv zeta in H. rewrite H. cbn [fst snd].
  destruct (Client.unwrap _); eexists; reflexivity.
Qed.

(** [ensureSessionUrl] does nothing unless the server runs.  A known URL
    that names a session, the cached one first, is kept and cached, and
    nothing is sent.  Otherwise the first request asks for a session, and
    at most three more follow, none unless the view is the active one.  If
    the server gives an id, the view is given the session URL of that id
    and the URL is cached; for an id that is one path segment, and a base
    URL without a session segment of its own, the cached URL names the
    session just created.  If the server gives none, the view is given no
    URL and the cached URL stays as it was. *)
Theorem ensureSessionUrl_creates_when_needed (srv : Client.Server) (app : Context.App)
    (viewIframeUrl : option string) (isActive : bool) (p : OpenCodePlugin) :
  let r := ensureSessionUrl srv app viewIframeUrl isActive p in
  let p' := fst r in
  let c := Client.this (openCodeClient p) in
  let sent_now := Client.issued_by (openCodeClient p) (openCodeClient p') in
  (getProcessState p <> Supervisor.running -> r = (p, None))
  /\ (forall url sid,
        getProcessState p = Supervisor.running ->
        known_iframeUrl viewIframeUrl p = Some url ->
        Client.resolveSessionId c url = Some sid ->
        r = (with_cachedIframeUrl (Some url) p, None) /\ sent_now = [])
  /\ (getProcessState p = Supervisor.running ->
      (forall url, known_iframeUrl viewIframeUrl p = Some url ->
                   Client.resolveSessionId c url = None) ->
      (exists rest, sent_now = POST_session c :: rest
                    /\ length rest <= 3
                    /\ (isActive = false -> rest = []))
      /\ (forall sid,
            fst (Client.createSession srv (openCodeClient p)) = Some sid ->
            sid <> EmptyString ->
            snd r = Some (Client.getSessionUrl c sid)
            /\ cachedIframeUrl p' = Some (Client.getSessionUrl c sid)
            /\ (Client.segment_only sid = true ->
                Client.resolveSessionId c (Client.getSessionUrl c EmptyString) = None ->
                Client.resolveSessionId c (Client.getSessionUrl c sid) = Some sid))
      /\ (fst (Client.createSession srv (openCodeClient p)) = None ->
          snd r = None /\ cachedIframeUrl p' = cachedIframeUrl p
          /\ sent_now = [POST_session c])).
Proof.
  cbv zeta. unfold ensureSessionUrl.
  split; [ intros Hst; destruct (getProcessState p); try reflexivity; congruence | ].
  split.
  - intros url sid Hst Hk Hres. rewrite Hst. unfold known_iframeUrl in Hk. rewrite Hk.
    destruct (resolveSessionId_truthy _ _ _ Hres) as [Hurl _].
    rewrite Hurl, Hres. cbn [Client.truthy_opt_string andb].
    destruct (resolveSessionId_truthy _ _ _ Hres) as [_ Hsid]. rewrite Hsid.
    cbn [fst with_cachedIframeUrl openCodeClient]. split; [ reflexivity | apply issued_by_refl ].
  - intros Hst Hnone. rewrite Hst.
    assert (Hknown :
              match known_iframeUrl viewIframeUrl p with
              | Some url =>
                  if Client.truthy_string url
                     && Client.truthy_opt_string
                          (Client.resolveSessionId (Client.this (openCodeClient p)) url)
                  then Some url else None
              | None => None
              end = None).
    { destruct (known_iframeUrl viewIframeUrl p) as [url|] eqn:Hk; [ | reflexivity ].
      rewrite (Hnone url eq_refl). cbn. rewrite andb_false_r. reflexivity. }
    unfold known_iframeUrl in Hknown. rewrite Hknown.
    destruct (createSession_sent srv (openCodeClient p)) as [con Hsent].
    set (created := Client.createSession srv (openCodeClient p)) in *.
    destruct (fst created) as [sid|] eqn:Hcreated.
    + destruct (Client.truthy_string sid) eqn:Hsid; cbn [negb].
      * cbn [with_client openCodeClient fst snd].
        rewrite Hsent. cbn [Client.this].
        set (p2 := with_cachedIframeUrl _ _).
        split; [ | split ].
        -- destruct isActive.
           ++ destruct (updateOpenCodeContext_cases srv app viewIframeUrl p2)
                as [[_ Hsame] | [url [sid' [l [c' [con' [_ [_ [_ [_ [Hp' Hshape]]]]]]]]]]];
                cbv zeta in *.
              ** rewrite Hsame. subst p2. cbn [with_cachedIframeUrl with_client openCodeClient].
                 rewrite ClientProofs.issued_by_app. exists []. cbn. repeat split; lia.
              ** rewrite Hp'. subst p2.
                 cbn [with_cachedIframeUrl with_client openCodeClient Client.sent].
                 rewrite <- app_assoc. rewrite ClientProofs.issued_by_app.
                 exists l. split; [ reflexivity | ].
                 destruct (ContextUpdateProofs.call_shape_bounds _ _ _ _ Hshape) as [B1 _].
                 split; [ exact B1 | discriminate ].
           ++ subst p2. cbn [with_cachedIframeUrl with_client openCodeClient].
              rewrite ClientProofs.issued_by_app. exists []. cbn. repeat split; lia.
        -- intros sid' E Hne. injection E as <-.
           split; [ reflexivity | ]. split.
           ++ destruct isActive; [ | reflexivity ].
              destruct (updateOpenCodeContext_cases srv app viewIframeUrl p2)
                as [[_ Hsame] | [url [sid' [l [c' [con' [_ [_ [Hk [_ [Hp' _]]]]]]]]]]];
                cbv zeta in *.
              ** rewrite Hsame. reflexivity.
              ** rewrite Hp'. cbn [with_client with_workspaceContext with_cachedIframeUrl
                                   cachedIframeUrl].
                 rewrite <- Hk. reflexivity.
           ++ intros Hseg Hbase. unfold Client.resolveSessionId, Client.getSessionUrl in *.
              apply ClientProofs.match_session_append; assumption.
        -- discriminate.
      * split; [ | split ].
        -- cbn [fst with_client openCodeClient]. rewrite Hsent.
           rewrite ClientProofs.issued_by_app. exists []. cbn. repeat split; lia.
        -- intros sid' E Hne. injection E as <-. destruct sid; [ congruence | discriminate ].
        -- discriminate.
    + split; [ | split ].
      * cbn [fst with_client openCodeClient]. rewrite Hsent.
        rewrite ClientProofs.issued_by_app. exists []. cbn. repeat split; lia.
      * discriminate.
      * intros _. cbn [fst snd with_client openCodeClient cachedIframeUrl]. rewrite Hsent.
        rewrite ClientProofs.issued_by_app. repeat split.
Qed.

End PluginProofs.
